(** * airkit: query-string utilities and the YouTube modal

    A shallow embedding of [src/utils/uri.js] and [src/youtubemodal/index.js].

    JavaScript strings are sequences of UTF-16 code units; they are modelled
    as lists of numbers.  The ECMAScript built-ins the sources call
    ([decodeURIComponent], [encodeURIComponent], [String.prototype.split],
    ...) are modelled after ECMA-262.  Exceptions are explicit: a computation
    that can throw returns a [result]. *)

From Stdlib Require Import List NArith ZArith Bool Lia String Ascii DecimalString.
Import ListNotations.

Set Implicit Arguments.

(* ===================================================================== *)
(** ** JavaScript values and string primitives *)
(* ===================================================================== *)

Module JS.

Definition jschar := N.
Definition jsstring := list jschar.

(** An ASCII literal as a JavaScript string. *)
Definition jsstr (s : string) : jsstring :=
  map N_of_ascii (list_ascii_of_string s).

(** The exceptions that the modelled code can raise. *)
Inductive exn :=
| URIError
| TypeError
| Thrown (msg : jsstring).

Inductive result (A : Type) :=
| Ok (a : A)
| Err (e : exn).
Arguments Ok {A} a.
Arguments Err {A} e.

Definition bind {A B} (r : result A) (k : A -> result B) : result B :=
  match r with
  | Ok a => k a
  | Err e => Err e
  end.

Definition string_eqb (a b : jsstring) : bool :=
  if list_eq_dec N.eq_dec a b then true else false.

(** ToBoolean on a string: only the empty string is falsy. *)
Definition truthy (s : jsstring) : bool :=
  match s with [] => false | _ :: _ => true end.

(** ToBoolean on a value that is [null] or a string. *)
Definition truthy_opt (o : option jsstring) : bool :=
  match o with None => false | Some s => truthy s end.

(** [s.startsWith(p)] *)
Fixpoint startsWith (s p : jsstring) : bool :=
  match p, s with
  | [], _ => true
  | _ :: _, [] => false
  | c :: p', d :: s' => (d =? c)%N && startsWith s' p'
  end.

(** [s.slice(n)] for a non-negative [n]. *)
Definition slice (s : jsstring) (n : nat) : jsstring := skipn n s.

(** [s.indexOf(c)] for a one-character needle; [-1] when absent. *)
Fixpoint indexOf_from (c : jschar) (s : jsstring) (i : Z) : Z :=
  match s with
  | [] => (-1)%Z
  | d :: s' => if (d =? c)%N then i else indexOf_from c s' (i + 1)%Z
  end.

Definition indexOf (s : jsstring) (c : jschar) : Z := indexOf_from c s 0%Z.

(** [s.substring(a, b)]: negative bounds are clamped to 0, bounds past the
    end to the length, and the two are swapped when [a > b]. *)
Definition substring (s : jsstring) (a b : Z) : jsstring :=
  let lo := Z.to_nat (Z.min a b) in
  let hi := Z.to_nat (Z.max a b) in
  firstn (hi - lo) (skipn lo s).

(** [s.substring(a)] *)
Definition substring_from (s : jsstring) (a : Z) : jsstring :=
  skipn (Z.to_nat a) s.

(** [s.split(c)] for a one-character separator: never an empty array. *)
Fixpoint split (s : jsstring) (sep : jschar) : list jsstring :=
  match s with
  | [] => [[]]
  | c :: s' =>
      if (c =? sep)%N then [] :: split s' sep
      else match split s' sep with
           | seg :: segs => (c :: seg) :: segs
           | [] => [[c]]
           end
  end.

(** [parts.join(sep)] *)
Fixpoint join (parts : list jsstring) (sep : jsstring) : jsstring :=
  match parts with
  | [] => []
  | [p] => p
  | p :: ps => p ++ sep ++ join ps sep
  end.

(** [s.replace(/[c]/, rep)]: a regular expression without the [g] flag
    replaces the first occurrence only. *)
Fixpoint replace_first (s : jsstring) (c : jschar) (rep : jsstring) : jsstring :=
  match s with
  | [] => []
  | d :: s' => if (d =? c)%N then rep ++ s' else d :: replace_first s' c rep
  end.

(** [s.replace(/c/g, rep)]: with the [g] flag every occurrence is replaced. *)
Fixpoint replace_all (s : jsstring) (c : jschar) (rep : jsstring) : jsstring :=
  match s with
  | [] => []
  | d :: s' => if (d =? c)%N then rep ++ replace_all s' c rep
               else d :: replace_all s' c rep
  end.

(** Values that are [undefined], [null] or a string. *)
Inductive jsval :=
| JUndefined
| JNull
| JStr (s : jsstring).

(** Abstract equality [a == b] on such values. *)
Definition loose_eq (a b : jsval) : bool :=
  match a, b with
  | JStr s, JStr t => string_eqb s t
  | JStr _, _ | _, JStr _ => false
  | _, _ => true
  end.

(** ToString *)
Definition to_string (v : jsval) : jsstring :=
  match v with
  | JUndefined => jsstr "undefined"
  | JNull => jsstr "null"
  | JStr s => s
  end.

End JS.

(* ===================================================================== *)
(** ** ECMAScript URI built-ins (ECMA-262, "URI Handling Functions") *)
(* ===================================================================== *)

Module URI.
Import JS.
Local Open Scope N_scope.

Definition percent : jschar := 37.

(** Value of a hexadecimal digit, either case. *)
Definition hex_value (c : jschar) : option N :=
  if (48 <=? c) && (c <=? 57) then Some (c - 48)
  else if (65 <=? c) && (c <=? 70) then Some (c - 55)
  else if (97 <=? c) && (c <=? 102) then Some (c - 87)
  else None.

(** Upper-case hexadecimal digit of a value below 16. *)
Definition hex_digit (d : N) : jschar :=
  if d <? 10 then 48 + d else 55 + d.

(** uriUnescaped: letters, decimal digits and [- _ . ! ~ * ' ( )]. *)
Definition unreserved (c : jschar) : bool :=
  ((65 <=? c) && (c <=? 90)) || ((97 <=? c) && (c <=? 122))
  || ((48 <=? c) && (c <=? 57))
  || (c =? 45) || (c =? 95) || (c =? 46) || (c =? 33) || (c =? 126)
  || (c =? 42) || (c =? 39) || (c =? 40) || (c =? 41).

(** The two hexadecimal digits that follow a [%]. *)
Definition read_hex2 (s : jsstring) : option N :=
  match s with
  | h1 :: h2 :: _ =>
      match hex_value h1, hex_value h2 with
      | Some a, Some b => Some (16 * a + b)
      | _, _ => None
      end
  | _ => None
  end.

(** Number of leading 1 bits of an octet: the smallest [n] such that
    [(B << n) & 0x80] is 0. *)
Fixpoint leading_ones_from (fuel : nat) (bit : N) (B : N) : nat :=
  match fuel with
  | O => O
  | S fuel' =>
      if N.testbit B bit then S (leading_ones_from fuel' (N.pred bit) B)
      else O
  end.

Definition leading_ones (B : N) : nat := leading_ones_from 8 7 B.

(** A continuation octet has its two most significant bits equal to 10. *)
Definition is_continuation (B : N) : bool :=
  N.testbit B 7 && negb (N.testbit B 6).

(** The [j] continuation escapes [%XX] expected after a leading octet. *)
Fixpoint read_continuations (j : nat) (s : jsstring) : option (list N) :=
  match j with
  | O => Some []
  | S j' =>
      match s with
      | p :: h1 :: h2 :: s' =>
          if p =? percent then
            match read_hex2 [h1; h2] with
            | Some B =>
                if is_continuation B then
                  option_map (cons B) (read_continuations j' s')
                else None
            | None => None
            end
          else None
      | _ => None
      end
  end.

Definition is_surrogate (V : N) : bool := (0xD800 <=? V) && (V <=? 0xDFFF).

(** The code point encoded by a sequence of octets, when the sequence is a
    valid UTF-8 encoding of a Unicode scalar value: shortest form only, no
    surrogates, nothing above U+10FFFF. *)
Definition utf8_value (octets : list N) : option N :=
  match octets with
  | [b0; b1] =>
      let V := N.lor (N.shiftl (N.land b0 0x1F) 6) (N.land b1 0x3F) in
      if 0x80 <=? V then Some V else None
  | [b0; b1; b2] =>
      let V := N.lor (N.shiftl (N.land b0 0x0F) 12)
                 (N.lor (N.shiftl (N.land b1 0x3F) 6) (N.land b2 0x3F)) in
      if (0x800 <=? V) && negb (is_surrogate V) then Some V else None
  | [b0; b1; b2; b3] =>
      let V := N.lor (N.shiftl (N.land b0 0x07) 18)
                 (N.lor (N.shiftl (N.land b1 0x3F) 12)
                    (N.lor (N.shiftl (N.land b2 0x3F) 6) (N.land b3 0x3F))) in
      if (0x10000 <=? V) && (V <=? 0x10FFFF) then Some V else None
  | _ => None
  end.

(** UTF-16 code units of a code point. *)
Definition utf16_units (V : N) : jsstring :=
  if V <? 0x10000 then [V]
  else [N.land (N.shiftr (V - 0x10000) 10) 0x3FF + 0xD800;
        N.land (V - 0x10000) 0x3FF + 0xDC00].

(** One escape sequence, given the code units that follow its first [%]:
    the code units it decodes to and how many code units after the [%] it
    takes up; [None] when ECMA-262 throws a URIError. *)
Definition decode_escape (rest : jsstring) : option (jsstring * nat) :=
  match read_hex2 rest with
  | None => None
  | Some B =>
      if B <? 128 then Some ([B], 2%nat)
      else
        let n := leading_ones B in
        if (Nat.eqb n 1 || Nat.ltb 4 n)%bool then None
        else
          match read_continuations (n - 1) (skipn 2 rest) with
          | None => None
          | Some octets =>
              match utf8_value (B :: octets) with
              | None => None
              | Some V => Some (utf16_units V, (2 + 3 * (n - 1))%nat)
              end
          end
  end.

(** Decode with an empty reserved set.  [skip] counts the code units that
    the escape just decoded still covers (the index [k] of ECMA-262 has
    already moved past them). *)
Fixpoint Decode (skip : nat) (s : jsstring) : result jsstring :=
  match s with
  | [] => Ok []
  | c :: rest =>
      match skip with
      | S skip' => Decode skip' rest
      | O =>
          if c =? percent then
            match decode_escape rest with
            | None => Err URIError
            | Some (units, used) =>
                match Decode used rest with
                | Ok r => Ok (units ++ r)
                | Err e => Err e
                end
            end
          else
            match Decode 0 rest with
            | Ok r => Ok (c :: r)
            | Err e => Err e
            end
      end
  end.

Definition decodeURIComponent (s : jsstring) : result jsstring := Decode 0 s.

(** UTF-8 octets of a code point. *)
Definition utf8_octets (V : N) : list N :=
  if V <? 0x80 then [V]
  else if V <? 0x800 then
    [N.lor 0xC0 (N.shiftr V 6); N.lor 0x80 (N.land V 0x3F)]
  else if V <? 0x10000 then
    [N.lor 0xE0 (N.shiftr V 12);
     N.lor 0x80 (N.land (N.shiftr V 6) 0x3F);
     N.lor 0x80 (N.land V 0x3F)]
  else
    [N.lor 0xF0 (N.shiftr V 18);
     N.lor 0x80 (N.land (N.shiftr V 12) 0x3F);
     N.lor 0x80 (N.land (N.shiftr V 6) 0x3F);
     N.lor 0x80 (N.land V 0x3F)].

(** [%XX] with upper-case digits. *)
Definition escape_octet (b : N) : jsstring :=
  [percent; hex_digit (N.shiftr b 4); hex_digit (N.land b 0xF)].

Definition escape_octets (bs : list N) : jsstring :=
  flat_map escape_octet bs.

Definition is_high_surrogate (c : jschar) : bool := (0xD800 <=? c) && (c <=? 0xDBFF).
Definition is_low_surrogate (c : jschar) : bool := (0xDC00 <=? c) && (c <=? 0xDFFF).

Definition pair_value (hi lo : jschar) : N :=
  (hi - 0xD800) * 0x400 + (lo - 0xDC00) + 0x10000.

(** Encode with the unreserved set of [encodeURIComponent]; an unpaired
    surrogate throws a URIError. *)
Fixpoint Encode (s : jsstring) : result jsstring :=
  match s with
  | [] => Ok []
  | c :: rest =>
      if unreserved c then
        match Encode rest with
        | Ok r => Ok (c :: r)
        | Err e => Err e
        end
      else if is_low_surrogate c then Err URIError
      else if negb (is_high_surrogate c) then
        match Encode rest with
        | Ok r => Ok (escape_octets (utf8_octets c) ++ r)
        | Err e => Err e
        end
      else
        match rest with
        | [] => Err URIError
        | c2 :: rest2 =>
            if is_low_surrogate c2 then
              match Encode rest2 with
              | Ok r => Ok (escape_octets (utf8_octets (pair_value c c2)) ++ r)
              | Err e => Err e
              end
            else Err URIError
        end
  end.

Definition encodeURIComponent (s : jsstring) : result jsstring := Encode s.

End URI.

(* ===================================================================== *)
(** ** Plain objects used as string-to-string maps *)
(* ===================================================================== *)

(** An object literal [{}] that only ever receives string values under
    computed keys.  The list holds its own enumerable properties in the order
    [for (key in map)] visits them: array-index keys first, by increasing
    index, then the other keys in the order they were first assigned. *)
Module Obj.
Import JS.
Local Open Scope N_scope.

Definition jsobject := list (jsstring * jsstring).

Definition empty : jsobject := [].

Fixpoint digits_value (acc : N) (s : jsstring) : option N :=
  match s with
  | [] => Some acc
  | c :: s' =>
      if (48 <=? c) && (c <=? 57) then digits_value (10 * acc + (c - 48)) s'
      else None
  end.

(** An array index is a canonical decimal numeral below [2^32 - 1]. *)
Definition array_index (k : jsstring) : option N :=
  match k with
  | [] => None
  | c :: s' =>
      if (c =? 48) && truthy s' then None
      else match digits_value 0 k with
           | Some n => if n <? 4294967295 then Some n else None
           | None => None
           end
  end.

Definition proto_key : jsstring := jsstr "__proto__".

(** [key in own properties] *)
Fixpoint has_own (o : jsobject) (k : jsstring) : bool :=
  match o with
  | [] => false
  | (k', _) :: o' => string_eqb k' k || has_own o' k
  end.

(** Own-property read; [None] when the object has no such own property. *)
Fixpoint get (o : jsobject) (k : jsstring) : option jsstring :=
  match o with
  | [] => None
  | (k', v) :: o' => if string_eqb k' k then Some v else get o' k
  end.

(** Overwriting keeps the property's position. *)
Fixpoint overwrite (o : jsobject) (k v : jsstring) : jsobject :=
  match o with
  | [] => []
  | (k', v') :: o' =>
      if string_eqb k' k then (k', v) :: o' else (k', v') :: overwrite o' k v
  end.

(** A new array-index key goes after the smaller indices. *)
Fixpoint insert_index (o : jsobject) (n : N) (k v : jsstring) : jsobject :=
  match o with
  | [] => [(k, v)]
  | (k', v') :: o' =>
      match array_index k' with
      | Some n' =>
          if n' <=? n then (k', v') :: insert_index o' n k v
          else (k, v) :: o
      | None => (k, v) :: o
      end
  end.

(** [o[k] = v] for a string [v].  Assigning a string to ["__proto__"]
    reaches the accessor inherited from [Object.prototype], which ignores
    values that are neither objects nor [null]: no own property appears. *)
Definition set (o : jsobject) (k v : jsstring) : jsobject :=
  if string_eqb k proto_key then o
  else if has_own o k then overwrite o k v
  else match array_index k with
       | Some n => insert_index o n k v
       | None => o ++ [(k, v)]
       end.

(** The property names every plain object inherits from [Object.prototype]
    (ECMA-262, with the additions of Annex B that browsers carry). *)
Definition object_prototype_keys : list jsstring :=
  map jsstr
    ["constructor"; "__defineGetter__"; "__defineSetter__"; "hasOwnProperty";
     "__lookupGetter__"; "__lookupSetter__"; "isPrototypeOf";
     "propertyIsEnumerable"; "toString"; "valueOf"; "__proto__";
     "toLocaleString"]%string.

(** [k in o]: an own property, or one found on the prototype chain, which
    for an object literal is [Object.prototype] alone. *)
Definition has_property (o : jsobject) (k : jsstring) : bool :=
  has_own o k || existsb (string_eqb k) object_prototype_keys.

End Obj.

(* ===================================================================== *)
(** ** src/utils/uri.js: the query codec *)
(* ===================================================================== *)

Module Uri.
Import JS Obj.

Definition ch (a : ascii) : jschar := N_of_ascii a.

(** [urlDecode_] *)
Definition urlDecode_ (str : jsstring) : result jsstring :=
  URI.decodeURIComponent (replace_all str (ch "+") (jsstr " ")).

(** [urlEncode_]; [String(str)] is the identity on strings. *)
Definition urlEncode_ (str : jsstring) : result jsstring :=
  URI.encodeURIComponent str.

Section ParseQueryString.
(** The callback is modelled by its effect on the caller's state. *)
Variable St : Type.
Variable callback : jsstring -> jsstring -> St -> St.

(** The loop [for (var i = 0; i < pairs.length; i++)].  The state that
    the callback built so far survives an exception. *)
Fixpoint parse_pairs (pairs : list jsstring) (st : St) : St * result unit :=
  match pairs with
  | [] => (st, Ok tt)
  | pairs_i :: pairs' =>
      let separatorIndex := indexOf pairs_i (ch "=") in
      if (separatorIndex >=? 0)%Z then
        let key := substring pairs_i 0 separatorIndex in
        let value := substring_from pairs_i (separatorIndex + 1) in
        match urlDecode_ value with
        | Ok decoded => parse_pairs pairs' (callback key decoded st)
        | Err e => (st, Err e)
        end
      else
        let key := pairs_i in
        parse_pairs pairs' (callback key [] st)
  end.

(** [parseQueryString(query, callback)] *)
Definition parseQueryString (query : jsstring) (st : St) : St * result unit :=
  if negb (truthy query) then (st, Ok tt)
  else
    let query := if startsWith query (jsstr "?") then slice query 1 else query in
    let pairs := split query (ch "&") in
    parse_pairs pairs st.
End ParseQueryString.

(** [parseQueryMap(query)] *)
Definition parseQueryMap (query : jsstring) : result jsobject :=
  let '(map, r) :=
    parseQueryString (fun key value map => Obj.set map key value) query Obj.empty in
  match r with
  | Ok _ => Ok map
  | Err e => Err e
  end.

(** The loop [for (var key in map)] of [encodeQueryMap]. *)
Fixpoint encode_params (entries : jsobject) : result (list jsstring) :=
  match entries with
  | [] => Ok []
  | (key, value) :: entries' =>
      match urlEncode_ value with
      | Err e => Err e
      | Ok encoded =>
          match encode_params entries' with
          | Ok params => Ok ((key ++ jsstr "=" ++ encoded) :: params)
          | Err e => Err e
          end
      end
  end.

(** [encodeQueryMap(map)] *)
Definition encodeQueryMap (map : jsobject) : result jsstring :=
  match encode_params map with
  | Ok params => Ok (join params (jsstr "&"))
  | Err e => Err e
  end.

(** *** The regular expression of [getParameterValue] *)

(** SyntaxCharacter of the pattern grammar. *)
Definition syntax_char (c : jschar) : bool :=
  existsb (N.eqb c) (jsstr "^$\.*+?()[]{}|").

(** The escaped key, read as a pattern.  It is interpreted when it is a
    sequence of ordinary characters and of identity escapes (a backslash
    followed by a syntax character): it then matches exactly the returned
    code units.  Keys that bring pattern operators of their own are outside
    this model ([None]). *)
Fixpoint pattern_literal (src : jsstring) : option jsstring :=
  match src with
  | [] => Some []
  | c :: src' =>
      if (c =? ch "\")%N then
        match src' with
        | d :: src'' =>
            if syntax_char d then option_map (cons d) (pattern_literal src'')
            else None
        | [] => None
        end
      else if syntax_char c then None
      else option_map (cons c) (pattern_literal src')
  end.

(** The capture group, a greedy run of characters other than [&] and [#]:
    the longest such prefix. *)
Fixpoint capture_value (s : jsstring) : jsstring :=
  match s with
  | [] => []
  | c :: s' =>
      if ((c =? ch "&") || (c =? ch "#"))%N then [] else c :: capture_value s'
  end.

(** [regex.exec(uri)] for the pattern made of the class [?&], the literal
    [lit], an [=] and the capture group: the capture of the leftmost match,
    [None] for a [null] result. *)
Fixpoint exec_key (lit : jsstring) (uri : jsstring) : option jsstring :=
  match uri with
  | [] => None
  | c :: rest =>
      if (((c =? ch "?") || (c =? ch "&"))%N
          && startsWith rest (lit ++ jsstr "="))%bool
      then Some (capture_value (skipn (List.length lit + 1) rest))
      else exec_key lit rest
  end.

(** The two [replace] calls on the key. *)
Definition escape_key (key : jsstring) : jsstring :=
  replace_first (replace_first key (ch "[") (jsstr "\[")) (ch "]") (jsstr "\]").

(** [getParameterValue(key, opt_uri)], with [href] standing for
    [window.location.href].  The inner [option] is the returned string or
    [null]; the outer one is [None] when the key is outside the pattern
    model. *)
Definition getParameterValue (href : jsstring) (key : jsstring)
    (opt_uri : option jsstring) : option (result (option jsstring)) :=
  let uri := match opt_uri with
             | Some u => if truthy u then u else href
             | None => href
             end in
  let key := escape_key key in
  match pattern_literal key with
  | None => None
  | Some lit =>
      let result := exec_key lit uri in
      Some (match result with
            | Some r =>
                if truthy r then
                  match urlDecode_ r with
                  | Ok v => Ok (Some v)
                  | Err e => Err e
                  end
                else Ok None
            | None => Ok None
            end)
  end.

(** [getParameters(opt_queryString)], with [location_search] standing for
    [window.location.search]. *)
Definition getParameters (location_search : jsstring)
    (opt_queryString : option jsstring) : result jsobject :=
  parseQueryMap (match opt_queryString with
                 | Some q => if truthy q then q else location_search
                 | None => location_search
                 end).

(** [hasParameter(key, opt_queryString)] *)
Definition hasParameter (location_search : jsstring) (key : jsstring)
    (opt_queryString : option jsstring) : result bool :=
  match getParameters location_search opt_queryString with
  | Ok map => Ok (has_property map key)
  | Err e => Err e
  end.

End Uri.

(* ===================================================================== *)
(** ** src/utils/uri.js: [updateParamsFromUrl] *)
(* ===================================================================== *)

Module UpdateParams.
Import JS Obj Uri.

(** An element, as far as this function can tell: its attributes. *)
Record element := { attributes : list (jsstring * jsstring) }.

(** [el.getAttribute(name)]; [None] is [null]. *)
Definition getAttribute (el : element) (name : jsstring) : option jsstring :=
  Obj.get (attributes el) name.

(** [el.setAttribute(name, value)] *)
Definition setAttribute (el : element) (name value : jsstring) : element :=
  {| attributes :=
       if Obj.has_own (attributes el) name
       then Obj.overwrite (attributes el) name value
       else attributes el ++ [(name, value)] |}.

(** Accesses to the document, in program order. *)
Inductive dom_access :=
| QuerySelectorAll (selector : jsstring)
| GetAttribute (index : nat) (name : jsstring)
| SetAttribute (index : nat) (name value : jsstring).

Record page := {
  location_search : jsstring;
  location_href : jsstring;
  document : list element;
  accesses : list dom_access
}.

Definition access (a : dom_access) (pg : page) : page :=
  {| location_search := location_search pg;
     location_href := location_href pg;
     document := document pg;
     accesses := accesses pg ++ [a] |}.

Fixpoint replace_nth {A} (l : list A) (i : nat) (x : A) : list A :=
  match l, i with
  | [], _ => []
  | _ :: l', O => x :: l'
  | y :: l', S i' => y :: replace_nth l' i' x
  end.

Definition write_attribute (i : nat) (name value : jsstring) (pg : page) : page :=
  match nth_error (document pg) i with
  | None => pg
  | Some el =>
      {| location_search := location_search pg;
         location_href := location_href pg;
         document := replace_nth (document pg) i (setAttribute el name value);
         accesses := accesses pg ++ [SetAttribute i name value] |}
  end.

Section WithBrowser.
(** What the browser provides: regular expressions given in [params],
    selector matching, and the [URL] class. *)
Variable regexp : Type.
Variable regexp_match : jsstring -> regexp -> bool.
Variable selector_matches : jsstring -> element -> bool.
Variable url : Type.
Variable URL_new : jsstring -> jsstring -> option url.
Variable url_search : url -> jsstring.
Variable url_set_search : url -> jsstring -> url.
Variable url_toString : url -> jsstring.

Inductive param :=
| ParamString (s : jsstring)
| ParamRegExp (r : regexp).

(** The configuration after [objects.clone] of the defaults and
    [objects.merge] of the caller's object; [params] is [None] for
    [null]. *)
Record config := {
  serializeAttr : jsstring;
  selector : jsstring;
  attr : jsstring;
  params : option (list param)
}.

Definition UpdateParamsFromUrlDefaultConfig : config :=
  {| serializeAttr := jsstr "data-ak-update-params-serialize-into-key";
     selector := jsstr "a.ak-update-params[href]";
     attr := jsstr "href";
     params := None |}.

(** The callback handed to [parseQueryString]. *)
Definition collect (params : option (list param))
    (key value : jsstring) (vals : jsobject) : jsobject :=
  match params with
  | None => Obj.set vals key value
  | Some ps =>
      fold_left
        (fun vals param =>
           match param with
           | ParamRegExp r =>
               if regexp_match key r then Obj.set vals key value else vals
           | ParamString s =>
               if string_eqb s key then Obj.set vals key value else vals
           end)
        ps vals
  end.

(** [document.querySelectorAll(selector)], as positions in the document. *)
Fixpoint matching_from (sel : jsstring) (els : list element) (i : nat) : list nat :=
  match els with
  | [] => []
  | el :: els' =>
      if selector_matches sel el then i :: matching_from sel els' (S i)
      else matching_from sel els' (S i)
  end.

Definition querySelectorAll (sel : jsstring) (pg : page) : list nat :=
  matching_from sel (document pg) 0.

(** The body of the loop over [els] for one element. *)
Definition update_element (c : config) (vals : jsobject) (i : nat) (el : element)
    (pg : page) : page * result unit :=
  let href := getAttribute el (attr c) in
  let pg := access (GetAttribute i (attr c)) pg in
  match href with
  | Some h =>
      if truthy h && negb (startsWith h (jsstr "#")) then
        let pg := access (GetAttribute i (attr c)) pg in
        match URL_new h (location_href pg) with
        | None => (pg, Err TypeError)
        | Some u =>
            match parseQueryMap (url_search u) with
            | Err e => (pg, Err e)
            | Ok map =>
                let serializeIntoKey := getAttribute el (serializeAttr c) in
                let pg := access (GetAttribute i (serializeAttr c)) pg in
                let encoded :=
                  if truthy_opt serializeIntoKey then
                    match encodeQueryMap vals with
                    | Err e => Err e
                    | Ok serializedQueryString =>
                        encodeQueryMap
                          (Obj.set map
                             (match serializeIntoKey with Some k => k | None => [] end)
                             serializedQueryString)
                    end
                  else
                    encodeQueryMap
                      (fold_left (fun map kv => Obj.set map (fst kv) (snd kv)) vals map)
                in
                match encoded with
                | Err e => (pg, Err e)
                | Ok search =>
                    (write_attribute i (attr c)
                       (url_toString (url_set_search u search)) pg, Ok tt)
                end
            end
        end
      else (pg, Ok tt)
  | None => (pg, Ok tt)
  end.

(** The loop [for (var i = 0, el; el = els[i]; i++)]. *)
Fixpoint update_elements (c : config) (vals : jsobject) (els : list nat)
    (pg : page) : page * result unit :=
  match els with
  | [] => (pg, Ok tt)
  | i :: els' =>
      match nth_error (document pg) i with
      | None => (pg, Ok tt)
      | Some el =>
          match update_element c vals i el pg with
          | (pg', Ok _) => update_elements c vals els' pg'
          | (pg', Err e) => (pg', Err e)
          end
      end
  end.

(** [updateParamsFromUrl(config)]; [c] is the merged configuration. *)
Definition updateParamsFromUrl (c : config) (pg : page) : page * result unit :=
  if negb (truthy (location_search pg)) then (pg, Ok tt)
  else
    match parseQueryString (collect (params c)) (location_search pg) Obj.empty with
    | (_, Err e) => (pg, Err e)
    | (vals, Ok _) =>
        let els := querySelectorAll (selector c) pg in
        let pg := access (QuerySelectorAll (selector c)) pg in
        update_elements c vals els pg
    end.

End WithBrowser.

End UpdateParams.

(* ===================================================================== *)
(** ** src/youtubemodal/index.js *)
(* ===================================================================== *)

Module YouTubeModal.
Import JS.
Local Open Scope Z_scope.

Record Config := {
  useHandlerOnMobile : bool;
  history : bool;
  historyNamePrefix : jsstring;
  transitionDuration : Z;
  className : jsstring;
  parentSelector : jsstring;
  onModalOpen : bool;     (* is a callback installed? *)
  onModalClose : bool;
  playerVars : list (jsstring * Z)
}.

Definition defaultConfig : Config :=
  {| useHandlerOnMobile := true;
     history := false;
     historyNamePrefix := jsstr "video:";
     transitionDuration := 300;
     className := jsstr "ak-youtubemodal";
     parentSelector := jsstr "body";
     onModalOpen := false;
     onModalClose := false;
     playerVars :=
       [(jsstr "autohide", 1); (jsstr "autoplay", 1); (jsstr "fs", 1);
        (jsstr "modestbranding", 1); (jsstr "rel", 0); (jsstr "showinfo", 0);
        (jsstr "iv_load_policy", 3)] |}.

(** Calls into the YouTube iframe API, in program order. *)
Inductive player_call :=
| NewPlayer (videoId : jsstring) (playerVars : list (jsstring * Z))
| PlayVideo
| PauseVideo
| LoadVideoById (videoId : jsstring) (startSeconds : Z) (quality : jsstring).

(** Bodies of the callbacks handed to [window.setTimeout]. *)
Inductive timer_body :=
| PlayOrPause (enabled : bool)
| EnableClass (name : jsstring) (enabled : bool).

(** Other effects on the page, in program order. *)
Inductive page_effect :=
| ModalOpenCallback (videoId : option jsstring)
| ModalCloseCallback (videoId : option jsstring)
| ScrollTo (x y : Z)
| AppendModalDom
| AddPopstateListener
| AddClickListener
| AppendScript (src : jsstring)
| ClassSet (name : jsstring) (enabled : bool)
| Navigate (href : jsstring).

(** The fields of a [YouTubeModal] instance.  [lastActiveVideoId_] starts
    as [null]; [activeVideoId_] is never initialised by the constructor and
    is [undefined] until [play] assigns it. *)
Record Modal := {
  config : Config;
  lastActiveVideoId_ : option jsstring;
  scrollY : Z;
  activeVideoId_ : option jsstring
}.

(** The module variables [player] and [singleton], and the parts of the
    browser the module touches. *)
Record World := {
  player : option nat;
  singleton : option Modal;
  mobile : bool;                      (* useragent.isIOS() || useragent.isAndroid() *)
  parent_found : jsstring -> bool;    (* document.querySelector(selector) finds an element *)
  pageYOffset : Z;
  pathname : jsstring;
  player_calls : list player_call;
  timers : list (Z * timer_body);     (* pending timeouts: delay, body *)
  keydown_listeners : list nat;       (* listeners on body, by function identity *)
  functions_created : nat;
  history_state : option jsval;       (* window.history.state: null or {videoId} *)
  history_pushed : list (jsval * jsstring);
  effects : list page_effect
}.

Definition with_player (p : option nat) (calls : list player_call) (w : World) : World :=
  {| player := p; singleton := singleton w; mobile := mobile w;
     parent_found := parent_found w; pageYOffset := pageYOffset w;
     pathname := pathname w; player_calls := calls; timers := timers w;
     keydown_listeners := keydown_listeners w;
     functions_created := functions_created w;
     history_state := history_state w; history_pushed := history_pushed w;
     effects := effects w |}.

Definition with_singleton (s : option Modal) (w : World) : World :=
  {| player := player w; singleton := s; mobile := mobile w;
     parent_found := parent_found w; pageYOffset := pageYOffset w;
     pathname := pathname w; player_calls := player_calls w; timers := timers w;
     keydown_listeners := keydown_listeners w;
     functions_created := functions_created w;
     history_state := history_state w; history_pushed := history_pushed w;
     effects := effects w |}.

Definition with_timers (t : list (Z * timer_body)) (w : World) : World :=
  {| player := player w; singleton := singleton w; mobile := mobile w;
     parent_found := parent_found w; pageYOffset := pageYOffset w;
     pathname := pathname w; player_calls := player_calls w; timers := t;
     keydown_listeners := keydown_listeners w;
     functions_created := functions_created w;
     history_state := history_state w; history_pushed := history_pushed w;
     effects := effects w |}.

Definition with_listeners (l : list nat) (created : nat) (w : World) : World :=
  {| player := player w; singleton := singleton w; mobile := mobile w;
     parent_found := parent_found w; pageYOffset := pageYOffset w;
     pathname := pathname w; player_calls := player_calls w; timers := timers w;
     keydown_listeners := l;
     functions_created := created;
     history_state := history_state w; history_pushed := history_pushed w;
     effects := effects w |}.

Definition with_history (st : option jsval) (pushed : list (jsval * jsstring))
    (w : World) : World :=
  {| player := player w; singleton := singleton w; mobile := mobile w;
     parent_found := parent_found w; pageYOffset := pageYOffset w;
     pathname := pathname w; player_calls := player_calls w; timers := timers w;
     keydown_listeners := keydown_listeners w;
     functions_created := functions_created w;
     history_state := st; history_pushed := pushed;
     effects := effects w |}.

Definition with_effects (e : list page_effect) (w : World) : World :=
  {| player := player w; singleton := singleton w; mobile := mobile w;
     parent_found := parent_found w; pageYOffset := pageYOffset w;
     pathname := pathname w; player_calls := player_calls w; timers := timers w;
     keydown_listeners := keydown_listeners w;
     functions_created := functions_created w;
     history_state := history_state w; history_pushed := history_pushed w;
     effects := e |}.

Definition effect (e : page_effect) (w : World) : World :=
  with_effects (effects w ++ [e]) w.

(** [window.setTimeout(body, delay)] *)
Definition setTimeout (body : timer_body) (delay : Z) (w : World) : World :=
  with_timers (timers w ++ [(delay, body)]) w.

(** [document.body.addEventListener('keydown', f)]: a function already
    registered is not registered again. *)
Definition addEventListener (f : nat) (w : World) : World :=
  if existsb (Nat.eqb f) (keydown_listeners w) then w
  else with_listeners (keydown_listeners w ++ [f]) (functions_created w) w.

(** [document.body.removeEventListener('keydown', f)] *)
Definition removeEventListener (f : nat) (w : World) : World :=
  with_listeners (filter (fun g => negb (Nat.eqb g f)) (keydown_listeners w))
    (functions_created w) w.

(** [window.history.pushState({'videoId': v}, '', url)] *)
Definition pushState (v : jsval) (url : jsstring) (w : World) : World :=
  with_history (Some v) (history_pushed w ++ [(v, url)]) w.

Definition set_lastActiveVideoId_ (v : option jsstring) (m : Modal) : Modal :=
  {| config := config m; lastActiveVideoId_ := v; scrollY := scrollY m;
     activeVideoId_ := activeVideoId_ m |}.

Definition set_scrollY (y : Z) (m : Modal) : Modal :=
  {| config := config m; lastActiveVideoId_ := lastActiveVideoId_ m; scrollY := y;
     activeVideoId_ := activeVideoId_ m |}.

Definition set_activeVideoId_ (v : option jsstring) (m : Modal) : Modal :=
  {| config := config m; lastActiveVideoId_ := lastActiveVideoId_ m;
     scrollY := scrollY m; activeVideoId_ := v |}.

(** [YouTubeModal.prototype.setVisible].  Every call evaluates the function
    expression and [bind] anew, so [_keyToggle] is a function object that
    did not exist before the call. *)
Definition setVisible (this : Modal) (enabled : bool) (w : World) : World :=
  let w := match player w with
           | Some _ => setTimeout (PlayOrPause enabled) 100 w
           | None => w
           end in
  let _keyToggle := functions_created w in
  let w := with_listeners (keydown_listeners w) (S (functions_created w)) w in
  let w := if enabled then addEventListener _keyToggle w
           else removeEventListener _keyToggle w in
  let w := setTimeout (EnableClass (className (config this) ++ jsstr "--enabled") enabled)
             (if enabled then 0 else transitionDuration (config this)) w in
  setTimeout (EnableClass (className (config this) ++ jsstr "--visible") enabled)
    (if enabled then transitionDuration (config this) else 0) w.

Definition undefined_or (o : option jsstring) : jsval :=
  match o with Some s => JStr s | None => JUndefined end.

(** [YouTubeModal.prototype.setActive_]; [None] stands for an argument
    that was not passed. *)
Definition setActive_ (this : Modal) (active : bool) (opt_videoId : option jsstring)
    (opt_updateState : option bool) (w : World) : Modal * World :=
  let this := if truthy_opt opt_videoId
              then set_lastActiveVideoId_ opt_videoId this else this in
  let '(this, w) :=
    if active then
      let w := if onModalOpen (config this)
               then effect (ModalOpenCallback (lastActiveVideoId_ this)) w else w in
      (set_scrollY (pageYOffset w) this, w)
    else
      let w := if onModalClose (config this)
               then effect (ModalCloseCallback (lastActiveVideoId_ this)) w else w in
      (this, effect (ScrollTo 0 (scrollY this)) w) in
  if negb (history (config this)) then (this, setVisible this active w)
  else
    let w := setVisible this active w in
    match opt_updateState with
    | Some false => (this, w)
    | _ =>
        let videoId := if truthy_opt opt_videoId then undefined_or opt_videoId
                       else undefined_or (activeVideoId_ this) in
        if active then
          let stateId := match history_state w with
                         | None => JNull
                         | Some v => v
                         end in
          if loose_eq stateId videoId then (this, w)
          else
            (this,
             pushState videoId
               (jsstr "#" ++ historyNamePrefix (config this) ++ to_string videoId) w)
        else (this, pushState JNull (pathname w) w)
    end.

(** Decimal numeral of an integer, for string concatenation: what
    Number::toString gives for an integer of magnitude below 10^21.  The
    start times of this model are such integers; fractions and NaN, which
    the attribute can also hold, are left out. *)
Definition number_to_string (n : Z) : jsstring :=
  jsstr (DecimalString.NilZero.string_of_int (Z.to_int n)).

(** [YouTubeModal.prototype.play]; a start time is an integer number of
    seconds here. *)
Definition play (this : Modal) (videoId : jsstring) (opt_updateState : option bool)
    (opt_startTime : option Z) (w : World) : Modal * World :=
  let startTime_truthy := match opt_startTime with
                          | Some t => negb (t =? 0)
                          | None => false
                          end in
  let useHandler := useHandlerOnMobile (config this) && mobile w in
  if useHandler then
    let url := jsstr "https://m.youtube.com/watch?v=" ++ videoId in
    let url := match opt_startTime with
               | Some t => if startTime_truthy
                           then url ++ jsstr "&t=" ++ number_to_string t ++ jsstr "s"
                           else url
               | None => url
               end in
    (this, effect (Navigate url) w)
  else
    let '(this, w) := setActive_ this true (Some videoId) opt_updateState w in
    match player w with
    | Some _ =>
        if loose_eq (JStr videoId) (undefined_or (activeVideoId_ this)) then (this, w)
        else
          (set_activeVideoId_ (Some videoId) this,
           with_player (player w)
             (player_calls w ++ [LoadVideoById videoId 0 (jsstr "large")]) w)
    | None =>
        let playerVars_ := playerVars (config this) in
        let playerVars_ :=
          match opt_startTime with
          | Some t => if startTime_truthy then playerVars_ ++ [(jsstr "start", t)]
                      else playerVars_
          | None => playerVars_
          end in
        (set_activeVideoId_ (Some videoId) this,
         with_player (Some (List.length (player_calls w)))
           (player_calls w ++ [NewPlayer videoId playerVars_]) w)
    end.

(** [YouTubeModal.prototype.onHistoryChange_]; [state] is [e.state]. *)
Definition onHistoryChange_ (this : Modal) (state : option jsval) (w : World)
    : Modal * World :=
  match state with
  | Some (JStr id) =>
      if truthy id then play this id (Some false) None w
      else (this, setVisible this false w)
  | _ => (this, setVisible this false w)
  end.

(** The constructor with [initDom_].  When
    [document.querySelector(this.config.parentSelector)] finds no element,
    the first [appendChild] on it raises a TypeError before anything
    reached the page. *)
Definition new_YouTubeModal (c : Config) (w : World) : World * result Modal :=
  if negb (parent_found w (parentSelector c)) then (w, Err TypeError)
  else
    let w := effect AppendModalDom w in
    let w := if history c then effect AddPopstateListener w else w in
    let this := {| config := c; lastActiveVideoId_ := None; scrollY := 0;
                   activeVideoId_ := None |} in
    let w := effect AddClickListener w in
    let w := effect (AppendScript (jsstr "https://www.youtube.com/iframe_api")) w in
    (w, Ok this).

(** [init(opt_config)].  [objects.merge] is given by its effect on the
    cloned defaults. *)
Definition init (opt_config : option (Config -> Config)) (w : World)
    : World * result unit :=
  match singleton w with
  | Some _ => (w, Ok tt)
  | None =>
      let config_ := defaultConfig in
      let config_ := match opt_config with
                     | Some merge => merge config_
                     | None => config_
                     end in
      match new_YouTubeModal config_ w with
      | (w, Ok this) => (with_singleton (Some this) w, Ok tt)
      | (w, Err e) => (w, Err e)
      end
  end.

(** The exported [play(videoId)]. *)
Definition module_play (videoId : jsstring) (w : World) : World * result unit :=
  match singleton w with
  | None => (w, Err (Thrown (jsstr "youtubemodal.init must be run first.")))
  | Some this =>
      let '(this, w) := play this videoId None None w in
      (with_singleton (Some this) w, Ok tt)
  end.

(** *** The page as an event loop *)

(** What can happen on the page: calls of the two exported functions, the
    DOM events the module listens to, and a pending timeout firing. *)
Inductive event :=
| CallInit (opt_config : option (Config -> Config))
| CallPlay (videoId : jsstring)
| ClickLink (videoId : option jsstring) (startTime : Z)
| ClickClose
| Keydown (keyCode : Z)
| Popstate (state : option jsval)
| Timeout (i : nat).

(** The body of [_keyToggle]; [f] is the function object itself, which the
    body names when it removes the listener. *)
Definition keyToggle (f : nat) (keyCode : Z) (this : Modal) (w : World)
    : Modal * World :=
  if keyCode =? 27 then
    let '(this, w) := setActive_ this false None None w in
    (this, removeEventListener f w)
  else (this, w).

(** Dispatch of a [keydown] event on [body]: the listeners registered when
    the dispatch starts run in order, unless removed in the meantime. *)
Fixpoint dispatch_keydown (fs : list nat) (keyCode : Z) (this : Modal) (w : World)
    : Modal * World :=
  match fs with
  | [] => (this, w)
  | f :: fs' =>
      if existsb (Nat.eqb f) (keydown_listeners w) then
        let '(this, w) := keyToggle f keyCode this w in
        dispatch_keydown fs' keyCode this w
      else dispatch_keydown fs' keyCode this w
  end.

(** A timeout callback runs. *)
Definition run_timer (body : timer_body) (w : World) : World :=
  match body with
  | PlayOrPause enabled =>
      match player w with
      | Some _ =>
          with_player (player w)
            (player_calls w ++ [if enabled then PlayVideo else PauseVideo]) w
      | None => w
      end
  | EnableClass name enabled => effect (ClassSet name enabled) w
  end.

Fixpoint remove_nth {A} (l : list A) (i : nat) : list A :=
  match l, i with
  | [], _ => []
  | _ :: l', O => l'
  | x :: l', S i' => x :: remove_nth l' i'
  end.

Definition write_back (r : Modal * World) : World :=
  with_singleton (Some (fst r)) (snd r).

(** One turn of the event loop.  An exception ends the turn; the world
    keeps what was done before it. *)
Definition step (e : event) (w : World) : World :=
  match e with
  | CallInit opt_config => fst (init opt_config w)
  | CallPlay videoId => fst (module_play videoId w)
  | ClickLink videoId startTime =>
      match singleton w, videoId with
      | Some this, Some id =>
          if truthy id then write_back (play this id (Some false) (Some startTime) w)
          else w
      | _, _ => w
      end
  | ClickClose =>
      match singleton w with
      | Some this => write_back (setActive_ this false None None w)
      | None => w
      end
  | Keydown keyCode =>
      match singleton w with
      | Some this => write_back (dispatch_keydown (keydown_listeners w) keyCode this w)
      | None => w
      end
  | Popstate state =>
      let w := with_history state (history_pushed w) w in
      match singleton w with
      | Some this =>
          if history (config this) then write_back (onHistoryChange_ this state w)
          else w
      | None => w
      end
  | Timeout i =>
      match nth_error (timers w) i with
      | Some (_, body) => run_timer body (with_timers (remove_nth (timers w) i) w)
      | None => w
      end
  end.

Definition run (events : list event) (w : World) : World :=
  fold_left (fun w e => step e w) events w.

(** A freshly loaded page. *)
Definition fresh_page (is_mobile : bool) (has_parent : jsstring -> bool)
    (path : jsstring) (offset : Z)
    : World :=
  {| player := None; singleton := None; mobile := is_mobile;
     parent_found := has_parent; pageYOffset := offset; pathname := path;
     player_calls := []; timers := []; keydown_listeners := [];
     functions_created := 0; history_state := None; history_pushed := [];
     effects := [] |}.

Definition is_construction (c : player_call) : bool :=
  match c with NewPlayer _ _ => true | _ => false end.

Definition is_load (c : player_call) : bool :=
  match c with LoadVideoById _ _ _ => true | _ => false end.

Definition constructions (w : World) : nat :=
  List.length (filter is_construction (player_calls w)).

End YouTubeModal.

(* ===================================================================== *)
(** ** The query codec as the specification words it *)
(* ===================================================================== *)

(** The pairs of a query in the specification's terms: no pair on empty
    input; otherwise one leading [?] is dropped, the rest is cut at every
    [&], each segment is cut at its first [=], and only the value is
    decoded, [+] standing for a space.  [decoded_pairs] is the
    specification's reading, one visit per pair; [visits] is what the
    visitor sees when a value cannot be decoded as well. *)
Module QueryCodecSpec.
Import JS.

(** The text before and after the first [c], when there is one. *)
Fixpoint cut_at_first (s : jsstring) (c : jschar) : option (jsstring * jsstring) :=
  match s with
  | [] => None
  | d :: s' =>
      if (d =? c)%N then Some ([], s')
      else match cut_at_first s' c with
           | Some (before, after) => Some (d :: before, after)
           | None => None
           end
  end.

(** Key and raw value of a segment; no raw value without an [=]. *)
Definition raw_pair (segment : jsstring) : jsstring * option jsstring :=
  match cut_at_first segment (Uri.ch "=") with
  | Some (key, value) => (key, Some value)
  | None => (segment, None)
  end.

Definition strip_question_mark (query : jsstring) : jsstring :=
  match query with
  | c :: query' => if (c =? Uri.ch "?")%N then query' else query
  | [] => []
  end.

Definition raw_pairs (query : jsstring) : list (jsstring * option jsstring) :=
  match query with
  | [] => []
  | _ :: _ => map raw_pair (split (strip_question_mark query) (Uri.ch "&"))
  end.

Definition plus_as_space (c : jschar) : jschar :=
  if (c =? Uri.ch "+")%N then Uri.ch " " else c.

Definition decode_value (value : option jsstring) : result jsstring :=
  match value with
  | None => Ok []
  | Some raw => URI.decodeURIComponent (map plus_as_space raw)
  end.

(** One visit per pair, left to right, each value decoded: the visits as
    the specification words them.  There is no such list when some value
    cannot be decoded. *)
Fixpoint decoded_pairs (pairs : list (jsstring * option jsstring))
    : option (list (jsstring * jsstring)) :=
  match pairs with
  | [] => Some []
  | (key, value) :: pairs' =>
      match decode_value value, decoded_pairs pairs' with
      | Ok decoded, Some seen => Some ((key, decoded) :: seen)
      | _, _ => None
      end
  end.

(** The visits, left to right, up to the first value that cannot be
    decoded, and the exception raised there. *)
Fixpoint visits (pairs : list (jsstring * option jsstring))
    : list (jsstring * jsstring) * result unit :=
  match pairs with
  | [] => ([], Ok tt)
  | (key, value) :: pairs' =>
      match decode_value value with
      | Ok decoded =>
          let (seen, r) := visits pairs' in ((key, decoded) :: seen, r)
      | Err e => ([], Err e)
      end
  end.

(** The visits on a query, with the outcome of the run. *)
Definition decodePairs (query : jsstring) : list (jsstring * jsstring) * result unit :=
  visits (raw_pairs query).

(** A visitor that records its calls. *)
Definition record_visit (key value : jsstring) (seen : list (jsstring * jsstring)) :=
  seen ++ [(key, value)].

(** Calling a visitor on each recorded visit in turn. *)
Definition call_all {St : Type} (callback : jsstring -> jsstring -> St -> St)
    (seen : list (jsstring * jsstring)) (st : St) : St :=
  fold_left (fun st kv => callback (fst kv) (snd kv) st) seen st.

End QueryCodecSpec.

(* ===================================================================== *)
(** ** Scenarios on the modal *)
(* ===================================================================== *)

Module ModalScenarios.
Import JS YouTubeModal.

(** The two operations of the history claim: [setActive_(true, videoId)]
    and [setActive_(false)]. *)
Inductive activation :=
| Open (videoId : jsstring)
| Close.

Definition activate (a : activation) (mw : Modal * World) : Modal * World :=
  match a with
  | Open videoId => setActive_ (fst mw) true (Some videoId) None (snd mw)
  | Close => setActive_ (fst mw) false None None (snd mw)
  end.

Definition activations (l : list activation) (mw : Modal * World) : Modal * World :=
  fold_left (fun mw a => activate a mw) l mw.

(** The [videoId] of each pushed history entry, oldest first. *)
Definition pushed_ids (w : World) : list jsval := map fst (history_pushed w).

Definition same_id (a b : jsval) : bool :=
  match a, b with
  | JUndefined, JUndefined => true
  | JNull, JNull => true
  | JStr s, JStr t => string_eqb s t
  | _, _ => false
  end.

Fixpoint no_consecutive_duplicates (ids : list jsval) : bool :=
  match ids with
  | a :: ids' =>
      match ids' with
      | b :: _ => negb (same_id a b) && no_consecutive_duplicates ids'
      | [] => true
      end
  | [] => true
  end.

(** A configuration with history integration, otherwise the defaults. *)
Definition with_history_enabled (c : Config) : Config :=
  {| useHandlerOnMobile := useHandlerOnMobile c;
     history := true;
     historyNamePrefix := historyNamePrefix c;
     transitionDuration := transitionDuration c;
     className := className c;
     parentSelector := parentSelector c;
     onModalOpen := onModalOpen c;
     onModalClose := onModalClose c;
     playerVars := playerVars c |}.


(** A desktop page on which every selector finds an element, scrolled to
    the top. *)
Definition desktop_page : World := fresh_page false (fun _ => true) (jsstr "/") 0.

(** A modal right after construction. *)
Definition new_modal (c : Config) : Modal :=
  {| config := c; lastActiveVideoId_ := None; scrollY := 0; activeVideoId_ := None |}.

(** The configuration that [init(opt_config)] builds: the defaults with
    the caller's options merged in. *)
Definition merged_config (opt_config : option (Config -> Config)) : Config :=
  match opt_config with
  | Some merge => merge defaultConfig
  | None => defaultConfig
  end.

(** The mobile redirect of [play] is not taken. *)
Definition no_redirect (this : Modal) (w : World) : Prop :=
  (useHandlerOnMobile (config this) && mobile w)%bool = false.

Definition loads (w : World) : nat :=
  List.length (filter is_load (player_calls w)).

(** The handle and the constructions agree: none before the first handle,
    exactly one once [player] is set. *)
Definition one_player (w : World) : Prop :=
  match player w with
  | None => constructions w = 0%nat
  | Some _ => constructions w = 1%nat
  end.

(** The module variable [player] together with the calls made so far. *)
Definition player_view (w : World) : option nat * list player_call :=
  (player w, player_calls w).

End ModalScenarios.

Module ListenerScenarios.
Import JS YouTubeModal.

(** [n] rounds of opening a video and clicking the close button. *)
Fixpoint open_close_cycles (n : nat) (videoId : jsstring) : list event :=
  match n with
  | O => []
  | S n' => CallPlay videoId :: ClickClose :: open_close_cycles n' videoId
  end.

(** The [keydown] listeners on [body] and the count of function objects. *)
Definition listener_view (w : World) : list nat * nat :=
  (keydown_listeners w, functions_created w).

(** Every registered listener is a function object that was created. *)
Definition listeners_exist (w : World) : Prop :=
  Forall (fun f => f < functions_created w)%nat (keydown_listeners w).

End ListenerScenarios.

Module UpdateParamsSpec.
Import JS UpdateParams.

(** The elements the specification says are left untouched: the attribute
    is missing, is empty, or starts with [#]. *)
Definition left_alone (name : jsstring) (el : element) : Prop :=
  match getAttribute el name with
  | None => True
  | Some value => value = [] \/ startsWith value (jsstr "#") = true
  end.

End UpdateParamsSpec.

(* ===================================================================== *)
(** ** Well-formed escapes and well-formed UTF-16 *)
(* ===================================================================== *)

Module Escapes.
Import JS URI.
Local Open Scope N_scope.

(** A Unicode scalar value: a code point that is not a surrogate. *)
Definition scalar_value (V : N) : Prop := V < 0x110000 /\ is_surrogate V = false.

(** [escapes octets s]: [s] writes each octet as [%] and two hexadecimal
    digits, of either case. *)
Inductive escapes : list N -> jsstring -> Prop :=
| escapes_nil : escapes [] []
| escapes_cons (b : N) (bs : list N) (h1 h2 : jschar) (s : jsstring) :
    read_hex2 [h1; h2] = Some b -> escapes bs s ->
    escapes (b :: bs) (percent :: h1 :: h2 :: s).

(** Every [%] of the string starts the escaped UTF-8 encoding of a scalar
    value. *)
Inductive well_escaped : jsstring -> Prop :=
| well_escaped_nil : well_escaped []
| well_escaped_char (c : jschar) (s : jsstring) :
    c <> percent -> well_escaped s -> well_escaped (c :: s)
| well_escaped_escape (V : N) (e s : jsstring) :
    scalar_value V -> escapes (utf8_octets V) e -> well_escaped s ->
    well_escaped (e ++ s).

(** Characters of an escape: [%] and hexadecimal digits. *)
Definition escape_char (c : jschar) : Prop :=
  c = percent \/ exists d, hex_value c = Some d.

(** Well-formed UTF-16: 16-bit code units, every surrogate paired. *)
Fixpoint well_formed (s : jsstring) : bool :=
  match s with
  | [] => true
  | c :: s' =>
      if is_high_surrogate c then
        match s' with
        | c2 :: s'' => is_low_surrogate c2 && well_formed s''
        | [] => false
        end
      else negb (is_low_surrogate c) && (c <? 0x10000) && well_formed s'
  end.

(** A character that [encodeURIComponent] can produce. *)
Definition encoded_char (c : jschar) : bool := unreserved c || (c =? percent).

Definition octets_eqb (a b : list N) : bool :=
  if list_eq_dec N.eq_dec a b then true else false.

(** What the decoder needs from the UTF-8 octets of [V], as a test that can
    be run on every code point. *)
Definition scalar_check (V : N) : bool :=
  match utf8_octets V with
  | [] => false
  | [b] => (b <? 128) && octets_eqb (utf16_units V) [b]
  | b :: cs =>
      negb (b <? 128) && (b <? 256)
      && Nat.eqb (leading_ones b) (S (List.length cs))
      && Nat.leb (leading_ones b) 4
      && forallb is_continuation cs
      && forallb (fun c => c <? 256) cs
      && match utf8_value (b :: cs) with
         | Some V' => V' =? V
         | None => false
         end
  end.

(** [f] holds on the [n] numbers from [start] on. *)
Fixpoint all_from (n : nat) (start : N) (f : N -> bool) : bool :=
  match n with
  | O => true
  | S n' => if f start then all_from n' (N.succ start) f else false
  end.

(** An octet written by [escape_octet] reads back, in characters that
    [encodeURIComponent] produces. *)
Definition octet_check (b : N) : bool :=
  match read_hex2 (tl (escape_octet b)) with
  | Some b' => (b' =? b) && forallb encoded_char (escape_octet b)
  | None => false
  end.

End Escapes.

(* ===================================================================== *)
(** ** The round trip of the specification *)
(* ===================================================================== *)

Module RoundTrip.
Import JS URI Obj Uri.

(** [decodeMap(encodeMap(decodeMap(q)))], an exception ending the chain. *)
Definition round_trip (q : jsstring) : result jsobject :=
  bind (parseQueryMap q) (fun m => bind (encodeQueryMap m) parseQueryMap).

(** No key of the query has a character that [encodeURIComponent] would
    escape. *)
Definition keys_need_no_encoding (q : jsstring) : bool :=
  forallb (fun p => forallb unreserved (fst p)) (QueryCodecSpec.raw_pairs q).

(** The object has keys that need no encoding and values that are
    well-formed UTF-16. *)
Definition encodable (m : jsobject) : bool :=
  forallb (fun kv => forallb unreserved (fst kv) && Escapes.well_formed (snd kv)) m.

(** How a parameter of the encoded query relates to the entry it encodes. *)
Definition encodes (kv : jsstring * jsstring) (param : jsstring) : Prop :=
  exists e, param = fst kv ++ ch "=" :: e
            /\ forallb unreserved (fst kv) = true
            /\ forallb Escapes.encoded_char e = true
            /\ QueryCodecSpec.decode_value (Some e) = Ok (snd kv).

(** Every value of the decoded map of [q], when there is one, is
    well-formed UTF-16. *)
Definition values_well_formed (q : jsstring) : bool :=
  match parseQueryMap q with
  | Ok m => forallb (fun kv => Escapes.well_formed (snd kv)) m
  | Err _ => true
  end.

End RoundTrip.

Module ByteChecks.
Import JS URI.
Local Open Scope N_scope.

(** [leading_ones] by ranges, for octets below [0xF8]. *)
Definition lead_class (b : N) : nat :=
  if b <? 0x80 then 0
  else if b <? 0xC0 then 1
  else if b <? 0xE0 then 2
  else if b <? 0xF0 then 3
  else 4.

Definition lead_check (b : N) : bool := Nat.eqb (leading_ones b) (lead_class b).

Definition continuation_check (b : N) : bool :=
  Bool.eqb (is_continuation b) ((0x80 <=? b) && (b <? 0xC0)).

(** Octets from [0xF8] on have more than four leading ones. *)
Definition high_lead_check (b : N) : bool := Nat.ltb 4 (leading_ones b).

End ByteChecks.

Module ObjSpec.
Import JS Obj.
Local Open Scope N_scope.

Definition keys (o : jsobject) : list jsstring := map fst o.

(** [k1] may come before [k2] in the enumeration order. *)
Definition index_le (k1 k2 : jsstring) : Prop :=
  match array_index k1, array_index k2 with
  | Some a, Some b => a <= b
  | Some _, None => True
  | None, Some _ => False
  | None, None => True
  end.

Fixpoint keys_ordered (ks : list jsstring) : Prop :=
  match ks with
  | [] => True
  | k :: ks' => Forall (index_le k) ks' /\ keys_ordered ks'
  end.

(** An object as assignments of strings build it: distinct keys, array
    indices first and in order, no own ["__proto__"]. *)
Definition well_built (o : jsobject) : Prop :=
  NoDup (keys o) /\ keys_ordered (keys o) /\ ~ In proto_key (keys o).

(** Assigning each entry in turn. *)
Definition assign_all (entries : list (jsstring * jsstring)) (o : jsobject) : jsobject :=
  fold_left (fun o kv => Obj.set o (fst kv) (snd kv)) entries o.

End ObjSpec.

(* ===================================================================== *)
(** ** Looking one key up, as the specification words it *)
(* ===================================================================== *)

Module LookupSpec.
Import JS Obj Uri QueryCodecSpec.

(** The raw value of the first pair with this key and an [=]. *)
Fixpoint first_value (key : jsstring) (pairs : list (jsstring * option jsstring))
    : option jsstring :=
  match pairs with
  | [] => None
  | (k, Some raw) :: pairs' =>
      if string_eqb k key then Some raw else first_value key pairs'
  | (_, None) :: pairs' => first_value key pairs'
  end.

(** The decoded value of the last visited pair with this key. *)
Fixpoint last_value (key : jsstring) (seen : list (jsstring * jsstring))
    : option jsstring :=
  match seen with
  | [] => None
  | (k, v) :: seen' =>
      match last_value key seen' with
      | Some w => Some w
      | None => if string_eqb k key then Some v else None
      end
  end.

(** What [getParameterValue] makes of the first raw value: [null] when there
    is none or when it is empty, its decoding otherwise. *)
Definition value_or_null (raw : option jsstring) : result (option jsstring) :=
  match raw with
  | Some r =>
      if truthy r then
        match decode_value (Some r) with
        | Ok v => Ok (Some v)
        | Err e => Err e
        end
      else Ok None
  | None => Ok None
  end.

Definition is_one_of (chars : string) (c : jschar) : bool :=
  existsb (N.eqb c) (jsstr chars).

(** None of the characters occurs in the string. *)
Definition free_of (chars : string) (s : jsstring) : bool :=
  forallb (fun c => negb (is_one_of chars c)) s.

(** The text behind a separator: the remaining segments, each led by [&]. *)
Fixpoint behind (segments : list jsstring) : jsstring :=
  match segments with
  | [] => []
  | seg :: segments' => ch "&" :: seg ++ behind segments'
  end.

(** The key occurs in exactly one pair, which has a non-empty raw value. *)
Definition occurs_once_with_value (key : jsstring)
    (pairs : list (jsstring * option jsstring)) : bool :=
  match filter (fun p => string_eqb (fst p) key) pairs with
  | [(_, Some raw)] => truthy raw
  | _ => false
  end.

(** The claim read literally: the lookup returns what reading the key in
    the decoded map of the query gives. *)
Definition agrees_with_map (key query : jsstring) (got : result (option jsstring)) : Prop :=
  exists m, parseQueryMap query = Ok m /\ got = Ok (Obj.get m key).

(** Every [[] and every []] of the string is preceded by a backslash. *)
Fixpoint brackets_escaped (s : jsstring) : bool :=
  match s with
  | [] => true
  | c :: s' =>
      if (c =? ch "\")%N then
        match s' with
        | _ :: s'' => brackets_escaped s''
        | [] => true
        end
      else negb (is_one_of "[]" c) && brackets_escaped s'
  end.

End LookupSpec.

(* ===================================================================== *)
(** ** Keys as patterns, and the selection of parameters *)
(* ===================================================================== *)

Module KeyPatterns.
Import JS Uri.

(** How many times a character occurs in a string. *)
Definition occurrences (c : jschar) (s : jsstring) : nat :=
  List.length (filter (N.eqb c) s).

(** A character that is a bracket or has no meaning of its own in a
    pattern. *)
Definition bracket_or_ordinary (c : jschar) : bool :=
  negb (syntax_char c) || (c =? ch "[")%N || (c =? ch "]")%N.

(** No [?] or [&] of [prefix] is followed by [lit=] in [prefix ++ rest]:
    the pattern of [getParameterValue] has no match that starts in the
    prefix. *)
Fixpoint no_match_in (lit prefix rest : jsstring) : bool :=
  match prefix with
  | [] => true
  | c :: prefix' =>
      negb (((c =? ch "?") || (c =? ch "&"))%N
            && startsWith (prefix' ++ rest) (lit ++ jsstr "="))
      && no_match_in lit prefix' rest
  end.

End KeyPatterns.

Module ParamSelection.
Import JS UpdateParams.

(** Whether the callback of [updateParamsFromUrl] keeps a key: always when
    [params] is [null], otherwise when some entry of [params] is the key
    itself or a regular expression that the key matches. *)
Definition selects {regexp : Type} (regexp_match : jsstring -> regexp -> bool)
    (params : option (list (param regexp))) (key : jsstring) : bool :=
  match params with
  | None => true
  | Some ps =>
      existsb (fun p => match p with
                        | @ParamString _ s => string_eqb s key
                        | @ParamRegExp _ r => regexp_match key r
                        end) ps
  end.

(** Two pages with the same elements up to the value of one attribute. *)
Definition same_but (name : jsstring) (pg pg' : page) : Prop :=
  List.length (document pg') = List.length (document pg)
  /\ location_search pg' = location_search pg
  /\ location_href pg' = location_href pg
  /\ forall i el, nth_error (document pg) i = Some el ->
       exists el', nth_error (document pg') i = Some el'
                   /\ forall other, other <> name ->
                        getAttribute el' other = getAttribute el other.

End ParamSelection.

(* ===================================================================== *)
(** ** Invariants of the page *)
(* ===================================================================== *)

Module PageInvariants.
Import JS YouTubeModal ModalScenarios.


(** What the constructor adds to the page. *)
Definition is_setup (e : page_effect) : bool :=
  match e with
  | AppendModalDom | AddPopstateListener | AddClickListener | AppendScript _ => true
  | _ => false
  end.

Definition setup_effects (w : World) : list page_effect := filter is_setup (effects w).

(** What the constructor of a modal with this configuration adds. *)
Definition setup_of (c : Config) : list page_effect :=
  AppendModalDom
    :: (if history c then [AddPopstateListener] else [])
    ++ [AddClickListener; AppendScript (jsstr "https://www.youtube.com/iframe_api")].

(** A pending timeout that toggles a class, not one that calls the player. *)
Definition is_class_timer (t : Z * timer_body) : bool :=
  match snd t with
  | EnableClass _ _ => true
  | PlayOrPause _ => false
  end.

(** The constructor ran at most once: its additions are on the page when
    there is a modal, and only then. *)
Definition set_up_once (w : World) : Prop :=
  match singleton w with
  | None => setup_effects w = []
  | Some this => setup_effects w = setup_of (config this)
  end.

(** Without a player, no pending timeout is one that calls the player. *)
Definition class_timers_only (w : World) : Prop :=
  player w = None -> forallb is_class_timer (timers w) = true.

(** The registered listeners are distinct function objects, created
    earlier. *)
Definition distinct_listeners (w : World) : Prop :=
  Forall (fun f => f < functions_created w)%nat (keydown_listeners w)
  /\ NoDup (keydown_listeners w).

End PageInvariants.

Unset Implicit Arguments.

(** Case analysis on every test of the goal. *)
Ltac break_branches :=
  repeat match goal with
    | |- context [if ?b then _ else _] => destruct b eqn:?
    | |- context [match ?o with Some _ => _ | None => _ end] => destruct o eqn:?
    end.

(* ===================================================================== *)
(** ** Facts about the string primitives *)
(* ===================================================================== *)

Section StringFacts.
Import JS.

Lemma string_eqb_eq (a b : jsstring) : string_eqb a b = true <-> a = b.
Proof.
  unfold string_eqb. destruct (list_eq_dec N.eq_dec a b); split; congruence.
Qed.

Lemma string_eqb_refl (a : jsstring) : string_eqb a a = true.
Proof. now apply string_eqb_eq. Qed.

Lemma string_eqb_neq (a b : jsstring) : string_eqb a b = false <-> a <> b.
Proof.
  unfold string_eqb. destruct (list_eq_dec N.eq_dec a b); split; congruence.
Qed.

Lemma split_not_nil (s : jsstring) (sep : jschar) : split s sep <> [].
Proof.
  induction s as [|c s IH]; simpl; [discriminate|].
  destruct (c =? sep)%N; [discriminate|].
  destruct (split s sep); [contradiction|discriminate].
Qed.

(** [indexOf] finds where [cut_at_first] cuts. *)
Lemma indexOf_from_cut (c : jschar) (s : jsstring) (i : Z) :
  match QueryCodecSpec.cut_at_first s c with
  | None => indexOf_from c s i = (-1)%Z
  | Some (before, after) =>
      indexOf_from c s i = (i + Z.of_nat (List.length before))%Z
      /\ s = before ++ c :: after
  end.
Proof.
  revert i. induction s as [|d s IH]; intros i; simpl; [reflexivity|].
  destruct (N.eqb_spec d c) as [->|Hne].
  - simpl. split; [lia|reflexivity].
  - specialize (IH (i + 1)%Z).
    destruct (QueryCodecSpec.cut_at_first s c) as [[before after]|].
    + destruct IH as [Hi Hs]. simpl. split; [lia|now rewrite Hs at 1].
    + exact IH.
Qed.

Lemma substring_prefix (a b : jsstring) :
  substring (a ++ b) 0 (Z.of_nat (List.length a)) = a.
Proof.
  unfold substring.
  rewrite Z.min_l, Z.max_r by lia. simpl.
  rewrite Nat2Z.id, Nat.sub_0_r.
  rewrite firstn_app, Nat.sub_diag, firstn_all. simpl. apply app_nil_r.
Qed.

Lemma substring_from_suffix (a b : jsstring) (c : jschar) :
  substring_from (a ++ c :: b) (Z.of_nat (List.length a) + 1) = b.
Proof.
  unfold substring_from.
  replace (Z.to_nat (Z.of_nat (List.length a) + 1)) with (List.length a + 1)%nat by lia.
  rewrite skipn_app.
  rewrite skipn_all2 by lia. simpl.
  replace (List.length a + 1 - List.length a)%nat with 1%nat by lia.
  reflexivity.
Qed.

Lemma replace_all_char (s : jsstring) (c d : jschar) :
  replace_all s c [d] = map (fun x => if (x =? c)%N then d else x) s.
Proof.
  induction s as [|x s IH]; simpl; [reflexivity|].
  destruct (x =? c)%N; simpl; now rewrite IH.
Qed.

End StringFacts.

(* ===================================================================== *)
(** ** [parseQueryString] against the specification's [decodePairs] *)
(* ===================================================================== *)

Section ParseFacts.
Import JS Uri QueryCodecSpec.

Lemma urlDecode_decode_value (raw : jsstring) :
  urlDecode_ raw = decode_value (Some raw).
Proof.
  unfold urlDecode_, decode_value.
  change (jsstr " ") with [ch " "].
  now rewrite replace_all_char.
Qed.

Lemma startsWith_question (q : jsstring) :
  (if startsWith q (jsstr "?") then slice q 1 else q) = strip_question_mark q.
Proof.
  destruct q as [|c q]; simpl; [reflexivity|].
  change (N_of_ascii "?") with (ch "?").
  destruct q; simpl; rewrite andb_true_r; destruct (c =? ch "?")%N; reflexivity.
Qed.

Variable St : Type.
Variable callback : jsstring -> jsstring -> St -> St.

Lemma parse_pairs_visits (segments : list jsstring) (st : St) :
  parse_pairs callback segments st =
    (call_all callback (fst (visits (map raw_pair segments))) st,
     snd (visits (map raw_pair segments))).
Proof.
  revert st. induction segments as [|seg segments IH]; intros st;
    [reflexivity|].
  cbn [parse_pairs map visits].
  unfold raw_pair at 1 3. unfold indexOf.
  pose proof (indexOf_from_cut (ch "=") seg 0) as Hcut.
  destruct (cut_at_first seg (ch "=")) as [[key value]|].
  - destruct Hcut as [Hi Hs]. rewrite Hi. subst seg.
    replace (0 + Z.of_nat (List.length key) >=? 0)%Z with true
      by (symmetry; apply Z.geb_le; lia).
    rewrite Z.add_0_l.
    rewrite substring_prefix, substring_from_suffix.
    rewrite urlDecode_decode_value.
    destruct (decode_value (Some value)) as [decoded|e]; [|reflexivity].
    rewrite IH. destruct (visits (map raw_pair segments)); reflexivity.
  - rewrite Hcut. cbn [Z.geb Z.compare decode_value].
    rewrite IH. destruct (visits (map raw_pair segments)); reflexivity.
Qed.

Lemma parseQueryString_decodePairs (query : jsstring) (st : St) :
  parseQueryString callback query st =
    (call_all callback (fst (decodePairs query)) st, snd (decodePairs query)).
Proof.
  unfold parseQueryString, decodePairs, raw_pairs.
  destruct query as [|c query]; [reflexivity|].
  cbn [truthy negb]. rewrite startsWith_question.
  apply parse_pairs_visits.
Qed.

End ParseFacts.

Section VisitFacts.
Import JS QueryCodecSpec.

Lemma call_all_record (seen acc : list (jsstring * jsstring)) :
  call_all record_visit seen acc = acc ++ seen.
Proof.
  revert acc. induction seen as [|[k v] seen IH]; intros acc.
  - simpl. now rewrite app_nil_r.
  - change (call_all record_visit ((k, v) :: seen) acc)
      with (call_all record_visit seen (record_visit k v acc)).
    rewrite IH. unfold record_visit. now rewrite <- app_assoc.
Qed.

Lemma visits_all (pairs : list (jsstring * option jsstring)) :
  snd (visits pairs) = Ok tt ->
  List.length (fst (visits pairs)) = List.length pairs
  /\ map fst (fst (visits pairs)) = map fst pairs.
Proof.
  induction pairs as [|[k v] pairs IH]; simpl; [auto|].
  destruct (decode_value v); [|discriminate].
  destruct (visits pairs) as [seen r]. simpl in *.
  intros Hr. destruct (IH Hr) as [Hl Hk]. now rewrite Hl, Hk.
Qed.

End VisitFacts.

(* ===================================================================== *)
(** ** Claims about [parseQueryString] and [parseQueryMap] *)
(* ===================================================================== *)

Section DecodePairsClaims.
Import JS Uri QueryCodecSpec.

(** C10. On the one-character input ["?"] the visitor is called exactly
    once, with an empty key and an empty value, and [parseQueryMap] returns
    the object whose single entry maps the empty key to the empty string,
    not the empty object: the test for an empty query comes before the [?]
    is removed. *)
Theorem C10_bare_question_mark :
  parseQueryString record_visit (jsstr "?") [] = ([([], [])], Ok tt)
  /\ (forall (St : Type) (visit : jsstring -> jsstring -> St -> St) (st : St),
        parseQueryString visit (jsstr "?") st = (visit [] [] st, Ok tt))
  /\ parseQueryMap (jsstr "?") = Ok [([], [])]
  /\ parseQueryMap (jsstr "?") <> Ok Obj.empty
  /\ parseQueryMap [] = Ok Obj.empty.
Proof.
  split; [reflexivity|]. split; [reflexivity|]. split; [reflexivity|].
  split; [discriminate|reflexivity].
Qed.

End DecodePairsClaims.

(* ===================================================================== *)
(** ** The modal: what each method does to the player *)
(* ===================================================================== *)

Section PlayerFacts.
Import JS YouTubeModal ModalScenarios.

Lemma player_view_with_timers t w : player_view (with_timers t w) = player_view w.
Proof. reflexivity. Qed.

Lemma player_view_with_listeners l n w :
  player_view (with_listeners l n w) = player_view w.
Proof. reflexivity. Qed.

Lemma player_view_with_history st p w :
  player_view (with_history st p w) = player_view w.
Proof. reflexivity. Qed.

Lemma player_view_with_effects e w : player_view (with_effects e w) = player_view w.
Proof. reflexivity. Qed.

Lemma player_view_with_singleton s w :
  player_view (with_singleton s w) = player_view w.
Proof. reflexivity. Qed.

Lemma player_view_effect e w : player_view (effect e w) = player_view w.
Proof. reflexivity. Qed.

Lemma player_view_setTimeout b d w : player_view (setTimeout b d w) = player_view w.
Proof. reflexivity. Qed.

Lemma player_view_pushState v u w : player_view (pushState v u w) = player_view w.
Proof. reflexivity. Qed.

Lemma player_view_addEventListener f w :
  player_view (addEventListener f w) = player_view w.
Proof. unfold addEventListener. now break_branches. Qed.

Lemma player_view_removeEventListener f w :
  player_view (removeEventListener f w) = player_view w.
Proof. reflexivity. Qed.

Create Rewrite HintDb player_view.

#[local] Hint Rewrite player_view_with_timers player_view_with_listeners
  player_view_with_history player_view_with_effects player_view_with_singleton
  player_view_effect player_view_setTimeout player_view_pushState
  player_view_addEventListener player_view_removeEventListener : player_view.

Lemma setVisible_player_view this enabled w :
  player_view (setVisible this enabled w) = player_view w.
Proof.
  unfold setVisible. break_branches; now autorewrite with player_view.
Qed.

#[local] Hint Rewrite setVisible_player_view : player_view.

Lemma setActive__player_view this active id upd w :
  player_view (snd (setActive_ this active id upd w)) = player_view w.
Proof.
  unfold setActive_.
  destruct active; break_branches; cbn beta iota zeta; break_branches;
    cbn [snd]; now autorewrite with player_view.
Qed.

Lemma setActive__config this active id upd w :
  config (fst (setActive_ this active id upd w)) = config this.
Proof.
  unfold setActive_.
  destruct active; break_branches; cbn beta iota zeta; break_branches;
    reflexivity.
Qed.

Lemma mobile_addEventListener f w : mobile (addEventListener f w) = mobile w.
Proof. unfold addEventListener. now break_branches. Qed.

Lemma setVisible_mobile this enabled w :
  mobile (setVisible this enabled w) = mobile w.
Proof.
  unfold setVisible. break_branches; cbn; now rewrite ?mobile_addEventListener.
Qed.

Lemma setActive__mobile this active id upd w :
  mobile (snd (setActive_ this active id upd w)) = mobile w.
Proof.
  unfold setActive_.
  destruct active; break_branches; cbn beta iota zeta; break_branches;
    cbn [snd]; unfold pushState; cbn [mobile with_history];
    now rewrite setVisible_mobile.
Qed.

Lemma history_pushed_addEventListener f w :
  history_pushed (addEventListener f w) = history_pushed w.
Proof. unfold addEventListener. now break_branches. Qed.

Lemma history_pushed_setVisible this enabled w :
  history_pushed (setVisible this enabled w) = history_pushed w.
Proof.
  unfold setVisible. break_branches; cbn; now rewrite ?history_pushed_addEventListener.
Qed.

Lemma history_state_addEventListener f w :
  history_state (addEventListener f w) = history_state w.
Proof. unfold addEventListener. now break_branches. Qed.

Lemma history_state_setVisible this enabled w :
  history_state (setVisible this enabled w) = history_state w.
Proof.
  unfold setVisible. break_branches; cbn; now rewrite ?history_state_addEventListener.
Qed.

(** An open with history integration pushes nothing, or one entry whose id
    differs from the id of the current entry. *)
Lemma open_pushes_no_duplicate this v w :
  history (config this) = true ->
  let w' := snd (setActive_ this true (Some v) None w) in
  let current := match history_state w with Some id => id | None => JNull end in
  history_pushed w' = history_pushed w
  \/ exists id url, history_pushed w' = history_pushed w ++ [(id, url)]
                    /\ loose_eq current id = false.
Proof.
  intros Hh. unfold setActive_.
  assert (Hcfg : forall o, config (if truthy_opt (Some v)
                                   then set_lastActiveVideoId_ o this else this)
                           = config this) by (intros o; now destruct (truthy_opt (Some v))).
  destruct (onModalOpen (config (if truthy_opt (Some v)
                                 then set_lastActiveVideoId_ (Some v) this else this)));
    cbn beta iota zeta; cbn [config set_scrollY]; rewrite Hcfg, Hh;
    cbn [negb]; rewrite history_state_setVisible;
    cbn [history_state effect with_effects];
    match goal with
    | |- context [loose_eq ?a ?b] => destruct (loose_eq a b) eqn:Heq
    end; cbn [snd]; unfold pushState; cbn [history_pushed with_history];
    rewrite history_pushed_setVisible; cbn [history_pushed effect with_effects];
    try (now left); right; eexists _, _; (split; [reflexivity|exact Heq]).
Qed.

(** A close with history integration pushes a [null] entry, always. *)
Lemma close_pushes_null this w :
  history (config this) = true ->
  map fst (history_pushed (snd (setActive_ this false None None w))) =
    map fst (history_pushed w) ++ [JNull].
Proof.
  intros Hh. unfold setActive_. cbn [truthy_opt].
  destruct (onModalClose (config this)); cbn beta iota zeta; rewrite Hh;
    cbn [negb snd]; unfold pushState; cbn [history_pushed with_history];
    rewrite history_pushed_setVisible; cbn [history_pushed effect with_effects];
    now rewrite map_app.
Qed.

Lemma setActive__activeVideoId_ this active id upd w :
  activeVideoId_ (fst (setActive_ this active id upd w)) = activeVideoId_ this.
Proof.
  unfold setActive_.
  destruct active; break_branches; cbn beta iota zeta; break_branches;
    reflexivity.
Qed.

Lemma player_of_view w : player w = fst (player_view w).
Proof. reflexivity. Qed.

Lemma calls_of_view w : player_calls w = snd (player_view w).
Proof. reflexivity. Qed.

(** [play] when no player exists yet: one construction. *)
Lemma play_without_player this v upd start w :
  no_redirect this w -> player w = None ->
  exists vars,
    player_calls (snd (play this v upd start w)) = player_calls w ++ [NewPlayer v vars]
    /\ player (snd (play this v upd start w)) = Some (List.length (player_calls w))
    /\ activeVideoId_ (fst (play this v upd start w)) = Some v
    /\ config (fst (play this v upd start w)) = config this
    /\ mobile (snd (play this v upd start w)) = mobile w.
Proof.
  intros Hr Hp. unfold play. unfold no_redirect in Hr. rewrite Hr.
  pose proof (setActive__player_view this true (Some v) upd w) as Hv.
  pose proof (setActive__config this true (Some v) upd w) as Hc.
  pose proof (setActive__mobile this true (Some v) upd w) as Hm.
  destruct (setActive_ this true (Some v) upd w) as [this' w']. cbn [fst snd] in *.
  rewrite (player_of_view w'), (calls_of_view w'), Hv. unfold player_view. cbn [fst snd].
  rewrite Hp. eexists. cbn [fst snd]. repeat split; try reflexivity; assumption.
Qed.

(** [play] when a player exists: nothing for the video already active, one
    [loadVideoById] for another one. *)
Lemma play_with_player this v upd start w h :
  no_redirect this w -> player w = Some h ->
  player (snd (play this v upd start w)) = Some h
  /\ config (fst (play this v upd start w)) = config this
  /\ mobile (snd (play this v upd start w)) = mobile w
  /\ (if loose_eq (JStr v) (undefined_or (activeVideoId_ this))
      then player_calls (snd (play this v upd start w)) = player_calls w
           /\ activeVideoId_ (fst (play this v upd start w)) = activeVideoId_ this
      else player_calls (snd (play this v upd start w)) =
             player_calls w ++ [LoadVideoById v 0 (jsstr "large")]
           /\ activeVideoId_ (fst (play this v upd start w)) = Some v).
Proof.
  intros Hr Hp. unfold play. unfold no_redirect in Hr. rewrite Hr.
  pose proof (setActive__player_view this true (Some v) upd w) as Hv.
  pose proof (setActive__config this true (Some v) upd w) as Hc.
  pose proof (setActive__mobile this true (Some v) upd w) as Hm.
  pose proof (setActive__activeVideoId_ this true (Some v) upd w) as Ha.
  destruct (setActive_ this true (Some v) upd w) as [this' w']. cbn [fst snd] in *.
  rewrite (player_of_view w'), (calls_of_view w'), Hv. unfold player_view. cbn [fst snd].
  rewrite Hp, Ha.
  destruct (loose_eq (JStr v) (undefined_or (activeVideoId_ this))); cbn [fst snd].
  - rewrite (player_of_view w'), (calls_of_view w'), Hv. unfold player_view.
    cbn [fst snd]. auto.
  - cbn. auto.
Qed.

(** *** At most one construction *)

Lemma one_player_same_view w w' :
  player_view w' = player_view w -> one_player w -> one_player w'.
Proof.
  unfold one_player, constructions. rewrite !player_of_view, !calls_of_view.
  now intros ->.
Qed.

Lemma play_redirect this v upd start w :
  (useHandlerOnMobile (config this) && mobile w)%bool = true ->
  player_view (snd (play this v upd start w)) = player_view w
  /\ fst (play this v upd start w) = this.
Proof.
  intros Hr. unfold play. rewrite Hr. break_branches; cbn [fst snd]; auto.
Qed.

Lemma play_one_player this v upd start w :
  one_player w -> one_player (snd (play this v upd start w)).
Proof.
  intros Hw.
  destruct (useHandlerOnMobile (config this) && mobile w)%bool eqn:Hr.
  - apply (one_player_same_view w); [|assumption].
    now apply play_redirect.
  - destruct (player w) as [h|] eqn:Hp.
    + destruct (play_with_player this v upd start w h Hr Hp) as (Hp' & _ & _ & Hc).
      unfold one_player in *. rewrite Hp', Hp in *.
      destruct (loose_eq (JStr v) (undefined_or (activeVideoId_ this)));
        destruct Hc as [Hc _]; unfold constructions in *; rewrite Hc; [assumption|].
      rewrite filter_app, length_app. simpl. lia.
    + destruct (play_without_player this v upd start w Hr Hp)
        as (vars & Hc & Hp' & _).
      unfold one_player in *. rewrite Hp', Hp in *.
      unfold constructions in *. rewrite Hc, filter_app, length_app. simpl. lia.
Qed.

Lemma dispatch_keydown_player_view fs keyCode this w :
  player_view (snd (dispatch_keydown fs keyCode this w)) = player_view w.
Proof.
  revert this w. induction fs as [|f fs IH]; intros this w; simpl; [reflexivity|].
  destruct (existsb (Nat.eqb f) (keydown_listeners w)); [|apply IH].
  unfold keyToggle. destruct (keyCode =? 27)%Z.
  - pose proof (setActive__player_view this false None None w) as Hv.
    destruct (setActive_ this false None None w) as [this' w']. cbn [snd] in Hv.
    rewrite IH. now autorewrite with player_view.
  - apply IH.
Qed.

Lemma run_timer_one_player body w : one_player w -> one_player (run_timer body w).
Proof.
  intros Hw. destruct body as [enabled|name enabled]; simpl.
  - unfold one_player in *. destruct (player w) eqn:Hp; [|now rewrite Hp].
    cbn [player with_player].
    unfold constructions in *. cbn [player_calls with_player].
    rewrite filter_app, length_app. destruct enabled; simpl; lia.
  - now apply (one_player_same_view w).
Qed.

Lemma step_one_player e w : one_player w -> one_player (step e w).
Proof.
  intros Hw. destruct e as [cfg|v|v start| |keyCode|state|i]; simpl.
  - unfold init. destruct (singleton w); [assumption|].
    unfold new_YouTubeModal. destruct (parent_found w _); cbn [negb fst]; [|assumption].
    apply (one_player_same_view w); [|assumption].
    break_branches; now autorewrite with player_view.
  - unfold module_play. destruct (singleton w) as [this|]; [|assumption].
    pose proof (play_one_player this v None None w Hw) as H.
    destruct (play this v None None w) as [this' w']. cbn [fst snd] in *.
    now apply (one_player_same_view (w')).
  - destruct (singleton w) as [this|]; [|assumption].
    destruct v as [id|]; [|assumption].
    destruct (truthy id); [|assumption].
    unfold write_back.
    apply (one_player_same_view (snd (play this id (Some false) (Some start) w)));
      [reflexivity|]. now apply play_one_player.
  - destruct (singleton w) as [this|]; [|assumption].
    apply (one_player_same_view w); [|assumption].
    unfold write_back. autorewrite with player_view.
    apply setActive__player_view.
  - destruct (singleton w) as [this|]; [|assumption].
    apply (one_player_same_view w); [|assumption].
    unfold write_back. autorewrite with player_view.
    apply dispatch_keydown_player_view.
  - cbn [singleton with_history].
    destruct (singleton w) as [this|];
      [|now apply (one_player_same_view w)].
    destruct (history (config this));
      [|now apply (one_player_same_view w)].
    assert (Hw' : one_player (with_history state (history_pushed w) w))
      by now apply (one_player_same_view w).
    unfold write_back, onHistoryChange_.
    destruct state as [[| |id]|];
      try (apply (one_player_same_view w); [|assumption];
           cbn [fst snd]; now autorewrite with player_view).
    destruct (truthy id).
    + apply (one_player_same_view
               (snd (play this id (Some false) None
                            (with_history (Some (JStr id)) (history_pushed w) w))));
        [reflexivity|]. now apply play_one_player.
    + apply (one_player_same_view w); [|assumption].
      cbn [fst snd]. now autorewrite with player_view.
  - destruct (nth_error (timers w) i) as [[delay body]|]; [|assumption].
    apply run_timer_one_player.
    now apply (one_player_same_view w).
Qed.

Lemma run_one_player events w : one_player w -> one_player (run events w).
Proof.
  revert w. induction events as [|e events IH]; intros w Hw; simpl; [assumption|].
  apply IH. now apply step_one_player.
Qed.

Lemma one_player_at_most_once w : one_player w -> (constructions w <= 1)%nat.
Proof. unfold one_player. destruct (player w); lia. Qed.

End PlayerFacts.

(* ===================================================================== *)
(** ** Claims about the modal *)
(* ===================================================================== *)

Section ModalClaims.
Import JS YouTubeModal ModalScenarios.

Lemma null_twice_is_a_duplicate (ids : list jsval) :
  no_consecutive_duplicates (ids ++ [JNull; JNull]) = false.
Proof.
  induction ids as [|a l IH]; [reflexivity|].
  change ((a :: l) ++ [JNull; JNull]) with (a :: (l ++ [JNull; JNull])).
  remember (l ++ [JNull; JNull]) as rest eqn:Hrest.
  destruct rest as [|b rest]; [destruct l; discriminate|].
  change (no_consecutive_duplicates (a :: b :: rest))
    with (negb (same_id a b) && no_consecutive_duplicates (b :: rest)).
  rewrite IH. apply andb_false_r.
Qed.

(** C1. With the mobile redirect not taken and no player yet, [play(v)]
    twice in a row constructs the player exactly once: the second call makes
    no call on the player and leaves the handle as it is.  [play(v1)] then
    [play(v2)] with another id makes one construction followed by exactly one
    [loadVideoById(v2, 0, 'large')], and [activeVideoId_] ends as [v2].
    Whatever happens on the page, calls, clicks, key presses, history
    navigation and timeouts in any order, the player is constructed at most
    once; a timeout callback only ever plays or pauses.  The two scenarios
    are also run through the exported [init] and [play]. *)
Theorem C1_play_constructs_the_player_once :
  (forall (this : Modal) (w : World) (v v2 : jsstring)
          (upd1 upd2 : option bool) (start1 start2 : option Z),
      no_redirect this w -> player w = None -> v2 <> v ->
      let first := play this v upd1 start1 w in
      let again := play (fst first) v upd2 start2 (snd first) in
      let other := play (fst first) v2 upd2 start2 (snd first) in
      (exists vars,
          player_calls (snd first) = player_calls w ++ [NewPlayer v vars]
          /\ player_calls (snd again) = player_calls w ++ [NewPlayer v vars]
          /\ player_calls (snd other) =
               player_calls w ++ [NewPlayer v vars; LoadVideoById v2 0 (jsstr "large")])
      /\ player (snd again) = player (snd first)
      /\ player (snd other) = player (snd first)
      /\ activeVideoId_ (fst again) = Some v
      /\ activeVideoId_ (fst other) = Some v2)
  /\ (forall (events : list event) (is_mobile : bool) (has_parent : jsstring -> bool)
             (path : jsstring) (offset : Z),
        (constructions (run events (fresh_page is_mobile has_parent path offset)) <= 1)%nat)
  /\ (forall (body : timer_body) (w' : World),
        constructions (run_timer body w') = constructions w'
        /\ loads (run_timer body w') = loads w')
  /\ player_calls
       (run [CallInit None; CallPlay (jsstr "abc"); CallPlay (jsstr "abc")] desktop_page) =
       [NewPlayer (jsstr "abc") (playerVars defaultConfig)]
  /\ player_calls
       (run [CallInit None; CallPlay (jsstr "abc"); CallPlay (jsstr "xyz")] desktop_page) =
       [NewPlayer (jsstr "abc") (playerVars defaultConfig);
        LoadVideoById (jsstr "xyz") 0 (jsstr "large")]
  /\ option_map activeVideoId_
       (singleton
          (run [CallInit None; CallPlay (jsstr "abc"); CallPlay (jsstr "xyz")]
             desktop_page)) = Some (Some (jsstr "xyz")).
Proof.
  split; [|split; [|split; [|repeat split]]].
  3:{ intros body w'. destruct body as [enabled|name enabled]; simpl.
      - destruct (player w'); [|split; reflexivity].
        unfold constructions, loads. cbn [player_calls with_player].
        rewrite !filter_app, !length_app. destruct enabled; simpl; lia.
      - split; reflexivity. }
  2:{ intros events is_mobile has_parent path offset.
      apply one_player_at_most_once, run_one_player. reflexivity. }
  intros this w v v2 upd1 upd2 start1 start2 Hr Hp Hne first again other.
  destruct (play_without_player this v upd1 start1 w Hr Hp)
    as (vars & Hc1 & Hp1 & Ha1 & Hcfg1 & Hm1).
  fold first in Hc1, Hp1, Ha1, Hcfg1, Hm1.
  assert (Hr1 : no_redirect (fst first) (snd first))
    by (unfold no_redirect in *; now rewrite Hcfg1, Hm1).
  destruct (play_with_player (fst first) v upd2 start2 (snd first) _ Hr1 Hp1)
    as (Hp2 & _ & _ & Hsame).
  destruct (play_with_player (fst first) v2 upd2 start2 (snd first) _ Hr1 Hp1)
    as (Hp3 & _ & _ & Hother).
  fold again in Hp2, Hsame. fold other in Hp3, Hother.
  rewrite Ha1 in Hsame, Hother. cbn [undefined_or loose_eq] in Hsame, Hother.
  rewrite string_eqb_refl in Hsame.
  replace (string_eqb v2 v) with false in Hother
    by (symmetry; now apply string_eqb_neq).
  destruct Hsame as [Hc2 Ha2]. destruct Hother as [Hc3 Ha3].
  split.
  { exists vars. split; [assumption|]. split; [now rewrite Hc2|].
    rewrite Hc3, Hc1, <- app_assoc. reflexivity. }
  split; [now rewrite Hp2, Hp1|].
  split; [now rewrite Hp3, Hp1|].
  split; assumption.
Qed.

Lemma C1_witness :
  let w := fst (init None desktop_page) in
  let this := new_modal defaultConfig in
  let first := play this (jsstr "abc") None None w in
  player_calls (snd (play (fst first) (jsstr "abc") None None (snd first))) =
    [NewPlayer (jsstr "abc") (playerVars defaultConfig)]
  /\ player_calls (snd (play (fst first) (jsstr "xyz") None None (snd first))) =
    [NewPlayer (jsstr "abc") (playerVars defaultConfig);
     LoadVideoById (jsstr "xyz") 0 (jsstr "large")]
  /\ activeVideoId_ (fst (play (fst first) (jsstr "xyz") None None (snd first))) =
       Some (jsstr "xyz").
Proof.
  intros w this first.
  assert (Hr : no_redirect this w) by reflexivity.
  assert (Hp : player w = None) by reflexivity.
  assert (Hne : jsstr "xyz" <> jsstr "abc") by discriminate.
  destruct C1_play_constructs_the_player_once as [Hplay _].
  destruct (Hplay this w (jsstr "abc") (jsstr "xyz") None None None None Hr Hp Hne)
    as ((vars & Hfirst & Hagain & Hother) & _ & _ & _ & Hactive).
  fold first in Hfirst, Hagain, Hother, Hactive.
  assert (Hvars : vars = playerVars defaultConfig).
  { vm_compute in Hfirst. now injection Hfirst as <-. }
  subst vars. split; [exact Hagain|]. split; [exact Hother|exact Hactive].
Defined.

(** C8. A call of [init] while the singleton exists changes nothing at all
    and returns; so after a first [init] (on a page where its
    [parentSelector] finds an element) a second one, whatever its argument,
    leaves the singleton, its configuration and the page as they are.  The
    exported [play] throws when no singleton exists, and touches nothing. *)
Theorem C8_init_is_idempotent_and_play_needs_init :
  (forall (w : World) (this : Modal) (opt_config : option (Config -> Config)),
      singleton w = Some this -> init opt_config w = (w, Ok tt))
  /\ (forall (w : World) (cfg1 cfg2 : option (Config -> Config)),
        parent_found w (parentSelector (merged_config cfg1)) = true ->
        let w1 := fst (init cfg1 w) in
        (exists this, singleton w1 = Some this) /\ init cfg2 w1 = (w1, Ok tt))
  /\ (forall (w : World) (videoId : jsstring),
        singleton w = None ->
        module_play videoId w =
          (w, Err (Thrown (jsstr "youtubemodal.init must be run first.")))).
Proof.
  assert (Hkeep : forall w this opt_config,
             singleton w = Some this -> init opt_config w = (w, Ok tt)).
  { intros w this opt_config Hs. unfold init. now rewrite Hs. }
  split; [exact Hkeep|]. split.
  - intros w cfg1 cfg2 Hparent w1.
    assert (Hex : exists this, singleton w1 = Some this).
    { subst w1. unfold init. destruct (singleton w) as [this|] eqn:Hs.
      - exists this. exact Hs.
      - unfold new_YouTubeModal. fold (merged_config cfg1). rewrite Hparent.
        cbn [negb fst]. eexists. reflexivity. }
    split; [exact Hex|]. destruct Hex as [this Hs]. now apply (Hkeep w1 this).
  - intros w videoId Hs. unfold module_play. now rewrite Hs.
Qed.

Lemma C8_witness :
  init (Some with_history_enabled) (fst (init None desktop_page)) =
    (fst (init None desktop_page), Ok tt)
  /\ module_play (jsstr "abc") desktop_page =
       (desktop_page, Err (Thrown (jsstr "youtubemodal.init must be run first."))).
Proof.
  destruct C8_init_is_idempotent_and_play_needs_init as (_ & Hsecond & Hplay).
  split.
  - apply (Hsecond desktop_page None (Some with_history_enabled) eq_refl).
  - apply (Hplay desktop_page (jsstr "abc") eq_refl).
Defined.

(** C2 (the code departs from the claim). With history integration on,
    [setActive_(false)] pushes an entry with a [null] video id whatever the
    current entry is: closing twice pushes two [null] entries in a row.  On
    the page, opening ["abc"] and clicking the close button twice pushes
    ["abc"], [null], [null].  The open branch does have the guard: an open
    pushes nothing, or one entry whose id differs from the current entry's,
    so closing and reopening the same video does not push a duplicate. *)
Theorem C2_closing_twice_pushes_null_twice :
  (forall (this : Modal) (w : World),
      history (config this) = true ->
      pushed_ids (snd (activations [Close; Close] (this, w))) =
        pushed_ids w ++ [JNull; JNull]
      /\ no_consecutive_duplicates
           (pushed_ids (snd (activations [Close; Close] (this, w)))) = false)
  /\ (forall (this : Modal) (w : World) (videoId : jsstring),
        history (config this) = true ->
        let w' := snd (activate (Open videoId) (this, w)) in
        let current := match history_state w with Some id => id | None => JNull end in
        history_pushed w' = history_pushed w
        \/ exists id url, history_pushed w' = history_pushed w ++ [(id, url)]
                          /\ loose_eq current id = false)
  /\ pushed_ids
       (run [CallInit (Some with_history_enabled); CallPlay (jsstr "abc");
             ClickClose; ClickClose] desktop_page) =
       [JStr (jsstr "abc"); JNull; JNull]
  /\ pushed_ids
       (snd (activations [Open (jsstr "abc"); Close; Open (jsstr "abc")]
               (new_modal (with_history_enabled defaultConfig), desktop_page))) =
       [JStr (jsstr "abc"); JNull; JStr (jsstr "abc")].
Proof.
  split; [|split; [|split; reflexivity]].
  - intros this w Hh.
    assert (Hpush : pushed_ids (snd (activations [Close; Close] (this, w))) =
                      pushed_ids w ++ [JNull; JNull]).
    { unfold activations, activate, pushed_ids. cbn [fold_left fst snd].
      rewrite close_pushes_null by now rewrite setActive__config.
      rewrite close_pushes_null by assumption.
      now rewrite <- app_assoc. }
    split; [exact Hpush|]. rewrite Hpush. apply null_twice_is_a_duplicate.
  - intros this w videoId Hh. now apply open_pushes_no_duplicate.
Qed.

Lemma C2_witness :
  pushed_ids
    (snd (activations [Close; Close]
            (new_modal (with_history_enabled defaultConfig), desktop_page))) =
    [JNull; JNull].
Proof.
  destruct C2_closing_twice_pushes_null_twice as [Hclose _].
  destruct (Hclose (new_modal (with_history_enabled defaultConfig)) desktop_page eq_refl)
    as [Hpush _].
  exact Hpush.
Defined.

End ModalClaims.

(* ===================================================================== *)
(** ** The modal: [keydown] listeners *)
(* ===================================================================== *)

Section ListenerFacts.
Import JS YouTubeModal ModalScenarios ListenerScenarios.

Lemma listener_view_with_timers t w : listener_view (with_timers t w) = listener_view w.
Proof. reflexivity. Qed.

Lemma listener_view_with_history st p w :
  listener_view (with_history st p w) = listener_view w.
Proof. reflexivity. Qed.

Lemma listener_view_with_effects e w :
  listener_view (with_effects e w) = listener_view w.
Proof. reflexivity. Qed.

Lemma listener_view_with_singleton s w :
  listener_view (with_singleton s w) = listener_view w.
Proof. reflexivity. Qed.

Lemma listener_view_with_player p c w :
  listener_view (with_player p c w) = listener_view w.
Proof. reflexivity. Qed.

Lemma listener_view_effect e w : listener_view (effect e w) = listener_view w.
Proof. reflexivity. Qed.

Lemma listener_view_setTimeout b d w :
  listener_view (setTimeout b d w) = listener_view w.
Proof. reflexivity. Qed.

Lemma listener_view_pushState v u w : listener_view (pushState v u w) = listener_view w.
Proof. reflexivity. Qed.

Create Rewrite HintDb listener_view.

#[local] Hint Rewrite listener_view_with_timers listener_view_with_history
  listener_view_with_effects listener_view_with_singleton listener_view_with_player
  listener_view_effect listener_view_setTimeout listener_view_pushState
  : listener_view.

Lemma fresh_function_not_registered (l : list nat) (n : nat) :
  Forall (fun f => f < n)%nat l -> existsb (Nat.eqb n) l = false.
Proof.
  induction 1 as [|f l Hf _ IH]; simpl; [reflexivity|].
  rewrite IH, orb_false_r. apply Nat.eqb_neq. lia.
Qed.

Lemma remove_fresh_function (l : list nat) (n : nat) :
  Forall (fun f => f < n)%nat l -> filter (fun g => negb (Nat.eqb g n)) l = l.
Proof.
  induction 1 as [|f l Hf _ IH]; simpl; [reflexivity|].
  rewrite IH. replace (Nat.eqb f n) with false; [reflexivity|].
  symmetry. apply Nat.eqb_neq. lia.
Qed.

(** [setVisible(true)] registers a new listener; [setVisible(false)] asks to
    remove a function that was never registered, which removes nothing. *)
Lemma setVisible_listener_view this enabled w :
  listeners_exist w ->
  listener_view (setVisible this enabled w) =
    (if enabled then keydown_listeners w ++ [functions_created w]
     else keydown_listeners w,
     S (functions_created w)).
Proof.
  intros Hw. unfold setVisible.
  set (w1 := match player w with
             | Some _ => setTimeout (PlayOrPause enabled) 100 w
             | None => w
             end).
  assert (H1 : listener_view w1 = listener_view w) by (subst w1; now destruct (player w)).
  injection H1 as Hl Hn.
  autorewrite with listener_view.
  destruct enabled.
  - unfold addEventListener. cbn [keydown_listeners with_listeners functions_created].
    rewrite Hl, Hn, fresh_function_not_registered by exact Hw. reflexivity.
  - unfold removeEventListener.
    cbn [keydown_listeners with_listeners functions_created listener_view].
    rewrite Hl, Hn, remove_fresh_function by exact Hw. reflexivity.
Qed.

Lemma setActive__listener_view this active id upd w :
  listeners_exist w ->
  listener_view (snd (setActive_ this active id upd w)) =
    (if active then keydown_listeners w ++ [functions_created w]
     else keydown_listeners w,
     S (functions_created w)).
Proof.
  intros Hw. unfold setActive_.
  destruct active; break_branches; cbn beta iota zeta; break_branches;
    cbn [snd]; autorewrite with listener_view;
    now rewrite setVisible_listener_view.
Qed.

Lemma play_listener_view this v upd start w :
  no_redirect this w -> listeners_exist w ->
  listener_view (snd (play this v upd start w)) =
    (keydown_listeners w ++ [functions_created w], S (functions_created w)).
Proof.
  intros Hr Hw. unfold play. unfold no_redirect in Hr. rewrite Hr.
  pose proof (setActive__listener_view this true (Some v) upd w Hw) as Hv.
  destruct (setActive_ this true (Some v) upd w) as [this' w']. cbn [fst snd] in *.
  break_branches; cbn [snd]; autorewrite with listener_view; exact Hv.
Qed.

Lemma listeners_exist_of_view w l n :
  listener_view w = (l, n) -> Forall (fun f => f < n)%nat l -> listeners_exist w.
Proof. unfold listener_view, listeners_exist. now intros [= -> ->]. Qed.

(** One round of opening and closing by the button leaves one more listener
    behind. *)
Lemma open_close_cycle_listeners this v w :
  singleton w = Some this -> no_redirect this w -> listeners_exist w ->
  let w' := step ClickClose (step (CallPlay v) w) in
  (exists this', singleton w' = Some this' /\ no_redirect this' w')
  /\ listeners_exist w'
  /\ keydown_listeners w' = keydown_listeners w ++ [functions_created w].
Proof.
  intros Hs Hr Hw. cbn [step]. unfold module_play. rewrite Hs.
  pose proof (play_listener_view this v None None w Hr Hw) as Hv.
  assert (Hcfg : config (fst (play this v None None w)) = config this
                 /\ mobile (snd (play this v None None w)) = mobile w).
  { destruct (player w) as [h|] eqn:Hp.
    - destruct (play_with_player this v None None w h Hr Hp) as (_ & ? & ? & _). auto.
    - destruct (play_without_player this v None None w Hr Hp)
        as (_ & _ & _ & _ & ? & ?). auto. }
  destruct (play this v None None w) as [this1 w1]. cbn [fst snd] in *.
  destruct Hcfg as [Hc1 Hm1].
  assert (Hw1 : listeners_exist w1).
  { apply (listeners_exist_of_view _ _ _ Hv).
    apply Forall_app. split; [|repeat constructor].
    eapply Forall_impl; [|exact Hw]. cbn. lia. }
  cbn [singleton with_singleton].
  pose proof (setActive__listener_view this1 false None None
                (with_singleton (Some this1) w1) Hw1) as Hv2.
  pose proof (setActive__config this1 false None None (with_singleton (Some this1) w1)) as Hc2.
  pose proof (setActive__mobile this1 false None None (with_singleton (Some this1) w1)) as Hm2.
  unfold write_back.
  destruct (setActive_ this1 false None None (with_singleton (Some this1) w1))
    as [this2 w2]. cbn [fst snd] in *.
  change (keydown_listeners (with_singleton (Some this1) w1)) with (keydown_listeners w1) in Hv2.
  change (functions_created (with_singleton (Some this1) w1)) with (functions_created w1) in Hv2.
  change (mobile (with_singleton (Some this1) w1)) with (mobile w1) in Hm2.
  injection Hv as Hl1 Hn1. rewrite Hl1, Hn1 in Hv2.
  split; [|split].
  - exists this2. split; [reflexivity|].
    unfold no_redirect in *. cbn [mobile with_singleton].
    now rewrite Hc2, Hc1, Hm2, Hm1.
  - apply (listeners_exist_of_view _ _ _ Hv2).
    apply Forall_app. split; [|repeat constructor; lia].
    eapply Forall_impl; [|exact Hw]. cbn. lia.
  - cbn [keydown_listeners with_singleton]. now injection Hv2 as -> _.
Qed.

Lemma open_close_cycles_listeners n v :
  forall this w,
    singleton w = Some this -> no_redirect this w -> listeners_exist w ->
    List.length (keydown_listeners (run (open_close_cycles n v) w)) =
      (List.length (keydown_listeners w) + n)%nat.
Proof.
  induction n as [|n IH]; intros this w Hs Hr Hw; [simpl; lia|].
  destruct (open_close_cycle_listeners this v w Hs Hr Hw)
    as ((this' & Hs' & Hr') & Hw' & Hl).
  change (run (open_close_cycles (S n) v) w)
    with (run (open_close_cycles n v) (step ClickClose (step (CallPlay v) w))).
  rewrite (IH this' _ Hs' Hr' Hw'), Hl, length_app. simpl. lia.
Qed.

End ListenerFacts.

Section ListenerClaims.
Import JS YouTubeModal ModalScenarios ListenerScenarios.

(** C7 (the code departs from the claim). An Escape key press while open
    closes the modal and removes the listener that handled it, but a close
    by the button removes nothing: [setVisible] hands [removeEventListener]
    a function created by that very call, never the one registered earlier.
    After [n] rounds of opening a video and clicking the close button, [n]
    [keydown] listeners are registered; two calls of [play] within one open
    period register two. *)
Theorem C7_keydown_listeners_pile_up :
  (forall (n : nat) (videoId : jsstring) (this : Modal) (w : World),
      singleton w = Some this -> no_redirect this w -> listeners_exist w ->
      List.length (keydown_listeners (run (open_close_cycles n videoId) w)) =
        (List.length (keydown_listeners w) + n)%nat)
  /\ keydown_listeners
       (run [CallInit None; CallPlay (jsstr "abc"); ClickClose; CallPlay (jsstr "abc")]
          desktop_page) = [0; 2]%nat
  /\ keydown_listeners
       (run [CallInit None; CallPlay (jsstr "abc"); CallPlay (jsstr "xyz")]
          desktop_page) = [0; 1]%nat
  /\ keydown_listeners
       (run [CallInit None; CallPlay (jsstr "abc"); Keydown 27] desktop_page) = [].
Proof.
  split; [|repeat split].
  intros n videoId this w Hs Hr Hw.
  now apply (open_close_cycles_listeners n videoId this w).
Qed.

Lemma C7_witness :
  List.length
    (keydown_listeners
       (run (open_close_cycles 3 (jsstr "abc")) (fst (init None desktop_page)))) = 3%nat.
Proof.
  destruct C7_keydown_listeners_pile_up as [Hcycles _].
  apply (Hcycles 3 (jsstr "abc") (new_modal defaultConfig)
           (fst (init None desktop_page)) eq_refl eq_refl (Forall_nil _)).
Defined.

End ListenerClaims.

(* ===================================================================== *)
(** ** [updateParamsFromUrl]: what it leaves alone *)
(* ===================================================================== *)

Section UpdateParamsFacts.
Import JS UpdateParams UpdateParamsSpec.

Variable regexp : Type.
Variable regexp_match : jsstring -> regexp -> bool.
Variable selector_matches : jsstring -> element -> bool.
Variable url : Type.
Variable URL_new : jsstring -> jsstring -> option url.
Variable url_search : url -> jsstring.
Variable url_set_search : url -> jsstring -> url.
Variable url_toString : url -> jsstring.

Local Abbreviation update_element :=
  (@UpdateParams.update_element regexp url URL_new url_search url_set_search url_toString).
Local Abbreviation update_elements :=
  (@UpdateParams.update_elements regexp url URL_new url_search url_set_search url_toString).

Lemma nth_error_replace_nth_other {A} (l : list A) (i j : nat) (x : A) :
  i <> j -> nth_error (replace_nth l j x) i = nth_error l i.
Proof.
  revert i j. induction l as [|y l IH]; intros i j Hij; [now destruct j|].
  destruct j as [|j], i as [|i]; simpl; try reflexivity; try contradiction.
  apply IH. congruence.
Qed.

Lemma document_write_attribute_other i j name value pg :
  i <> j ->
  nth_error (document (write_attribute j name value pg)) i = nth_error (document pg) i.
Proof.
  intros Hij. unfold write_attribute.
  destruct (nth_error (document pg) j); [|reflexivity].
  cbn [document]. now apply nth_error_replace_nth_other.
Qed.

(** The loop body writes to the element it was given, and only when that
    element's attribute is a non-empty string that does not start with [#]. *)
Lemma update_element_frame (c : config regexp) vals j elj pg i el :
  nth_error (document pg) i = Some el ->
  nth_error (document pg) j = Some elj ->
  left_alone (attr c) el ->
  nth_error (document (fst (update_element c vals j elj pg))) i = Some el.
Proof.
  intros Hi Hj Hel. unfold UpdateParams.update_element.
  destruct (Nat.eq_dec i j) as [->|Hij].
  - assert (elj = el) by congruence. subst elj.
    unfold left_alone in Hel.
    destruct (getAttribute el (attr c)) as [h|]; [|exact Hi].
    destruct Hel as [->|Hh]; [exact Hi|].
    rewrite Hh, andb_false_r. exact Hi.
  - destruct (getAttribute elj (attr c)) as [h|]; [|exact Hi].
    destruct (truthy h && negb (startsWith h (jsstr "#"))); [|exact Hi].
    destruct (URL_new h _); [|exact Hi].
    destruct (Uri.parseQueryMap _); [|exact Hi].
    match goal with
    | |- context [match ?e with Ok _ => _ | Err _ => _ end] => destruct e
    end; [|exact Hi].
    cbn [fst]. rewrite document_write_attribute_other by exact Hij. exact Hi.
Qed.

Lemma update_elements_frame (c : config regexp) vals els pg i el :
  nth_error (document pg) i = Some el ->
  left_alone (attr c) el ->
  nth_error (document (fst (update_elements c vals els pg))) i = Some el.
Proof.
  intros Hi Hel. revert pg Hi.
  induction els as [|j els IH]; intros pg Hi; [exact Hi|].
  cbn [UpdateParams.update_elements].
  destruct (nth_error (document pg) j) as [elj|] eqn:Hj; [|exact Hi].
  pose proof (update_element_frame c vals j elj pg i el Hi Hj Hel) as Hstep.
  destruct (update_element c vals j elj pg) as [pg' [[]|e]]; cbn [fst] in *.
  - apply IH. exact Hstep.
  - exact Hstep.
Qed.

(** C9. When [location.search] is empty [updateParamsFromUrl] returns at
    once: the page, with its record of DOM reads and writes, is exactly what
    it was.  In every run, completed or cut short by an exception, an element
    whose attribute is missing, empty or starts with [#] is the same element
    afterwards, whether the selector matched it or not. *)
Theorem C9_updateParamsFromUrl_leaves_alone :
  forall (c : config regexp) (pg : page),
    (location_search pg = [] ->
       updateParamsFromUrl regexp_match selector_matches URL_new url_search
         url_set_search url_toString c pg = (pg, Ok tt))
    /\ (forall (i : nat) (el : element),
          nth_error (document pg) i = Some el ->
          left_alone (attr c) el ->
          nth_error
            (document
               (fst (updateParamsFromUrl regexp_match selector_matches URL_new
                       url_search url_set_search url_toString c pg))) i = Some el).
Proof.
  intros c pg. split.
  - intros Hs. unfold updateParamsFromUrl. now rewrite Hs.
  - intros i el Hi Hel. unfold updateParamsFromUrl.
    destruct (negb (truthy (location_search pg))); [exact Hi|].
    destruct (Uri.parseQueryString _ _ _) as [vals [[]|e]]; [|exact Hi].
    apply update_elements_frame; assumption.
Qed.

End UpdateParamsFacts.

Section UpdateParamsWitness.
Import JS UpdateParams UpdateParamsSpec.

(** A page at [?utm_source=a] with an in-page anchor and an outgoing link,
    and a stand-in for [URL] that keeps the address as a string. *)
Lemma C9_witness :
  let anchor := {| attributes := [(jsstr "href", jsstr "#top")] |} in
  let link := {| attributes := [(jsstr "href", jsstr "https://y/")] |} in
  let pg := {| location_search := jsstr "?utm_source=a";
               location_href := jsstr "https://x/?utm_source=a";
               document := [anchor; link];
               accesses := [] |} in
  nth_error
    (document
       (fst (updateParamsFromUrl (fun _ (_ : unit) => true) (fun _ _ => true)
               (fun h _ => Some h) (fun _ => []) (fun u s => u ++ jsstr "?" ++ s)
               (fun u => u) (UpdateParamsFromUrlDefaultConfig unit) pg))) 0
  = Some anchor.
Proof.
  intros anchor link pg.
  apply (C9_updateParamsFromUrl_leaves_alone unit (fun _ (_ : unit) => true)
           (fun _ _ => true) jsstring (fun h _ => Some h) (fun _ => [])
           (fun u s => u ++ jsstr "?" ++ s) (fun u => u)
           (UpdateParamsFromUrlDefaultConfig unit) pg).
  - reflexivity.
  - right. reflexivity.
Defined.

End UpdateParamsWitness.

(* ===================================================================== *)
(** ** UTF-8 and percent escapes *)
(* ===================================================================== *)

Ltac div_lia := zify; Z.to_euclidean_division_equations; lia.

Section Utf8Facts.
Import JS URI Escapes ByteChecks.
Local Open Scope N_scope.

Lemma all_from_spec (f : N -> bool) (n : nat) (start : N) :
  all_from n start f = true ->
  forall k, start <= k -> k < start + N.of_nat n -> f k = true.
Proof.
  revert start. induction n as [|n IH]; intros start Hall k Hlo Hhi; [lia|].
  cbn [all_from] in Hall. destruct (f start) eqn:Hf; [|discriminate].
  destruct (N.eq_dec k start) as [->|Hne]; [exact Hf|].
  apply (IH (N.succ start) Hall); lia.
Qed.

Lemma lead_class_ok (b : N) : b < 0xF8 -> leading_ones b = lead_class b.
Proof.
  intros Hb. apply Nat.eqb_eq.
  apply (all_from_spec lead_check 248 0); [vm_compute; reflexivity|lia|lia].
Qed.

Lemma is_continuation_range (b : N) :
  b < 256 -> is_continuation b = (0x80 <=? b) && (b <? 0xC0).
Proof.
  intros Hb. apply Bool.eqb_prop.
  apply (all_from_spec continuation_check 256 0); [vm_compute; reflexivity|lia|lia].
Qed.

Lemma octet_check_ok (b : N) : b < 256 -> octet_check b = true.
Proof.
  intros Hb.
  apply (all_from_spec octet_check 256 0); [vm_compute; reflexivity|lia|lia].
Qed.

Lemma range_false (a b c : N) :
  ((a <=? c) && (c <=? b))%bool = false <-> c < a \/ b < c.
Proof. rewrite andb_false_iff, !N.leb_gt. tauto. Qed.

(** Disjoint bits add up. *)
Lemma lor_shiftl_add (a b k : N) : b < 2 ^ k -> N.lor (N.shiftl a k) b = a * 2 ^ k + b.
Proof.
  intros Hb.
  assert (Hdisjoint : N.land (N.shiftl a k) b = 0).
  { apply N.bits_inj. intros n. rewrite N.land_spec, N.bits_0.
    destruct (N.lt_ge_cases n k) as [Hn|Hn].
    - now rewrite N.shiftl_spec_low.
    - rewrite <- (N.mod_small b (2 ^ k)) by exact Hb.
      rewrite N.mod_pow2_bits_high by exact Hn. apply andb_false_r. }
  rewrite <- N.lxor_lor, <- N.add_nocarry_lxor by exact Hdisjoint.
  now rewrite N.shiftl_mul_pow2.
Qed.

Lemma lor_80 (x : N) : x < 64 -> N.lor 0x80 x = 0x80 + x.
Proof. intros Hx. change 0x80 with (N.shiftl 2 6) at 1. now rewrite lor_shiftl_add. Qed.

Lemma lor_C0 (x : N) : x < 32 -> N.lor 0xC0 x = 0xC0 + x.
Proof. intros Hx. change 0xC0 with (N.shiftl 6 5) at 1. now rewrite lor_shiftl_add. Qed.

Lemma lor_E0 (x : N) : x < 16 -> N.lor 0xE0 x = 0xE0 + x.
Proof. intros Hx. change 0xE0 with (N.shiftl 14 4) at 1. now rewrite lor_shiftl_add. Qed.

Lemma lor_F0 (x : N) : x < 8 -> N.lor 0xF0 x = 0xF0 + x.
Proof. intros Hx. change 0xF0 with (N.shiftl 30 3) at 1. now rewrite lor_shiftl_add. Qed.

Lemma land_3F (x : N) : N.land x 0x3F = x mod 64.
Proof. change 0x3F with (N.ones 6). now rewrite N.land_ones. Qed.

Lemma land_1F (x : N) : N.land x 0x1F = x mod 32.
Proof. change 0x1F with (N.ones 5). now rewrite N.land_ones. Qed.

Lemma land_0F (x : N) : N.land x 0x0F = x mod 16.
Proof. change 0x0F with (N.ones 4). now rewrite N.land_ones. Qed.

Lemma land_07 (x : N) : N.land x 0x07 = x mod 8.
Proof. change 0x07 with (N.ones 3). now rewrite N.land_ones. Qed.

Lemma land_3FF (x : N) : N.land x 0x3FF = x mod 1024.
Proof. change 0x3FF with (N.ones 10). now rewrite N.land_ones. Qed.

Lemma shiftr_6 (x : N) : N.shiftr x 6 = x / 64.
Proof. now rewrite N.shiftr_div_pow2. Qed.

Lemma shiftr_10 (x : N) : N.shiftr x 10 = x / 1024.
Proof. now rewrite N.shiftr_div_pow2. Qed.

Lemma shiftr_12 (x : N) : N.shiftr x 12 = x / 4096.
Proof. now rewrite N.shiftr_div_pow2. Qed.

Lemma shiftr_18 (x : N) : N.shiftr x 18 = x / 262144.
Proof. now rewrite N.shiftr_div_pow2. Qed.

Lemma lor_shiftl_6 (a b : N) : b < 64 -> N.lor (N.shiftl a 6) b = a * 64 + b.
Proof. intros Hb. now rewrite lor_shiftl_add. Qed.

Lemma lor_shiftl_12 (a b : N) : b < 4096 -> N.lor (N.shiftl a 12) b = a * 4096 + b.
Proof. intros Hb. now rewrite lor_shiftl_add. Qed.

Lemma lor_shiftl_18 (a b : N) : b < 262144 -> N.lor (N.shiftl a 18) b = a * 262144 + b.
Proof. intros Hb. now rewrite lor_shiftl_add. Qed.

(** The octets of a code point, in arithmetic. *)
Lemma utf8_octets_arith (V : N) :
  V < 0x110000 ->
  utf8_octets V =
    if V <? 0x80 then [V]
    else if V <? 0x800 then [0xC0 + V / 64; 0x80 + V mod 64]
    else if V <? 0x10000 then
      [0xE0 + V / 4096; 0x80 + (V / 64) mod 64; 0x80 + V mod 64]
    else
      [0xF0 + V / 262144; 0x80 + (V / 4096) mod 64;
       0x80 + (V / 64) mod 64; 0x80 + V mod 64].
Proof.
  intros HV. unfold utf8_octets.
  rewrite !land_3F, !shiftr_6, !shiftr_12, !shiftr_18.
  rewrite !lor_80 by (apply N.mod_lt; discriminate).
  destruct (N.ltb_spec V 0x80); [reflexivity|].
  destruct (N.ltb_spec V 0x800); [rewrite lor_C0 by div_lia; reflexivity|].
  destruct (N.ltb_spec V 0x10000); [rewrite lor_E0 by div_lia; reflexivity|].
  rewrite lor_F0 by div_lia. reflexivity.
Qed.

(** The value of two, three and four octets, in arithmetic. *)
Lemma utf8_value_2 (b0 b1 : N) :
  utf8_value [b0; b1] =
    let V := (b0 mod 32) * 64 + b1 mod 64 in
    if 0x80 <=? V then Some V else None.
Proof.
  unfold utf8_value. rewrite land_1F, land_3F.
  rewrite lor_shiftl_6 by (apply N.mod_lt; discriminate). reflexivity.
Qed.

Lemma utf8_value_3 (b0 b1 b2 : N) :
  utf8_value [b0; b1; b2] =
    let V := (b0 mod 16) * 4096 + ((b1 mod 64) * 64 + b2 mod 64) in
    if (0x800 <=? V) && negb (is_surrogate V) then Some V else None.
Proof.
  unfold utf8_value. rewrite land_0F, !land_3F.
  rewrite lor_shiftl_6 by (apply N.mod_lt; discriminate).
  rewrite lor_shiftl_12 by div_lia. reflexivity.
Qed.

Lemma utf8_value_4 (b0 b1 b2 b3 : N) :
  utf8_value [b0; b1; b2; b3] =
    let V := (b0 mod 8) * 262144
             + ((b1 mod 64) * 4096 + ((b2 mod 64) * 64 + b3 mod 64)) in
    if (0x10000 <=? V) && (V <=? 0x10FFFF) then Some V else None.
Proof.
  unfold utf8_value. rewrite land_07, !land_3F.
  rewrite lor_shiftl_6 by (apply N.mod_lt; discriminate).
  rewrite lor_shiftl_12 by div_lia.
  rewrite lor_shiftl_18 by div_lia. reflexivity.
Qed.

(** Decide the comparisons of the goal from the hypotheses. *)
Ltac decide_comparisons :=
  repeat match goal with
    | |- context [?a <? ?b] =>
        destruct (N.ltb_spec a b); [try (exfalso; div_lia)|try (exfalso; div_lia)]
    | |- context [?a <=? ?b] =>
        destruct (N.leb_spec a b); [try (exfalso; div_lia)|try (exfalso; div_lia)]
    end.

Lemma scalar_check_holds (V : N) : scalar_value V -> scalar_check V = true.
Proof.
  intros [HV Hs]. unfold is_surrogate in Hs.
  unfold scalar_check. rewrite utf8_octets_arith by exact HV.
  destruct (N.ltb_spec V 0x80) as [H1|H1].
  { unfold utf16_units. decide_comparisons. unfold octets_eqb.
    now destruct (list_eq_dec N.eq_dec [V] [V]). }
  destruct (N.ltb_spec V 0x800) as [H2|H2].
  { set (b0 := 0xC0 + V / 64). set (b1 := 0x80 + V mod 64).
    assert (Hb0 : 0xC2 <= b0 < 0xE0) by (subst b0; div_lia).
    assert (Hb1 : 0x80 <= b1 < 0xC0) by (subst b1; div_lia).
    rewrite utf8_value_2. cbn [forallb List.length].
    rewrite lead_class_ok by lia. rewrite is_continuation_range by lia.
    unfold lead_class.
    assert (HV' : (b0 mod 32) * 64 + b1 mod 64 = V) by (subst b0 b1; div_lia).
    cbv zeta. rewrite HV'.
    decide_comparisons. cbn [negb andb Nat.eqb Nat.leb]. apply N.eqb_refl. }
  destruct (N.ltb_spec V 0x10000) as [H3|H3].
  { set (b0 := 0xE0 + V / 4096). set (b1 := 0x80 + (V / 64) mod 64).
    set (b2 := 0x80 + V mod 64).
    assert (Hb0 : 0xE0 <= b0 < 0xF0) by (subst b0; div_lia).
    assert (Hb1 : 0x80 <= b1 < 0xC0) by (subst b1; div_lia).
    assert (Hb2 : 0x80 <= b2 < 0xC0) by (subst b2; div_lia).
    rewrite utf8_value_3. cbn [forallb List.length].
    rewrite lead_class_ok by lia. rewrite !is_continuation_range by lia.
    unfold lead_class.
    assert (HV' : (b0 mod 16) * 4096 + ((b1 mod 64) * 64 + b2 mod 64) = V)
      by (subst b0 b1 b2; div_lia).
    cbv zeta. rewrite HV'. unfold is_surrogate. rewrite Hs.
    decide_comparisons. cbn [negb andb Nat.eqb Nat.leb]. apply N.eqb_refl. }
  set (b0 := 0xF0 + V / 262144). set (b1 := 0x80 + (V / 4096) mod 64).
  set (b2 := 0x80 + (V / 64) mod 64). set (b3 := 0x80 + V mod 64).
  assert (Hb0 : 0xF0 <= b0 < 0xF5) by (subst b0; div_lia).
  assert (Hb1 : 0x80 <= b1 < 0xC0) by (subst b1; div_lia).
  assert (Hb2 : 0x80 <= b2 < 0xC0) by (subst b2; div_lia).
  assert (Hb3 : 0x80 <= b3 < 0xC0) by (subst b3; div_lia).
  rewrite utf8_value_4. cbn [forallb List.length].
  rewrite lead_class_ok by lia. rewrite !is_continuation_range by lia.
  unfold lead_class.
  assert (HV' : (b0 mod 8) * 262144
                + ((b1 mod 64) * 4096 + ((b2 mod 64) * 64 + b3 mod 64)) = V)
    by (subst b0 b1 b2 b3; div_lia).
  cbv zeta. rewrite HV'.
  decide_comparisons. cbn [negb andb Nat.eqb Nat.leb]. apply N.eqb_refl.
Qed.

End Utf8Facts.

(* ===================================================================== *)
(** ** [decodeURIComponent] on well-formed escapes *)
(* ===================================================================== *)

Section DecodeFacts.
Import JS URI Escapes.
Local Open Scope N_scope.

(** Decoding [s] after the decoder has moved past [l]. *)
Lemma Decode_skip (l s : jsstring) : Decode (List.length l) (l ++ s) = Decode 0 s.
Proof. induction l as [|c l IH]; [reflexivity|exact IH]. Qed.

Lemma Decode_plain (c : jschar) (s : jsstring) :
  c <> percent ->
  Decode 0 (c :: s) = match Decode 0 s with Ok r => Ok (c :: r) | Err e => Err e end.
Proof.
  intros Hc. cbn [Decode]. now destruct (N.eqb_spec c percent).
Qed.

Lemma escapes_length (bs : list N) (e : jsstring) :
  escapes bs e -> List.length e = (3 * List.length bs)%nat.
Proof. induction 1 as [|b bs h1 h2 s _ _ IH]; simpl; [reflexivity|lia]. Qed.

Lemma read_continuations_escapes (bs : list N) (e s : jsstring) :
  escapes bs e -> forallb is_continuation bs = true ->
  read_continuations (List.length bs) (e ++ s) = Some bs.
Proof.
  induction 1 as [|b bs h1 h2 e' Hb _ IH]; intros Hc; [reflexivity|].
  cbn [forallb] in Hc. apply andb_true_iff in Hc as [Hcb Hcs].
  cbn [List.length read_continuations app]. rewrite N.eqb_refl, Hb, Hcb, (IH Hcs).
  reflexivity.
Qed.

(** An escaped scalar value decodes to its UTF-16 code units. *)
Lemma Decode_escape (V : N) (e s : jsstring) :
  scalar_value V -> escapes (utf8_octets V) e ->
  Decode 0 (e ++ s) =
    match Decode 0 s with Ok r => Ok (utf16_units V ++ r) | Err x => Err x end.
Proof.
  intros HV He. pose proof (scalar_check_holds V HV) as Hcheck.
  unfold scalar_check in Hcheck.
  destruct He as [|b cs h1 h2 e' Hb Hcs]; [discriminate|].
  assert (Hlen : List.length (h1 :: h2 :: e') = (2 + 3 * List.length cs)%nat)
    by (cbn [List.length]; rewrite (escapes_length cs e' Hcs); lia).
  assert (Hesc : decode_escape (h1 :: h2 :: e' ++ s) =
                   Some (utf16_units V, (2 + 3 * List.length cs)%nat)).
  { unfold decode_escape.
    change (read_hex2 (h1 :: h2 :: e' ++ s)) with (read_hex2 [h1; h2]). rewrite Hb.
    destruct cs as [|c cs].
    - apply andb_true_iff in Hcheck as [Hsmall Hunits]. rewrite Hsmall.
      unfold octets_eqb in Hunits.
      destruct (list_eq_dec N.eq_dec (utf16_units V) [b]) as [->|]; [|discriminate].
      reflexivity.
    - repeat (apply andb_true_iff in Hcheck as [Hcheck ?]).
      apply negb_true_iff in Hcheck. rewrite Hcheck.
      match goal with H : Nat.eqb _ _ = true |- _ => apply Nat.eqb_eq in H; rewrite H end.
      match goal with H : Nat.leb _ _ = true |- _ => apply Nat.leb_le in H end.
      replace (Nat.ltb 4 (S (List.length (c :: cs)))) with false
        by (symmetry; apply Nat.ltb_ge; lia).
      cbn [Nat.eqb orb List.length]. cbn [skipn].
      change (S (S (List.length cs)) - 1)%nat with (List.length (c :: cs)).
      rewrite (read_continuations_escapes (c :: cs) e' s Hcs) by assumption.
      destruct (utf8_value (b :: c :: cs)) as [V'|]; [|discriminate].
      match goal with H : (V' =? V) = true |- _ => apply N.eqb_eq in H; subst V' end.
      reflexivity. }
  change ((percent :: h1 :: h2 :: e') ++ s) with (percent :: (h1 :: h2 :: e') ++ s).
  cbn [Decode]. rewrite N.eqb_refl.
  change ((h1 :: h2 :: e') ++ s) with (h1 :: h2 :: e' ++ s) at 1.
  rewrite Hesc, <- Hlen, Decode_skip. reflexivity.
Qed.

Lemma well_escaped_decodes (s : jsstring) :
  well_escaped s -> exists r, decodeURIComponent s = Ok r.
Proof.
  unfold decodeURIComponent.
  induction 1 as [|c s Hc _ [r IH]|V e s HV He _ [r IH]].
  - now exists [].
  - rewrite Decode_plain, IH by exact Hc. now eexists.
  - rewrite (Decode_escape V e s HV He), IH. now eexists.
Qed.

(** Replacing [+] by a space keeps escapes well formed. *)
Lemma escapes_no_plus (bs : list N) (e : jsstring) :
  escapes bs e -> map QueryCodecSpec.plus_as_space e = e.
Proof.
  induction 1 as [|b bs h1 h2 s Hb _ IH]; [reflexivity|].
  cbn [map]. rewrite IH. unfold QueryCodecSpec.plus_as_space.
  unfold read_hex2 in Hb.
  destruct (hex_value h1) eqn:H1; [|discriminate].
  destruct (hex_value h2) eqn:H2; [|discriminate].
  assert (Hhex : forall h d, hex_value h = Some d -> (h =? Uri.ch "+") = false).
  { intros h d Hh. apply N.eqb_neq. intros ->. discriminate. }
  now rewrite (Hhex h1 _ H1), (Hhex h2 _ H2).
Qed.

Lemma well_escaped_plus_as_space (s : jsstring) :
  well_escaped s -> well_escaped (map QueryCodecSpec.plus_as_space s).
Proof.
  induction 1 as [|c s Hc _ IH|V e s HV He _ IH].
  - constructor.
  - cbn [map]. apply well_escaped_char; [|exact IH].
    unfold QueryCodecSpec.plus_as_space.
    destruct (c =? Uri.ch "+"); [discriminate|exact Hc].
  - rewrite map_app, (escapes_no_plus _ e He).
    now apply well_escaped_escape with (V := V).
Qed.

(** *** The converse: what decodes is well escaped *)

Lemma hex_value_lt (c d : N) : hex_value c = Some d -> d < 16.
Proof.
  unfold hex_value. intros H.
  repeat match type of H with
    | (if ?b then _ else _) = _ => destruct b eqn:?
    end; try discriminate; injection H as <-;
    repeat match goal with
      | H : (_ && _)%bool = true |- _ => apply andb_true_iff in H as [? ?]
      | H : (_ <=? _) = true |- _ => apply N.leb_le in H
      end; lia.
Qed.

Lemma read_hex2_lt (h1 h2 : jschar) (B : N) : read_hex2 [h1; h2] = Some B -> B < 256.
Proof.
  unfold read_hex2. destruct (hex_value h1) as [a|] eqn:Ha; [|discriminate].
  destruct (hex_value h2) as [b|] eqn:Hb; [|discriminate].
  intros H. assert (HB : B = 16 * a + b) by congruence.
  apply hex_value_lt in Ha. apply hex_value_lt in Hb. lia.
Qed.

Lemma read_continuations_inv (j : nat) (s : jsstring) (octets : list N) :
  read_continuations j s = Some octets ->
  exists e s', s = e ++ s' /\ escapes octets e
               /\ forallb is_continuation octets = true
               /\ List.length octets = j
               /\ Forall (fun b => b < 256) octets.
Proof.
  revert s octets. induction j as [|j IH]; intros s octets Hread.
  - injection Hread as <-. exists [], s. repeat split; constructor.
  - cbn [read_continuations] in Hread.
    destruct s as [|p [|h1 [|h2 s]]]; try discriminate.
    destruct (N.eqb_spec p percent) as [->|]; [|discriminate].
    destruct (read_hex2 [h1; h2]) as [B|] eqn:HB; [|discriminate].
    destruct (is_continuation B) eqn:Hc; [|discriminate].
    destruct (read_continuations j s) as [octets'|] eqn:Hrest; [|discriminate].
    injection Hread as <-.
    destruct (IH s octets' Hrest) as (e & s' & -> & He & Hall & Hlen & Hbytes).
    exists (percent :: h1 :: h2 :: e), s'. repeat split.
    + now constructor.
    + cbn [forallb]. now rewrite Hc, Hall.
    + cbn [List.length]. now rewrite Hlen.
    + constructor; [now apply (read_hex2_lt h1 h2)|exact Hbytes].
Qed.

Lemma leading_ones_high (B : N) : 248 <= B -> B < 256 -> (4 < leading_ones B)%nat.
Proof.
  intros Hlo Hhi. apply Nat.ltb_lt.
  apply (all_from_spec ByteChecks.high_lead_check 8 248); [vm_compute; reflexivity|lia|lia].
Qed.

(** Octets that the decoder accepts are the UTF-8 encoding of the scalar
    value they decode to. *)
Lemma utf8_value_octets (B : N) (octets : list N) (V : N) :
  128 <= B -> B < 256 -> Forall (fun b => b < 256) octets ->
  leading_ones B = S (List.length octets) -> (leading_ones B <= 4)%nat ->
  forallb is_continuation octets = true ->
  utf8_value (B :: octets) = Some V ->
  scalar_value V /\ utf8_octets V = B :: octets.
Proof.
  intros HB1 HB2 Hbytes Hlead Hle Hcont Hval.
  assert (HB3 : B < 248).
  { destruct (N.lt_ge_cases B 248) as [H|H]; [exact H|].
    pose proof (leading_ones_high B H HB2). lia. }
  rewrite lead_class_ok in Hlead by exact HB3.
  unfold ByteChecks.lead_class in Hlead.
  assert (Hrange : forall c, c < 256 -> is_continuation c = true -> 128 <= c < 192).
  { intros c Hc Hcc. rewrite is_continuation_range in Hcc by exact Hc.
    apply andb_true_iff in Hcc as [H1 H2]. apply N.leb_le in H1.
    apply N.ltb_lt in H2. lia. }
  destruct octets as [|c1 [|c2 [|c3 [|c4 octets]]]];
    cbn [List.length] in Hlead;
    repeat match type of Hlead with
      | (if ?a <? ?b then _ else _) = _ => destruct (N.ltb_spec a b)
      end; try discriminate; try lia.
  - inversion Hbytes as [|? ? Hc1 _]; subst. cbn [forallb] in Hcont.
    rewrite andb_true_r in Hcont. apply (Hrange c1 Hc1) in Hcont.
    rewrite utf8_value_2 in Hval. cbv zeta in Hval.
    destruct (N.leb_spec 0x80 (B mod 32 * 64 + c1 mod 64)); [|discriminate].
    injection Hval as <-.
    assert (HV : B mod 32 * 64 + c1 mod 64 < 0x800) by div_lia.
    split.
    + split; [lia|]. unfold is_surrogate. apply range_false. lia.
    + rewrite utf8_octets_arith by lia.
      destruct (N.ltb_spec (B mod 32 * 64 + c1 mod 64) 0x80); [lia|].
      destruct (N.ltb_spec (B mod 32 * 64 + c1 mod 64) 0x800); [|lia].
      f_equal; [div_lia|f_equal; div_lia].
  - inversion Hbytes as [|? ? Hc1 Hb']; subst.
    inversion Hb' as [|? ? Hc2 _]; subst. cbn [forallb] in Hcont.
    rewrite andb_true_r in Hcont. apply andb_true_iff in Hcont as [Hk1 Hk2].
    apply (Hrange c1 Hc1) in Hk1. apply (Hrange c2 Hc2) in Hk2.
    rewrite utf8_value_3 in Hval. cbv zeta in Hval.
    set (V' := B mod 16 * 4096 + (c1 mod 64 * 64 + c2 mod 64)) in *.
    destruct (N.leb_spec 0x800 V'); [|discriminate].
    destruct (is_surrogate V') eqn:Hs; [discriminate|].
    injection Hval as <-.
    assert (HV : V' < 0x10000) by (subst V'; div_lia).
    split; [split; [lia|exact Hs]|].
    rewrite utf8_octets_arith by lia.
    destruct (N.ltb_spec V' 0x80); [lia|].
    destruct (N.ltb_spec V' 0x800); [lia|].
    destruct (N.ltb_spec V' 0x10000); [|lia].
    subst V'. f_equal; [div_lia|f_equal; [div_lia|f_equal; div_lia]].
  - inversion Hbytes as [|? ? Hc1 Hb']; subst.
    inversion Hb' as [|? ? Hc2 Hb'']; subst.
    inversion Hb'' as [|? ? Hc3 _]; subst. cbn [forallb] in Hcont.
    rewrite andb_true_r in Hcont. apply andb_true_iff in Hcont as [Hk1 Hcont].
    apply andb_true_iff in Hcont as [Hk2 Hk3].
    apply (Hrange c1 Hc1) in Hk1. apply (Hrange c2 Hc2) in Hk2.
    apply (Hrange c3 Hc3) in Hk3.
    rewrite utf8_value_4 in Hval. cbv zeta in Hval.
    set (V' := B mod 8 * 262144 + (c1 mod 64 * 4096 + (c2 mod 64 * 64 + c3 mod 64))) in *.
    destruct (N.leb_spec 0x10000 V'); [|discriminate].
    destruct (N.leb_spec V' 0x10FFFF); [|discriminate].
    injection Hval as <-.
    split; [split; [lia|unfold is_surrogate; apply range_false; lia]|].
    rewrite utf8_octets_arith by lia.
    destruct (N.ltb_spec V' 0x80); [lia|].
    destruct (N.ltb_spec V' 0x800); [lia|].
    destruct (N.ltb_spec V' 0x10000); [lia|].
    subst V'. f_equal; [div_lia|f_equal; [div_lia|f_equal; [div_lia|f_equal; div_lia]]].
Qed.

Lemma decode_escape_inv (rest units : jsstring) (used : nat) :
  decode_escape rest = Some (units, used) ->
  exists V e' s', rest = e' ++ s' /\ List.length e' = used
                  /\ scalar_value V /\ escapes (utf8_octets V) (percent :: e').
Proof.
  unfold decode_escape. intros Hesc.
  destruct rest as [|h1 [|h2 rest2]]; try discriminate.
  change (read_hex2 (h1 :: h2 :: rest2)) with (read_hex2 [h1; h2]) in Hesc.
  destruct (read_hex2 [h1; h2]) as [B|] eqn:HB; [|discriminate].
  pose proof (read_hex2_lt h1 h2 B HB) as HB256.
  destruct (N.ltb_spec B 128) as [Hsmall|Hbig].
  - injection Hesc as <- <-. exists B, [h1; h2], rest2.
    split; [reflexivity|]. split; [reflexivity|]. split.
    + split; [lia|]. unfold is_surrogate. apply range_false. lia.
    + rewrite utf8_octets_arith by lia.
      destruct (N.ltb_spec B 0x80); [|lia]. now repeat constructor.
  - destruct (Nat.eqb (leading_ones B) 1 || Nat.ltb 4 (leading_ones B))%bool eqn:Hn;
      [discriminate|].
    apply orb_false_iff in Hn as [Hn1 Hn4].
    apply Nat.eqb_neq in Hn1. apply Nat.ltb_ge in Hn4.
    cbn [skipn] in Hesc.
    destruct (read_continuations (leading_ones B - 1) rest2) as [octets|] eqn:Hread;
      [|discriminate].
    destruct (utf8_value (B :: octets)) as [V|] eqn:HV; [|discriminate].
    injection Hesc as <- <-.
    destruct (read_continuations_inv _ _ _ Hread)
      as (e & s' & -> & He & Hcont & Hlen & Hbytes).
    assert (Hpos : (1 <= leading_ones B)%nat).
    { destruct (N.lt_ge_cases B 248) as [H|H].
      - rewrite lead_class_ok by exact H. unfold ByteChecks.lead_class.
        destruct (N.ltb_spec B 128); [lia|].
        repeat match goal with
          | |- context [if ?a <? ?b then _ else _] => destruct (N.ltb_spec a b)
          end; lia.
      - pose proof (leading_ones_high B H HB256). lia. }
    destruct (utf8_value_octets B octets V Hbig HB256 Hbytes ltac:(lia) Hn4 Hcont HV)
      as [Hscalar Hoctets].
    exists V, (h1 :: h2 :: e), s'.
    split; [reflexivity|]. split.
    + cbn [List.length]. rewrite (escapes_length _ _ He). lia.
    + split; [exact Hscalar|]. rewrite Hoctets. now constructor.
Qed.

(** What [decodeURIComponent] decodes is well escaped. *)
Lemma Decode_well_escaped (n : nat) (s r : jsstring) :
  (List.length s <= n)%nat -> Decode 0 s = Ok r -> well_escaped s.
Proof.
  revert s r. induction n as [|n IH]; intros s r Hn Hdec.
  { destruct s; [constructor|cbn in Hn; lia]. }
  destruct s as [|c rest]; [constructor|].
  cbn [List.length] in Hn. cbn [Decode] in Hdec.
  destruct (N.eqb_spec c percent) as [->|Hc].
  - destruct (decode_escape rest) as [[units used]|] eqn:Hesc; [|discriminate].
    destruct (decode_escape_inv rest units used Hesc)
      as (V & e' & s' & -> & Hlen & HV & He).
    rewrite <- Hlen, Decode_skip in Hdec.
    destruct (Decode 0 s') as [r'|] eqn:Hs'; [|discriminate].
    rewrite length_app in Hn.
    change (percent :: e' ++ s') with ((percent :: e') ++ s').
    apply well_escaped_escape with (V := V); [exact HV|exact He|].
    apply (IH s' r'); [lia|exact Hs'].
  - destruct (Decode 0 rest) as [r'|] eqn:Hrest; [|discriminate].
    apply well_escaped_char; [exact Hc|]. apply (IH rest r'); [lia|exact Hrest].
Qed.

Lemma decodes_iff_well_escaped (s : jsstring) :
  (exists r, decodeURIComponent s = Ok r) <-> well_escaped s.
Proof.
  split; [|apply well_escaped_decodes].
  intros [r Hr]. now apply (Decode_well_escaped (List.length s) s r).
Qed.

Lemma plus_as_space_escape_char (c : jschar) :
  escape_char (QueryCodecSpec.plus_as_space c) -> QueryCodecSpec.plus_as_space c = c.
Proof.
  unfold QueryCodecSpec.plus_as_space.
  destruct (N.eqb_spec c (Uri.ch "+")) as [->|]; [|reflexivity].
  intros [H|[d H]]; discriminate.
Qed.

Lemma map_plus_as_space_escapes (raw e : jsstring) :
  map QueryCodecSpec.plus_as_space raw = e -> Forall escape_char e -> raw = e.
Proof.
  revert e. induction raw as [|c raw IH]; intros e Hmap Hall; [exact Hmap|].
  destruct e as [|x e]; [discriminate|]. cbn [map] in Hmap.
  injection Hmap as Hc Hraw. inversion Hall as [|? ? Hx Hall']; subst.
  rewrite (plus_as_space_escape_char c Hx). f_equal. now apply IH.
Qed.

End DecodeFacts.

(* ===================================================================== *)
(** ** When decoding returns *)
(* ===================================================================== *)

Section DecodingReturns.
Import JS URI Uri Escapes QueryCodecSpec.
Local Open Scope N_scope.

Lemma visits_return (pairs : list (jsstring * option jsstring)) :
  (forall key raw, In (key, Some raw) pairs -> well_escaped raw) ->
  snd (visits pairs) = Ok tt.
Proof.
  induction pairs as [|[key [raw|]] pairs IH]; intros Hwell; [reflexivity| |].
  - cbn [visits decode_value].
    destruct (well_escaped_decodes _ (well_escaped_plus_as_space raw
                (Hwell key raw (or_introl eq_refl)))) as [r Hr].
    unfold decodeURIComponent in Hr. unfold decodeURIComponent. rewrite Hr.
    assert (IH' := IH (fun k v H => Hwell k v (or_intror H))).
    now destruct (visits pairs).
  - cbn [visits decode_value].
    assert (IH' := IH (fun k v H => Hwell k v (or_intror H))).
    now destruct (visits pairs).
Qed.

Lemma escapes_chars (bs : list N) (e : jsstring) :
  escapes bs e -> Forall escape_char e.
Proof.
  induction 1 as [|b bs h1 h2 s Hb _ IH]; [constructor|].
  unfold read_hex2 in Hb.
  destruct (hex_value h1) eqn:H1; [|discriminate].
  destruct (hex_value h2) eqn:H2; [|discriminate].
  constructor; [now left|].
  constructor; [right; eauto|].
  constructor; [right; eauto|exact IH].
Qed.

Lemma well_escaped_before_plus_as_space (raw : jsstring) :
  well_escaped (map plus_as_space raw) -> well_escaped raw.
Proof.
  intros Hwell. remember (map plus_as_space raw) as s eqn:Hs. revert raw Hs.
  induction Hwell as [|c s Hc _ IH|V e s HV He _ IH]; intros raw Hs.
  - symmetry in Hs. apply map_eq_nil in Hs. subst raw. constructor.
  - destruct raw as [|x raw]; [discriminate|]. cbn [map] in Hs.
    injection Hs as Hx Hs. apply well_escaped_char; [|now apply IH].
    intros ->. apply Hc. now rewrite Hx.
  - symmetry in Hs. apply map_eq_app in Hs as (r1 & r2 & -> & H1 & H2).
    rewrite (map_plus_as_space_escapes r1 e H1 (escapes_chars _ _ He)).
    apply well_escaped_escape with (V := V); [exact HV|exact He|].
    now apply IH.
Qed.

Lemma visits_return_inv (pairs : list (jsstring * option jsstring)) :
  snd (visits pairs) = Ok tt ->
  forall key raw, In (key, Some raw) pairs -> well_escaped raw.
Proof.
  induction pairs as [|[k o] pairs IH]; intros Hok key raw Hin; [destruct Hin|].
  cbn [visits] in Hok. destruct (decode_value o) as [d|] eqn:Hd; [|discriminate].
  assert (Hok' : snd (visits pairs) = Ok tt) by now destruct (visits pairs).
  destruct Hin as [Heq|Hin]; [|now apply (IH Hok' key raw)].
  injection Heq as -> ->. cbn [decode_value] in Hd.
  apply well_escaped_before_plus_as_space.
  apply decodes_iff_well_escaped. now exists d.
Qed.

Lemma app_split_at (a b e s : jsstring) (c : jschar) :
  a ++ c :: b = e ++ s ->
  (exists a', a = e ++ a' /\ a' ++ c :: b = s) \/ In c e.
Proof.
  revert a. induction e as [|x e IH]; intros a Heq.
  - left. now exists a.
  - destruct a as [|y a]; cbn [app] in Heq.
    + injection Heq as -> _. right. now left.
    + injection Heq as -> Heq. destruct (IH a Heq) as [(a' & -> & Hs)|Hin].
      * left. now exists a'.
      * right. now right.
Qed.

(** What follows a character that no escape contains is well escaped. *)
Lemma well_escaped_suffix (a b : jsstring) (c : jschar) :
  ~ escape_char c -> well_escaped (a ++ c :: b) -> well_escaped b.
Proof.
  intros Hc Hwell. remember (a ++ c :: b) as s eqn:Hs. revert a Hs.
  induction Hwell as [|x s Hx Hwell IH|V e s HV He Hwell IH]; intros a Hs.
  - now destruct a.
  - destruct a as [|y a]; cbn [app] in Hs.
    + now injection Hs as _ ->.
    + injection Hs as _ Hs. now apply (IH a).
  - destruct (app_split_at a b e s c (eq_sym Hs)) as [(a' & _ & Hs')|Hin].
    + now apply (IH a').
    + exfalso. apply Hc.
      exact (proj1 (Forall_forall _ _) (escapes_chars _ _ He) c Hin).
Qed.

Lemma capture_value_app (e s : jsstring) :
  Forall escape_char e -> capture_value (e ++ s) = e ++ capture_value s.
Proof.
  induction 1 as [|x e Hx _ IH]; [reflexivity|].
  cbn [app capture_value]. rewrite IH.
  replace ((x =? ch "&") || (x =? ch "#"))%bool with false; [reflexivity|].
  symmetry. apply orb_false_iff.
  split; apply N.eqb_neq; intros ->; destruct Hx as [Hx|[d Hx]]; discriminate.
Qed.

Lemma well_escaped_capture (s : jsstring) :
  well_escaped s -> well_escaped (capture_value s).
Proof.
  induction 1 as [|c s Hc _ IH|V e s HV He _ IH].
  - constructor.
  - cbn [capture_value].
    destruct ((c =? ch "&") || (c =? ch "#"))%bool; [constructor|].
    now apply well_escaped_char.
  - rewrite (capture_value_app e s (escapes_chars _ _ He)).
    now apply well_escaped_escape with (V := V).
Qed.

Lemma startsWith_app (s p : jsstring) :
  startsWith s p = true -> s = p ++ skipn (List.length p) s.
Proof.
  revert s. induction p as [|c p IH]; intros s Hs; [reflexivity|].
  destruct s as [|d s]; [discriminate|].
  cbn [startsWith] in Hs. apply andb_true_iff in Hs as [Hd Hs].
  apply N.eqb_eq in Hd. subst d. cbn [app List.length skipn]. now rewrite <- (IH s Hs).
Qed.

(** What the pattern captures in a well-escaped text is well escaped. *)
Lemma exec_key_well_escaped (lit uri captured : jsstring) :
  well_escaped uri -> exec_key lit uri = Some captured -> well_escaped captured.
Proof.
  intros Hwell. revert Hwell.
  assert (Hgen : forall pre, well_escaped (pre ++ uri) ->
                   exec_key lit uri = Some captured -> well_escaped captured);
    [|exact (Hgen [])].
  induction uri as [|c rest IH]; intros pre Hwell Hexec; [discriminate|].
  cbn [exec_key] in Hexec.
  destruct (((c =? ch "?") || (c =? ch "&")) && startsWith rest (lit ++ jsstr "="))%bool
    eqn:Hmatch.
  - injection Hexec as <-. apply well_escaped_capture.
    apply andb_true_iff in Hmatch as [_ Hstart].
    apply startsWith_app in Hstart.
    rewrite length_app in Hstart. cbn [List.length jsstr map list_ascii_of_string] in Hstart.
    rewrite <- app_assoc in Hstart. cbn [app] in Hstart.
    apply (well_escaped_suffix (pre ++ c :: lit) _ (ch "=")).
    + intros [H|[d H]]; discriminate.
    + rewrite <- app_assoc. cbn [app]. unfold ch. now rewrite <- Hstart.
  - apply (IH (pre ++ [c])); [|exact Hexec].
    now rewrite <- app_assoc.
Qed.

Lemma split_without_separator (s : jsstring) (sep : jschar) :
  ~ In sep s -> split s sep = [s].
Proof.
  induction s as [|c s IH]; intros Hsep; [reflexivity|].
  cbn [split]. destruct (N.eqb_spec c sep) as [->|_].
  - exfalso. apply Hsep. now left.
  - rewrite IH; [reflexivity|]. intros Hin. apply Hsep. now right.
Qed.

Lemma cut_at_first_absent (s : jsstring) (c : jschar) :
  ~ In c s -> cut_at_first s c = None.
Proof.
  induction s as [|d s IH]; intros Hc; [reflexivity|].
  cbn [cut_at_first]. destruct (N.eqb_spec d c) as [->|_].
  - exfalso. apply Hc. now left.
  - rewrite IH; [reflexivity|]. intros Hin. apply Hc. now right.
Qed.

End DecodingReturns.

Section DecodingClaims.
Import JS URI Uri Escapes QueryCodecSpec.
Local Open Scope N_scope.

(** C3, as stated, fails: a value with a malformed percent escape makes
    [decodeURIComponent] throw a URIError, which nothing catches. *)
Lemma C3_counterexample :
  parseQueryMap (jsstr "a=%") = Err URIError
  /\ parseQueryString record_visit (jsstr "a=1&b=%E0%A4%A&c=3") [] =
       ([(jsstr "a", jsstr "1")], Err URIError)
  /\ getParameterValue [] (jsstr "a") (Some (jsstr "https://x?a=%zz")) =
       Some (Err URIError)
  /\ ~ (forall q : jsstring, exists m, parseQueryMap q = Ok m).
Proof.
  split; [reflexivity|]. split; [reflexivity|]. split; [reflexivity|].
  intros H. destruct (H (jsstr "a=%")) as [m Hm]. discriminate.
Qed.

(** C3, amended. The decoding operations throw only on a malformed
    percent escape.  [parseQueryString] and [parseQueryMap] return exactly
    when, in every raw value of the query, each [%] starts the escaped UTF-8
    encoding of a Unicode scalar value; [getParameterValue] (for a key
    without pattern operators) returns when this holds of the address
    searched.  A segment without [=] yields an empty value and the empty
    string yields the empty object. *)
Theorem C3_decoding_throws_only_on_malformed_escapes :
  forall q : jsstring,
    ((forall k raw, In (k, Some raw) (raw_pairs q) -> well_escaped raw) <->
       (forall (St : Type) (visit : jsstring -> jsstring -> St -> St) (st : St),
           snd (parseQueryString visit q st) = Ok tt))
    /\ ((forall k raw, In (k, Some raw) (raw_pairs q) -> well_escaped raw) <->
          (exists m, parseQueryMap q = Ok m))
    /\ (forall (href : jsstring) (opt_uri : option jsstring) (key lit : jsstring),
          pattern_literal (escape_key key) = Some lit ->
          well_escaped href ->
          (forall uri, opt_uri = Some uri -> well_escaped uri) ->
          exists r, getParameterValue href key opt_uri = Some (Ok r))
    /\ parseQueryMap [] = Ok Obj.empty
    /\ (forall (c : jschar) (segment : jsstring),
          c <> ch "?" -> ~ In (ch "&") (c :: segment) -> ~ In (ch "=") (c :: segment) ->
          parseQueryString record_visit (c :: segment) [] = ([(c :: segment, [])], Ok tt)).
Proof.
  intros q.
  assert (Hparse : (forall k raw, In (k, Some raw) (raw_pairs q) -> well_escaped raw) ->
             forall (St : Type) (visit : jsstring -> jsstring -> St -> St) (st : St),
               snd (parseQueryString visit q st) = Ok tt).
  { intros Hvalues St visit st. rewrite parseQueryString_decodePairs. cbn [snd].
    now apply visits_return. }
  assert (Hback : snd (decodePairs q) = Ok tt ->
             forall k raw, In (k, Some raw) (raw_pairs q) -> well_escaped raw).
  { intros Hok. now apply visits_return_inv. }
  split.
  { split; [exact Hparse|]. intros Hall. apply Hback.
    specialize (Hall unit (fun _ _ st => st) tt).
    now rewrite parseQueryString_decodePairs in Hall. }
  split.
  { split.
    - intros Hvalues. unfold parseQueryMap.
      specialize (Hparse Hvalues _ (fun key value map => Obj.set map key value) Obj.empty).
      destruct (parseQueryString _ q Obj.empty) as [m r]. cbn [snd] in Hparse.
      subst r. now exists m.
    - intros [m Hm]. apply Hback. unfold parseQueryMap in Hm.
      rewrite parseQueryString_decodePairs in Hm.
      now destruct (snd (decodePairs q)) as [[]|]. }
  split.
  { intros href opt_uri key lit Hlit Hhref Huri.
    unfold getParameterValue. rewrite Hlit.
    set (uri := match opt_uri with
                | Some u => if truthy u then u else href
                | None => href
                end).
    assert (Hwell : well_escaped uri).
    { subst uri. destruct opt_uri as [u|]; [|exact Hhref].
      destruct (truthy u); [now apply Huri|exact Hhref]. }
    destruct (exec_key lit uri) as [captured|] eqn:Hexec; [|now eexists].
    destruct (truthy captured); [|now eexists].
    rewrite urlDecode_decode_value. cbn [decode_value].
    destruct (well_escaped_decodes _
                (well_escaped_plus_as_space _
                   (exec_key_well_escaped lit uri captured Hwell Hexec))) as [r Hr].
    rewrite Hr. now eexists. }
  split; [reflexivity|].
  intros c segment Hq Hamp Heq.
  rewrite parseQueryString_decodePairs, call_all_record.
  unfold decodePairs, raw_pairs, strip_question_mark.
  destruct (N.eqb_spec c (ch "?")) as [->|_]; [contradiction|].
  rewrite (split_without_separator _ _ Hamp). cbn [map].
  unfold raw_pair. rewrite (cut_at_first_absent _ _ Heq). reflexivity.
Qed.

Lemma C3_witness :
  (exists m, parseQueryMap (jsstr "a=%41+b&c") = Ok m)
  /\ (exists r, getParameterValue [] (jsstr "a") (Some (jsstr "x?a=%41")) = Some (Ok r)).
Proof.
  assert (Hescape : forall s, well_escaped s -> well_escaped (jsstr "%41" ++ s)).
  { intros s Hs. apply well_escaped_escape with (V := 65); [|now repeat constructor|exact Hs].
    split; [reflexivity|reflexivity]. }
  assert (Hplain : forall s, ~ In percent s -> well_escaped s).
  { induction s as [|c s IH]; intros Hs; constructor.
    - intros ->. apply Hs. now left.
    - apply IH. intros Hin. apply Hs. now right. }
  destruct (C3_decoding_throws_only_on_malformed_escapes (jsstr "a=%41+b&c"))
    as (_ & Hmap & Hget & _).
  split.
  - apply Hmap. intros k raw [[= <- <-]|[[=]|[]]].
    apply (Hescape (jsstr "+b")). apply Hplain.
    intros [[=]|[[=]|[]]].
  - assert (Huri : well_escaped (jsstr "x?a=%41")).
    { change (jsstr "x?a=%41") with (jsstr "x?a=" ++ (jsstr "%41" ++ [])).
      repeat (apply well_escaped_char; [discriminate|]).
      apply (Hescape []). constructor. }
    apply (Hget [] (Some (jsstr "x?a=%41")) (jsstr "a") (jsstr "a") eq_refl).
    + constructor.
    + now intros uri [= <-].
Defined.

End DecodingClaims.

(* ===================================================================== *)
(** ** Objects built by assignment *)
(* ===================================================================== *)

Section ObjFacts.
Import JS Obj ObjSpec.
Local Open Scope N_scope.

Lemma has_own_In (o : jsobject) (k : jsstring) :
  has_own o k = true <-> In k (keys o).
Proof.
  induction o as [|[k' v'] o IH]; cbn [has_own keys map In fst].
  - split; [discriminate|contradiction].
  - rewrite orb_true_iff, string_eqb_eq. unfold keys in IH. now rewrite IH.
Qed.

Lemma has_own_false (o : jsobject) (k : jsstring) :
  has_own o k = false <-> ~ In k (keys o).
Proof.
  rewrite <- has_own_In. destruct (has_own o k); split; congruence.
Qed.

Lemma keys_overwrite (o : jsobject) (k v : jsstring) :
  keys (overwrite o k v) = keys o.
Proof.
  induction o as [|[k' v'] o IH]; [reflexivity|].
  cbn [overwrite]. destruct (string_eqb k' k); [reflexivity|].
  cbn [keys map fst]. unfold keys in IH. now rewrite IH.
Qed.

Lemma In_keys_insert_index (o : jsobject) (n : N) (k v x : jsstring) :
  In x (keys (insert_index o n k v)) <-> x = k \/ In x (keys o).
Proof.
  induction o as [|[k' v'] o IH]; cbn [insert_index keys map fst In].
  - intuition.
  - destruct (array_index k') as [n'|]; [destruct (n' <=? n)|];
      cbn [keys map fst In]; unfold keys in IH; rewrite ?IH; intuition.
Qed.

Lemma keys_ordered_insert_index (o : jsobject) (n : N) (k v : jsstring) :
  array_index k = Some n -> keys_ordered (keys o) ->
  keys_ordered (keys (insert_index o n k v)).
Proof.
  intros Hk. induction o as [|[k' v'] o IH]; intros Ho.
  - cbn. auto.
  - cbn [keys map fst keys_ordered] in Ho. destruct Ho as [Hall Ho].
    cbn [insert_index]. destruct (array_index k') as [n'|] eqn:Hk'.
    + destruct (N.leb_spec n' n) as [Hle|Hlt].
      * cbn [keys map fst keys_ordered]. split; [|now apply IH].
        apply Forall_forall. intros x Hx.
        apply In_keys_insert_index in Hx as [->|Hx].
        -- unfold index_le. now rewrite Hk', Hk.
        -- exact (proj1 (Forall_forall _ _) Hall x Hx).
      * cbn [keys map fst keys_ordered]. split; [|split; assumption].
        constructor.
        -- unfold index_le. rewrite Hk, Hk'. lia.
        -- apply Forall_forall. intros x Hx.
           pose proof (proj1 (Forall_forall _ _) Hall x Hx) as Hle.
           unfold index_le in *. rewrite Hk. rewrite Hk' in Hle.
           destruct (array_index x); [lia|exact I].
    + cbn [keys map fst keys_ordered]. split; [|split; assumption].
      constructor.
      * unfold index_le. now rewrite Hk, Hk'.
      * apply Forall_forall. intros x Hx.
        pose proof (proj1 (Forall_forall _ _) Hall x Hx) as Hle.
        unfold index_le in *. rewrite Hk. rewrite Hk' in Hle.
        destruct (array_index x); [contradiction|exact I].
Qed.

Lemma NoDup_keys_insert_index (o : jsobject) (n : N) (k v : jsstring) :
  ~ In k (keys o) -> NoDup (keys o) -> NoDup (keys (insert_index o n k v)).
Proof.
  induction o as [|[k' v'] o IH]; intros Hk Ho.
  - cbn. constructor; [intros []|constructor].
  - cbn [keys map fst] in Hk, Ho. inversion Ho as [|? ? Hk' Ho']; subst.
    cbn [insert_index].
    destruct (array_index k') as [n'|]; [destruct (n' <=? n)|];
      cbn [keys map fst]; try (constructor; [exact Hk|exact Ho]).
    constructor.
    + intros Hin. apply In_keys_insert_index in Hin as [->|Hin].
      * apply Hk. now left.
      * now apply Hk'.
    + apply IH; [|exact Ho']. intros Hin. apply Hk. now right.
Qed.

Lemma keys_ordered_snoc (ks : list jsstring) (k : jsstring) :
  array_index k = None -> keys_ordered ks -> keys_ordered (ks ++ [k]).
Proof.
  intros Hk. induction ks as [|x ks IH]; intros Hks.
  - cbn. auto.
  - destruct Hks as [Hall Hks]. cbn [app keys_ordered]. split; [|now apply IH].
    apply Forall_app. split; [exact Hall|].
    constructor; [|constructor].
    unfold index_le. rewrite Hk. now destruct (array_index x).
Qed.

Lemma well_built_empty : well_built Obj.empty.
Proof. repeat split; [constructor|intros []]. Qed.

Lemma well_built_set (o : jsobject) (k v : jsstring) :
  well_built o -> well_built (Obj.set o k v).
Proof.
  intros (Hnd & Hord & Hproto). unfold Obj.set.
  destruct (string_eqb k proto_key) eqn:Hk; [now repeat split|].
  apply string_eqb_neq in Hk.
  destruct (has_own o k) eqn:Hown.
  - unfold well_built. now rewrite keys_overwrite.
  - apply has_own_false in Hown.
    destruct (array_index k) as [n|] eqn:Hidx.
    + repeat split.
      * now apply NoDup_keys_insert_index.
      * now apply keys_ordered_insert_index.
      * intros Hin. apply In_keys_insert_index in Hin as [Heq|Hin]; [|now apply Hproto].
        now apply Hk.
    + unfold well_built, keys. rewrite map_app. cbn [map fst].
      repeat split.
      * apply NoDup_app; [exact Hnd|constructor; [intros []|constructor]|].
        intros x Hx [<-|[]]. now apply Hown.
      * now apply keys_ordered_snoc.
      * intros Hin. apply in_app_or in Hin as [Hin|[Heq|[]]]; [now apply Hproto|].
        now apply Hk.
Qed.

Lemma well_built_assign_all (entries : list (jsstring * jsstring)) (o : jsobject) :
  well_built o -> well_built (assign_all entries o).
Proof.
  revert o. induction entries as [|[k v] entries IH]; intros o Ho; [exact Ho|].
  apply IH. now apply well_built_set.
Qed.

Lemma insert_index_last (o : jsobject) (n : N) (k v : jsstring) :
  Forall (fun x => index_le x k) (keys o) -> array_index k = Some n ->
  insert_index o n k v = o ++ [(k, v)].
Proof.
  intros Hall Hk. induction o as [|[k' v'] o IH]; [reflexivity|].
  cbn [keys map fst] in Hall. inversion Hall as [|? ? Hle Hall']; subst.
  cbn [insert_index app]. unfold index_le in Hle. rewrite Hk in Hle.
  destruct (array_index k') as [n'|]; [|contradiction].
  destruct (N.leb_spec n' n); [|lia]. now rewrite IH.
Qed.

Lemma keys_ordered_before (l1 l2 : list jsstring) (k : jsstring) :
  keys_ordered (l1 ++ k :: l2) -> Forall (fun x => index_le x k) l1.
Proof.
  induction l1 as [|x l1 IH]; intros Hord; [constructor|].
  destruct Hord as [Hall Hord]. constructor; [|now apply IH].
  apply (proj1 (Forall_forall _ _) Hall). apply in_or_app. right. now left.
Qed.

(** Assigning the entries of a well-built object, in their order, to an
    empty object builds the same object. *)
Lemma assign_all_rebuilds (l1 l2 : jsobject) :
  well_built (l1 ++ l2) -> assign_all l2 l1 = l1 ++ l2.
Proof.
  revert l1. induction l2 as [|[k v] l2 IH]; intros l1 Hwb.
  - now rewrite app_nil_r.
  - cbn [assign_all fold_left fst snd].
    assert (Hset : Obj.set l1 k v = l1 ++ [(k, v)]).
    { destruct Hwb as (Hnd & Hord & Hproto). unfold keys in *.
      rewrite map_app in Hnd, Hord, Hproto. cbn [map fst] in Hnd, Hord, Hproto.
      unfold Obj.set.
      replace (string_eqb k proto_key) with false.
      2:{ symmetry. apply string_eqb_neq. intros ->. apply Hproto.
          apply in_or_app. right. now left. }
      replace (has_own l1 k) with false.
      2:{ symmetry. apply has_own_false. intros Hin.
          apply NoDup_remove_2 in Hnd. apply Hnd. apply in_or_app. now left. }
      destruct (array_index k) as [n|] eqn:Hk; [|reflexivity].
      apply insert_index_last; [|exact Hk].
      now apply keys_ordered_before with (l2 := map fst l2). }
    rewrite Hset. change (fold_left _ l2 (l1 ++ [(k, v)])) with (assign_all l2 (l1 ++ [(k, v)])).
    rewrite IH; rewrite <- app_assoc; [reflexivity|exact Hwb].
Qed.

End ObjFacts.

(* ===================================================================== *)
(** ** [encodeURIComponent] and back *)
(* ===================================================================== *)

Section EncodeFacts.
Import JS URI Escapes QueryCodecSpec.
Local Open Scope N_scope.

Lemma utf8_octets_bytes (V : N) :
  V < 0x110000 -> Forall (fun b => b < 256) (utf8_octets V).
Proof.
  intros HV. rewrite utf8_octets_arith by exact HV.
  destruct (N.ltb_spec V 0x80); [repeat constructor; lia|].
  destruct (N.ltb_spec V 0x800); [repeat constructor; div_lia|].
  destruct (N.ltb_spec V 0x10000); repeat constructor; div_lia.
Qed.

Lemma escape_octets_escapes (bs : list N) :
  Forall (fun b => b < 256) bs ->
  escapes bs (escape_octets bs)
  /\ forallb encoded_char (escape_octets bs) = true.
Proof.
  induction 1 as [|b bs Hb _ [IHe IHc]]; [split; [constructor|reflexivity]|].
  pose proof (octet_check_ok b Hb) as Hcheck. unfold octet_check in Hcheck.
  unfold escape_octet in Hcheck. cbn [tl] in Hcheck.
  destruct (read_hex2 _) as [b'|] eqn:Hread; [|discriminate].
  apply andb_true_iff in Hcheck as [Hb' Hchars]. apply N.eqb_eq in Hb'. subst b'.
  cbn [escape_octets flat_map]. split.
  - unfold escape_octet. cbn [app]. now constructor.
  - rewrite forallb_app. fold (escape_octets bs). unfold escape_octet.
    now rewrite Hchars, IHc.
Qed.

Lemma encoded_char_no_plus (e : jsstring) :
  forallb encoded_char e = true -> map plus_as_space e = e.
Proof.
  induction e as [|c e IH]; [reflexivity|].
  cbn [forallb map]. intros H. apply andb_true_iff in H as [Hc He].
  rewrite (IH He). unfold plus_as_space.
  destruct (N.eqb_spec c (Uri.ch "+")) as [->|_]; [discriminate|reflexivity].
Qed.

Lemma unreserved_not_percent (c : jschar) : unreserved c = true -> c <> percent.
Proof. intros H ->. discriminate. Qed.

Lemma utf16_units_pair (hi lo : jschar) :
  is_high_surrogate hi = true -> is_low_surrogate lo = true ->
  scalar_value (pair_value hi lo) /\ utf16_units (pair_value hi lo) = [hi; lo].
Proof.
  unfold is_high_surrogate, is_low_surrogate. intros Hhi Hlo.
  apply andb_true_iff in Hhi as [Hh1 Hh2]. apply andb_true_iff in Hlo as [Hl1 Hl2].
  apply N.leb_le in Hh1, Hh2, Hl1, Hl2.
  assert (HV : 0x10000 <= pair_value hi lo < 0x110000) by (unfold pair_value; lia).
  split.
  - split; [lia|]. unfold is_surrogate. apply andb_false_iff. right.
    apply N.leb_gt. lia.
  - unfold utf16_units. destruct (N.ltb_spec (pair_value hi lo) 0x10000); [lia|].
    rewrite !land_3FF, shiftr_10. unfold pair_value. f_equal; [div_lia|f_equal; div_lia].
Qed.

(** On well-formed UTF-16 [encodeURIComponent] returns, in characters that
    need no further escaping, and [decodeURIComponent] undoes it. *)
Lemma Encode_Decode (n : nat) (v : jsstring) :
  (List.length v <= n)%nat -> well_formed v = true ->
  exists e, Encode v = Ok e
            /\ forallb encoded_char e = true
            /\ Decode 0 e = Ok v.
Proof.
  revert v. induction n as [|n IH]; intros v Hn Hwf.
  { destruct v; [|cbn in Hn; lia]. now exists []. }
  destruct v as [|c rest]; [now exists []|].
  cbn [List.length] in Hn. cbn [well_formed] in Hwf. cbn [Encode].
  destruct (unreserved c) eqn:Hun.
  { assert (Hrest : well_formed rest = true).
    { destruct (is_high_surrogate c) eqn:Hhi.
      - exfalso. clear - Hun Hhi. unfold is_high_surrogate in Hhi.
        apply andb_true_iff in Hhi as [H1 _]. apply N.leb_le in H1.
        unfold unreserved in Hun.
        repeat (apply orb_true_iff in Hun as [Hun|Hun]);
          repeat match goal with
            | H : (_ && _)%bool = true |- _ => apply andb_true_iff in H as [? ?]
            | H : (_ <=? _) = true |- _ => apply N.leb_le in H
            | H : (_ =? _) = true |- _ => apply N.eqb_eq in H
            end; lia.
      - now apply andb_true_iff in Hwf as [_ Hwf]. }
    destruct (IH rest ltac:(lia) Hrest) as (e & He & Hchars & Hdec).
    rewrite He. exists (c :: e). split; [reflexivity|]. split.
    - cbn [forallb]. unfold encoded_char at 1. now rewrite Hun, Hchars.
    - rewrite Decode_plain by now apply unreserved_not_percent. now rewrite Hdec. }
  destruct (is_high_surrogate c) eqn:Hhi.
  - assert (Hlow : is_low_surrogate c = false).
    { unfold is_high_surrogate in Hhi. unfold is_low_surrogate.
      apply andb_true_iff in Hhi as [_ H2]. apply N.leb_le in H2.
      apply andb_false_iff. left. apply N.leb_gt. lia. }
    rewrite Hlow. cbn [negb].
    destruct rest as [|c2 rest2]; [discriminate|].
    apply andb_true_iff in Hwf as [Hlo Hrest]. rewrite Hlo.
    destruct (utf16_units_pair c c2 Hhi Hlo) as [HV Hunits].
    destruct (IH rest2 ltac:(cbn [List.length] in Hn; lia) Hrest) as (e & He & Hchars & Hdec).
    rewrite He.
    destruct (escape_octets_escapes _ (utf8_octets_bytes _ (proj1 HV))) as [Hesc Hec].
    eexists. split; [reflexivity|]. split.
    + now rewrite forallb_app, Hec, Hchars.
    + rewrite (Decode_escape _ _ e HV Hesc), Hdec, Hunits. reflexivity.
  - apply andb_true_iff in Hwf as [Hwf Hrest].
    apply andb_true_iff in Hwf as [Hlow Hsmall].
    apply negb_true_iff in Hlow. rewrite Hlow. cbn [negb].
    apply N.ltb_lt in Hsmall.
    assert (HV : scalar_value c).
    { split; [lia|]. unfold is_surrogate, is_high_surrogate, is_low_surrogate in *.
      apply range_false. apply range_false in Hhi, Hlow. lia. }
    destruct (IH rest ltac:(lia) Hrest) as (e & He & Hchars & Hdec).
    rewrite He.
    destruct (escape_octets_escapes _ (utf8_octets_bytes _ (proj1 HV))) as [Hesc Hec].
    eexists. split; [reflexivity|]. split.
    + now rewrite forallb_app, Hec, Hchars.
    + rewrite (Decode_escape _ _ e HV Hesc), Hdec. unfold utf16_units.
      destruct (N.ltb_spec c 0x10000); [reflexivity|lia].
Qed.

Lemma urlEncode_urlDecode (v : jsstring) :
  well_formed v = true ->
  exists e, Uri.urlEncode_ v = Ok e
            /\ forallb encoded_char e = true
            /\ decode_value (Some e) = Ok v.
Proof.
  intros Hwf.
  destruct (Encode_Decode (List.length v) v (le_n _) Hwf) as (e & He & Hchars & Hdec).
  exists e. split; [exact He|]. split; [exact Hchars|].
  cbn [decode_value]. now rewrite (encoded_char_no_plus e Hchars).
Qed.

End EncodeFacts.

(* ===================================================================== *)
(** ** The round trip through [encodeQueryMap] *)
(* ===================================================================== *)

Section RoundTripFacts.
Import JS URI Obj ObjSpec Uri Escapes QueryCodecSpec RoundTrip.
Local Open Scope N_scope.

Lemma parseQueryMap_decodePairs (q : jsstring) :
  parseQueryMap q =
    match snd (decodePairs q) with
    | Ok _ => Ok (assign_all (fst (decodePairs q)) Obj.empty)
    | Err e => Err e
    end.
Proof.
  unfold parseQueryMap. rewrite parseQueryString_decodePairs. reflexivity.
Qed.

Lemma parseQueryMap_well_built (q : jsstring) (m : jsobject) :
  parseQueryMap q = Ok m -> well_built m.
Proof.
  rewrite parseQueryMap_decodePairs. destruct (snd (decodePairs q)); [|discriminate].
  intros [= <-]. apply well_built_assign_all, well_built_empty.
Qed.

Lemma encode_params_encodes (m : jsobject) :
  encodable m = true ->
  exists params, encode_params m = Ok params /\ Forall2 encodes m params.
Proof.
  induction m as [|[k v] m IH]; intros Hm; [exists []; split; constructor|].
  cbn [encodable forallb fst snd] in Hm.
  apply andb_true_iff in Hm as [Hkv Hm]. apply andb_true_iff in Hkv as [Hk Hv].
  destruct (IH Hm) as (params & Hparams & Hall).
  destruct (urlEncode_urlDecode v Hv) as (e & He & Hchars & Hdec).
  cbn [encode_params]. rewrite He, Hparams.
  eexists. split; [reflexivity|].
  constructor; [|exact Hall]. exists e. cbn [fst snd]. now repeat split.
Qed.

Lemma cut_at_first_app (k e : jsstring) (c : jschar) :
  ~ In c k -> cut_at_first (k ++ c :: e) c = Some (k, e).
Proof.
  induction k as [|d k IH]; intros Hc; cbn [app cut_at_first].
  - now rewrite N.eqb_refl.
  - destruct (N.eqb_spec d c) as [->|_]; [exfalso; apply Hc; now left|].
    rewrite IH; [reflexivity|]. intros Hin. apply Hc. now right.
Qed.

Lemma unreserved_not_In (k : jsstring) (c : jschar) :
  unreserved c = false -> forallb unreserved k = true -> ~ In c k.
Proof.
  intros Hc Hk Hin. rewrite forallb_forall in Hk. specialize (Hk c Hin). congruence.
Qed.

Lemma encodes_raw_pair (kv : jsstring * jsstring) (param : jsstring) :
  encodes kv param ->
  exists e, raw_pair param = (fst kv, Some e) /\ decode_value (Some e) = Ok (snd kv).
Proof.
  intros (e & -> & Hk & _ & Hdec). exists e. split; [|exact Hdec].
  unfold raw_pair. rewrite cut_at_first_app; [reflexivity|].
  now apply unreserved_not_In.
Qed.

Lemma visits_encoded (m : jsobject) (params : list jsstring) :
  Forall2 encodes m params -> visits (map raw_pair params) = (m, Ok tt).
Proof.
  induction 1 as [|[k v] param m params Hkv _ IH]; [reflexivity|].
  destruct (encodes_raw_pair _ _ Hkv) as (e & Hraw & Hdec).
  cbn [map visits]. rewrite Hraw. cbn [fst snd] in *. rewrite Hdec, IH. reflexivity.
Qed.

Lemma encodes_no_ampersand (kv : jsstring * jsstring) (param : jsstring) :
  encodes kv param -> ~ In (ch "&") param.
Proof.
  intros (e & -> & Hk & He & _) Hin.
  apply in_app_or in Hin as [Hin|[Heq|Hin]].
  - now apply (unreserved_not_In (fst kv) (ch "&") eq_refl Hk).
  - discriminate.
  - rewrite forallb_forall in He. specialize (He _ Hin). discriminate.
Qed.

Lemma split_cons_segment (p rest : jsstring) (sep : jschar) :
  ~ In sep p -> split (p ++ sep :: rest) sep = p :: split rest sep.
Proof.
  induction p as [|c p IH]; intros Hp; cbn [app split].
  - now rewrite N.eqb_refl.
  - destruct (N.eqb_spec c sep) as [->|_]; [exfalso; apply Hp; now left|].
    rewrite IH; [reflexivity|]. intros Hin. apply Hp. now right.
Qed.

Lemma split_join (params : list jsstring) (sep : jschar) :
  params <> [] -> Forall (fun p => ~ In sep p) params ->
  split (join params [sep]) sep = params.
Proof.
  induction params as [|p params IH]; intros Hne Hall; [contradiction|].
  inversion Hall as [|? ? Hp Hps]; subst.
  destruct params as [|p' params].
  - cbn [join]. now apply split_without_separator.
  - change (join (p :: p' :: params) [sep]) with (p ++ sep :: join (p' :: params) [sep]).
    rewrite split_cons_segment by exact Hp.
    now rewrite IH.
Qed.

Lemma join_first_char (m : jsobject) (params : list jsstring) :
  Forall2 encodes m params -> params <> [] ->
  exists c rest, join params (jsstr "&") = c :: rest /\ c <> ch "?".
Proof.
  intros Hall Hne. destruct Hall as [|[k v] param m params (e & -> & Hk & _) _];
    [contradiction|].
  cbn [fst] in *.
  assert (Hhead : exists c rest, k ++ ch "=" :: e = c :: rest /\ c <> ch "?").
  { destruct k as [|c k].
    - exists (ch "="), e. split; [reflexivity|discriminate].
    - exists c, (k ++ ch "=" :: e). split; [reflexivity|].
      cbn [forallb] in Hk. apply andb_true_iff in Hk as [Hc _].
      intros ->. discriminate. }
  destruct Hhead as (c & rest & Heq & Hc).
  destruct params as [|p' params]; cbn [join]; rewrite Heq.
  - now exists c, rest.
  - eexists c, _. split; [reflexivity|exact Hc].
Qed.

(** Encoding a well-built, encodable object and decoding the result gives
    the object back. *)
Lemma encode_then_parse (m : jsobject) :
  well_built m -> encodable m = true ->
  exists s, encodeQueryMap m = Ok s /\ parseQueryMap s = Ok m.
Proof.
  intros Hwb Hm.
  destruct (encode_params_encodes m Hm) as (params & Hparams & Hall).
  unfold encodeQueryMap. rewrite Hparams. eexists. split; [reflexivity|].
  destruct params as [|p params].
  - inversion Hall. reflexivity.
  - destruct (join_first_char m (p :: params) Hall ltac:(discriminate))
      as (c & rest & Hjoin & Hc).
    rewrite parseQueryMap_decodePairs. unfold decodePairs, raw_pairs.
    rewrite Hjoin. unfold strip_question_mark.
    destruct (N.eqb_spec c (ch "?")) as [->|_]; [contradiction|].
    rewrite <- Hjoin. change (jsstr "&") with [ch "&"].
    rewrite split_join.
    + rewrite (visits_encoded m _ Hall). cbn [fst snd].
      unfold Obj.empty. now rewrite (assign_all_rebuilds [] m Hwb).
    + discriminate.
    + clear - Hall. induction Hall as [|kv param m' params' Hkv _ IH]; constructor.
      * now apply (encodes_no_ampersand kv).
      * exact IH.
Qed.

End RoundTripFacts.

Section RoundTripClaims.
Import JS URI Obj ObjSpec Uri Escapes QueryCodecSpec RoundTrip.
Local Open Scope N_scope.

Lemma In_keys_set (o : jsobject) (k v x : jsstring) :
  In x (keys (Obj.set o k v)) -> x = k \/ In x (keys o).
Proof.
  unfold Obj.set. destruct (string_eqb k proto_key); [now right|].
  destruct (has_own o k).
  - rewrite keys_overwrite. now right.
  - destruct (array_index k).
    + now intros H%In_keys_insert_index.
    + unfold keys. rewrite map_app. intros H%in_app_or.
      destruct H as [H|[H|[]]]; [now right|now left].
Qed.

Lemma In_keys_assign_all (entries : list (jsstring * jsstring)) (o : jsobject) (x : jsstring) :
  In x (keys (assign_all entries o)) -> In x (keys o) \/ In x (map fst entries).
Proof.
  revert o. induction entries as [|[k v] entries IH]; intros o Hin; [now left|].
  cbn [assign_all fold_left fst snd] in Hin.
  destruct (IH _ Hin) as [H|H].
  - apply In_keys_set in H as [->|H]; [right; now left|now left].
  - right. now right.
Qed.

Lemma In_visits_keys (pairs : list (jsstring * option jsstring)) (x : jsstring) :
  In x (map fst (fst (visits pairs))) -> In x (map fst pairs).
Proof.
  induction pairs as [|[k v] pairs IH]; [intros []|].
  cbn [visits]. destruct (decode_value v); [|intros []].
  destruct (visits pairs) as [seen r]. cbn [fst map In] in *.
  intros [H|H]; [now left|right; now apply IH].
Qed.

Lemma decoded_keys_need_no_encoding (q : jsstring) (m : jsobject) :
  keys_need_no_encoding q = true -> parseQueryMap q = Ok m ->
  forall k, In k (keys m) -> forallb unreserved k = true.
Proof.
  intros Hq Hm k Hk. rewrite parseQueryMap_decodePairs in Hm.
  destruct (snd (decodePairs q)); [|discriminate]. injection Hm as <-.
  apply In_keys_assign_all in Hk as [[]|Hk].
  apply In_visits_keys in Hk. apply in_map_iff in Hk as (p & <- & Hp).
  unfold keys_need_no_encoding in Hq. rewrite forallb_forall in Hq. now apply Hq.
Qed.

(** C5, as stated, fails: the query [a=] followed by an unpaired surrogate
    has a key that needs no encoding and decodes to a map, but
    [encodeURIComponent] throws a URIError on the decoded value. *)
Lemma C5_counterexample :
  let q := jsstr "a=" ++ [0xD800] in
  keys_need_no_encoding q = true
  /\ parseQueryMap q = Ok [(jsstr "a", [0xD800])]
  /\ round_trip q = Err URIError
  /\ round_trip q <> parseQueryMap q.
Proof.
  split; [reflexivity|]. split; [reflexivity|]. split; [reflexivity|discriminate].
Qed.

(** C5, amended. For every query string whose keys contain no character
    that needs percent-encoding and whose decoded values are well-formed
    UTF-16, decoding, encoding and decoding again gives what decoding gives:
    the same object, with the same enumeration order, whatever reserved
    characters the values contain; and the same exception when the query
    cannot be decoded. *)
Theorem C5_round_trip_stabilizes :
  forall q : jsstring,
    keys_need_no_encoding q = true ->
    values_well_formed q = true ->
    round_trip q = parseQueryMap q.
Proof.
  intros q Hkeys Hvalues. unfold round_trip, values_well_formed in *.
  destruct (parseQueryMap q) as [m|e] eqn:Hm; [|reflexivity].
  cbn [bind].
  assert (Hm' : encodable m = true).
  { unfold encodable. apply forallb_forall. intros [k v] Hkv.
    rewrite forallb_forall in Hvalues. specialize (Hvalues _ Hkv).
    cbn [fst snd] in *. rewrite Hvalues, andb_true_r.
    apply (decoded_keys_need_no_encoding q m Hkeys Hm).
    unfold keys. now apply (in_map fst) in Hkv. }
  destruct (encode_then_parse m (parseQueryMap_well_built q m Hm) Hm')
    as (s & Hs & Hback).
  now rewrite Hs.
Qed.

Lemma C5_witness :
  round_trip (jsstr "b=1+2&2=x%26%3D&1=%F0%9F%98%80&b=%C3%A9") =
    Ok [(jsstr "1", [0xD83D; 0xDE00]); (jsstr "2", jsstr "x&="); (jsstr "b", [0xE9])].
Proof.
  rewrite (C5_round_trip_stabilizes (jsstr "b=1+2&2=x%26%3D&1=%F0%9F%98%80&b=%C3%A9")
             eq_refl eq_refl).
  reflexivity.
Defined.

End RoundTripClaims.

(* ===================================================================== *)
(** ** [getParameterValue] against the pairs of the query *)
(* ===================================================================== *)

Section LookupFacts.
Import JS URI Obj ObjSpec Uri QueryCodecSpec LookupSpec.
Local Open Scope N_scope.

Lemma free_of_In (chars : string) (s : jsstring) (c : jschar) :
  free_of chars s = true -> is_one_of chars c = true -> ~ In c s.
Proof.
  intros Hs Hc Hin. unfold free_of in Hs. rewrite forallb_forall in Hs.
  specialize (Hs c Hin). now rewrite Hc in Hs.
Qed.

Lemma free_of_app (chars : string) (a b : jsstring) :
  free_of chars (a ++ b) = free_of chars a && free_of chars b.
Proof. apply forallb_app. Qed.

Lemma exec_key_skip (lit seg s : jsstring) :
  free_of "?&" seg = true -> exec_key lit (seg ++ s) = exec_key lit s.
Proof.
  induction seg as [|c seg IH]; intros Hseg; [reflexivity|].
  cbn [free_of forallb] in Hseg. apply andb_true_iff in Hseg as [Hc Hseg].
  cbn [app exec_key].
  replace ((c =? ch "?") || (c =? ch "&"))%bool with false; [now apply IH|].
  symmetry. apply negb_true_iff in Hc. unfold is_one_of in Hc.
  cbn [jsstr list_ascii_of_string map existsb] in Hc.
  now rewrite orb_false_r in Hc.
Qed.

Lemma startsWith_before (seg rest p : jsstring) (c : jschar) :
  ~ In c p -> startsWith (seg ++ c :: rest) p = startsWith seg p.
Proof.
  revert seg. induction p as [|x p IH]; intros seg Hc; [now destruct seg|].
  destruct seg as [|d seg]; cbn [app startsWith].
  - destruct (N.eqb_spec c x) as [->|_]; [|reflexivity].
    exfalso. apply Hc. now left.
  - rewrite IH; [reflexivity|]. intros Hin. apply Hc. now right.
Qed.

Lemma startsWith_prefix (p s : jsstring) : startsWith (p ++ s) p = true.
Proof.
  induction p as [|c p IH]; [now destruct s|].
  cbn [app startsWith]. now rewrite N.eqb_refl.
Qed.

Lemma cut_at_first_Some (s a b : jsstring) (c : jschar) :
  cut_at_first s c = Some (a, b) -> s = a ++ c :: b.
Proof.
  revert a. induction s as [|d s IH]; intros a Hcut; [discriminate|].
  cbn [cut_at_first] in Hcut. destruct (N.eqb_spec d c) as [->|_].
  - now injection Hcut as <- <-.
  - destruct (cut_at_first s c) as [[a' b']|]; [|discriminate].
    injection Hcut as <- <-. cbn [app]. now rewrite (IH a' eq_refl).
Qed.

Lemma capture_value_whole (raw t : jsstring) :
  free_of "&#" raw = true -> (t = [] \/ exists t', t = ch "&" :: t') ->
  capture_value (raw ++ t) = raw.
Proof.
  intros Hraw Ht. induction raw as [|c raw IH].
  - destruct Ht as [->|[t' ->]]; reflexivity.
  - cbn [free_of forallb] in Hraw. apply andb_true_iff in Hraw as [Hc Hraw].
    cbn [app capture_value].
    replace ((c =? ch "&") || (c =? ch "#"))%bool with false; [now rewrite IH|].
    symmetry. apply negb_true_iff in Hc. unfold is_one_of in Hc.
    cbn [jsstr list_ascii_of_string map existsb] in Hc.
    now rewrite orb_false_r in Hc.
Qed.

(** One segment of the query under the pattern: either the segment is the
    first [lit=...] and its raw value is captured, or the search goes on
    behind it. *)
Lemma exec_key_segment (lit seg t : jsstring) (sep : jschar) :
  free_of "&=#?" lit = true -> free_of "&#?" seg = true ->
  sep = ch "?" \/ sep = ch "&" ->
  t = [] \/ (exists t', t = ch "&" :: t') ->
  exec_key lit (sep :: seg ++ t) =
    match first_value lit [raw_pair seg] with
    | Some raw => Some raw
    | None => exec_key lit t
    end.
Proof.
  intros Hlit Hseg Hsep Ht.
  assert (Hlit_amp : ~ In (ch "&") (lit ++ jsstr "=")).
  { intros Hin. apply in_app_or in Hin as [Hin|[Heq|[]]]; [|discriminate].
    now apply (free_of_In "&=#?" lit (ch "&") Hlit). }
  assert (Hlit_eq : ~ In (ch "=") lit)
    by now apply (free_of_In "&=#?" lit (ch "=") Hlit).
  assert (Hseg1 : free_of "?&" seg = true).
  { unfold free_of in *. rewrite forallb_forall in *. intros c Hc.
    specialize (Hseg c Hc). apply negb_true_iff in Hseg. apply negb_true_iff.
    unfold is_one_of in *. cbn [jsstr list_ascii_of_string map existsb] in *.
    repeat (apply orb_false_iff in Hseg as [? Hseg]).
    now repeat (apply orb_false_iff; split). }
  cbn [exec_key].
  replace ((sep =? ch "?") || (sep =? ch "&"))%bool with true
    by (destruct Hsep as [->| ->]; reflexivity).
  cbn [andb].
  assert (Hstart : startsWith (seg ++ t) (lit ++ jsstr "=") = startsWith seg (lit ++ jsstr "=")).
  { destruct Ht as [->|[t' ->]]; [now rewrite app_nil_r|now apply startsWith_before]. }
  rewrite Hstart. cbn [first_value]. unfold raw_pair.
  destruct (startsWith seg (lit ++ jsstr "=")) eqn:Hs.
  - apply startsWith_app in Hs. rewrite <- app_assoc in Hs.
    cbn [app jsstr map list_ascii_of_string] in Hs.
    set (raw := skipn (List.length (lit ++ [N_of_ascii "="])) seg) in Hs.
    change (N_of_ascii "=") with (ch "=") in Hs.
    rewrite Hs. rewrite (cut_at_first_app lit raw (ch "=") Hlit_eq).
    rewrite string_eqb_refl. f_equal.
    rewrite <- app_assoc. cbn [app].
    replace (List.length lit + 1)%nat with (List.length (lit ++ [ch "="]))
      by (rewrite length_app; reflexivity).
    change (lit ++ ch "=" :: raw ++ t) with (lit ++ [ch "="] ++ raw ++ t).
    rewrite app_assoc, skipn_app, skipn_all, Nat.sub_diag. cbn [app skipn].
    apply capture_value_whole; [|exact Ht].
    rewrite Hs in Hseg. rewrite free_of_app in Hseg.
    apply andb_true_iff in Hseg as [_ Hseg]. cbn [free_of forallb] in Hseg.
    apply andb_true_iff in Hseg as [_ Hseg].
    unfold free_of in *. rewrite forallb_forall in *. intros c Hc.
    specialize (Hseg c Hc). apply negb_true_iff in Hseg. apply negb_true_iff.
    unfold is_one_of in *. cbn [jsstr list_ascii_of_string map existsb] in *.
    repeat (apply orb_false_iff in Hseg as [? Hseg]).
    now repeat (apply orb_false_iff; split).
  - rewrite (exec_key_skip lit seg t Hseg1).
    destruct (cut_at_first seg (ch "=")) as [[k raw]|] eqn:Hcut; [|reflexivity].
    destruct (string_eqb k lit) eqn:Hk; [|reflexivity].
    apply string_eqb_eq in Hk. subst k. apply cut_at_first_Some in Hcut.
    rewrite Hcut in Hs.
    change (lit ++ ch "=" :: raw) with (lit ++ [ch "="] ++ raw) in Hs.
    rewrite app_assoc in Hs. change (jsstr "=") with [ch "="] in Hs.
    now rewrite startsWith_prefix in Hs.
Qed.

Lemma first_value_cons (lit : jsstring) (p : jsstring * option jsstring)
    (pairs : list (jsstring * option jsstring)) :
  first_value lit (p :: pairs) =
    match first_value lit [p] with
    | Some raw => Some raw
    | None => first_value lit pairs
    end.
Proof.
  destruct p as [k [raw|]]; cbn [first_value]; [|reflexivity].
  now destruct (string_eqb k lit).
Qed.

Lemma behind_shape (segments : list jsstring) :
  behind segments = [] \/ exists t', behind segments = ch "&" :: t'.
Proof. destruct segments; [now left|right; now eexists]. Qed.

Lemma exec_key_behind (lit : jsstring) (segments : list jsstring) :
  free_of "&=#?" lit = true ->
  Forall (fun seg => free_of "&#?" seg = true) segments ->
  exec_key lit (behind segments) = first_value lit (map raw_pair segments).
Proof.
  intros Hlit. induction 1 as [|seg segments Hseg _ IH]; [reflexivity|].
  cbn [behind map]. rewrite first_value_cons.
  rewrite (exec_key_segment lit seg (behind segments) (ch "&") Hlit Hseg
             (or_intror eq_refl) (behind_shape segments)).
  now rewrite IH.
Qed.

Lemma split_behind (q : jsstring) :
  match split q (ch "&") with
  | seg :: segments => q = seg ++ behind segments
  | [] => False
  end.
Proof.
  induction q as [|c q IH]; [reflexivity|].
  cbn [split]. destruct (N.eqb_spec c (ch "&")) as [->|_].
  - destruct (split q (ch "&")) as [|seg segments]; [contradiction|].
    cbn [app behind]. now rewrite IH at 1.
  - destruct (split q (ch "&")) as [|seg segments]; [contradiction|].
    cbn [app]. now rewrite IH at 1.
Qed.

Lemma split_segments_free (q : jsstring) :
  free_of "?#" q = true ->
  Forall (fun seg => free_of "&#?" seg = true) (split q (ch "&")).
Proof.
  induction q as [|c q IH]; intros Hq; [repeat constructor|].
  cbn [free_of forallb] in Hq. apply andb_true_iff in Hq as [Hc Hq].
  specialize (IH Hq). cbn [split].
  destruct (N.eqb_spec c (ch "&")) as [->|Hne].
  - constructor; [reflexivity|exact IH].
  - destruct (split q (ch "&")) as [|seg segments] eqn:Hsplit;
      [now apply split_not_nil in Hsplit|].
    inversion IH as [|? ? Hseg Hsegs]; subst. constructor; [|exact Hsegs].
    cbn [free_of forallb]. apply andb_true_iff. split; [|exact Hseg].
    apply negb_true_iff in Hc. apply negb_true_iff.
    unfold is_one_of in *. cbn [jsstr list_ascii_of_string map existsb] in *.
    repeat (apply orb_false_iff in Hc as [? Hc]).
    apply orb_false_iff. split; [now apply N.eqb_neq|].
    now repeat (apply orb_false_iff; split).
Qed.

(** The pattern finds the first pair of the query with this key. *)
Lemma exec_key_query (lit prefix q : jsstring) :
  free_of "&=#?" lit = true -> free_of "?&" prefix = true -> free_of "?#" q = true ->
  exec_key lit (prefix ++ ch "?" :: q) =
    first_value lit (raw_pairs (ch "?" :: q)).
Proof.
  intros Hlit Hprefix Hq. rewrite (exec_key_skip lit prefix _ Hprefix).
  unfold raw_pairs, strip_question_mark. rewrite N.eqb_refl.
  pose proof (split_behind q) as Hsplit.
  pose proof (split_segments_free q Hq) as Hfree.
  destruct (split q (ch "&")) as [|seg segments]; [contradiction|].
  inversion Hfree as [|? ? Hseg Hsegs]; subst.
  cbn [map]. rewrite first_value_cons.
  rewrite (exec_key_segment lit seg (behind segments) (ch "?") Hlit Hseg
             (or_introl eq_refl) (behind_shape segments)).
  now rewrite (exec_key_behind lit segments Hlit Hsegs).
Qed.

End LookupFacts.

Section MapLookupFacts.
Import JS URI Obj ObjSpec Uri QueryCodecSpec LookupSpec.
Local Open Scope N_scope.

Lemma get_overwrite (o : jsobject) (k v x : jsstring) :
  has_own o k = true ->
  Obj.get (overwrite o k v) x = if string_eqb k x then Some v else Obj.get o x.
Proof.
  induction o as [|[k' v'] o IH]; intros Hown; [discriminate|].
  cbn [has_own] in Hown. cbn [overwrite].
  destruct (string_eqb k' k) eqn:Hk'.
  - apply string_eqb_eq in Hk'. subst k'. cbn [Obj.get].
    now destruct (string_eqb k x).
  - cbn [orb] in Hown. cbn [Obj.get]. rewrite (IH Hown).
    destruct (string_eqb k' x) eqn:Hx; [|reflexivity].
    apply string_eqb_eq in Hx. subst k'.
    replace (string_eqb k x) with false; [reflexivity|].
    symmetry. apply string_eqb_neq. apply string_eqb_neq in Hk'. congruence.
Qed.

Lemma get_insert_index (o : jsobject) (n : N) (k v x : jsstring) :
  ~ In k (keys o) ->
  Obj.get (insert_index o n k v) x = if string_eqb k x then Some v else Obj.get o x.
Proof.
  induction o as [|[k' v'] o IH]; intros Hk; [reflexivity|].
  cbn [keys map fst In] in Hk.
  assert (Hne : k' <> k) by (intros ->; apply Hk; now left).
  assert (Hk2 : ~ In k (keys o)) by (intros Hin; apply Hk; now right).
  assert (Hcase : Obj.get ((k', v') :: insert_index o n k v) x =
                    if string_eqb k x then Some v else Obj.get ((k', v') :: o) x).
  { cbn [Obj.get]. rewrite (IH Hk2).
    destruct (string_eqb k' x) eqn:Hx; [|reflexivity].
    apply string_eqb_eq in Hx. subst k'.
    replace (string_eqb k x) with false; [reflexivity|].
    symmetry. apply string_eqb_neq. congruence. }
  cbn [insert_index].
  destruct (array_index k') as [n'|]; [destruct (n' <=? n)|];
    try exact Hcase; reflexivity.
Qed.

Lemma get_snoc (o : jsobject) (k v x : jsstring) :
  ~ In k (keys o) ->
  Obj.get (o ++ [(k, v)]) x = if string_eqb k x then Some v else Obj.get o x.
Proof.
  induction o as [|[k' v'] o IH]; intros Hk; [reflexivity|].
  cbn [keys map fst In] in Hk.
  assert (Hne : k' <> k) by (intros ->; apply Hk; now left).
  assert (Hk2 : ~ In k (keys o)) by (intros Hin; apply Hk; now right).
  cbn [app Obj.get]. rewrite (IH Hk2).
  destruct (string_eqb k' x) eqn:Hx; [|reflexivity].
  apply string_eqb_eq in Hx. subst k'.
  replace (string_eqb k x) with false; [reflexivity|].
  symmetry. apply string_eqb_neq. congruence.
Qed.

Lemma get_set (o : jsobject) (k v x : jsstring) :
  x <> proto_key ->
  Obj.get (Obj.set o k v) x = if string_eqb k x then Some v else Obj.get o x.
Proof.
  intros Hx. unfold Obj.set.
  destruct (string_eqb k proto_key) eqn:Hk.
  - apply string_eqb_eq in Hk. subst k.
    replace (string_eqb proto_key x) with false; [reflexivity|].
    symmetry. apply string_eqb_neq. congruence.
  - destruct (has_own o k) eqn:Hown; [now apply get_overwrite|].
    apply has_own_false in Hown.
    destruct (array_index k); [now apply get_insert_index|now apply get_snoc].
Qed.

Lemma get_assign_all (entries : list (jsstring * jsstring)) (o : jsobject) (x : jsstring) :
  x <> proto_key ->
  Obj.get (assign_all entries o) x =
    match last_value x entries with
    | Some w => Some w
    | None => Obj.get o x
    end.
Proof.
  intros Hx. revert o. induction entries as [|[k v] entries IH]; intros o; [reflexivity|].
  cbn [assign_all fold_left fst snd last_value].
  change (fold_left _ entries (Obj.set o k v)) with (assign_all entries (Obj.set o k v)).
  rewrite IH, (get_set o k v x Hx).
  destruct (last_value x entries); [reflexivity|].
  now destruct (string_eqb k x).
Qed.

Lemma get_set_proto (o : jsobject) (k v : jsstring) :
  Obj.get (Obj.set o k v) proto_key = Obj.get o proto_key.
Proof.
  unfold Obj.set. destruct (string_eqb k proto_key) eqn:Hk; [reflexivity|].
  destruct (has_own o k) eqn:Hown.
  - now rewrite (get_overwrite o k v proto_key Hown), Hk.
  - apply has_own_false in Hown.
    destruct (array_index k);
      [rewrite (get_insert_index o _ k v proto_key Hown)
      |rewrite (get_snoc o k v proto_key Hown)]; now rewrite Hk.
Qed.


Lemma get_assign_all_proto (entries : list (jsstring * jsstring)) (o : jsobject) :
  Obj.get (assign_all entries o) proto_key = Obj.get o proto_key.
Proof.
  revert o. induction entries as [|[k v] entries IH]; intros o; [reflexivity|].
  cbn [assign_all fold_left fst snd].
  change (fold_left _ entries (Obj.set o k v)) with (assign_all entries (Obj.set o k v)).
  now rewrite IH, get_set_proto.
Qed.

Lemma last_value_absent (key : jsstring) (seen : list (jsstring * jsstring)) :
  ~ In key (map fst seen) -> last_value key seen = None.
Proof.
  induction seen as [|[k v] seen IH]; intros Hk; [reflexivity|].
  cbn [map fst In] in Hk. cbn [last_value].
  rewrite IH by (intros Hin; apply Hk; now right).
  replace (string_eqb k key) with false; [reflexivity|].
  symmetry. apply string_eqb_neq. intros ->. apply Hk. now left.
Qed.

Lemma filter_key_nil (key : jsstring) (pairs : list (jsstring * option jsstring)) :
  filter (fun p => string_eqb (fst p) key) pairs = [] -> ~ In key (map fst pairs).
Proof.
  induction pairs as [|[k o] pairs IH]; intros Hf; [intros []|].
  cbn [filter fst] in Hf. destruct (string_eqb k key) eqn:Hk; [discriminate|].
  apply string_eqb_neq in Hk. cbn [map fst In]. intros [H|H]; [contradiction|].
  now apply IH.
Qed.

(** With the key in exactly one pair, first and last coincide. *)
Lemma single_pair_first_last (key : jsstring)
    (pairs : list (jsstring * option jsstring)) (k0 raw : jsstring) :
  snd (visits pairs) = Ok tt ->
  filter (fun p => string_eqb (fst p) key) pairs = [(k0, Some raw)] ->
  first_value key pairs = Some raw
  /\ exists v, decode_value (Some raw) = Ok v
               /\ last_value key (fst (visits pairs)) = Some v.
Proof.
  induction pairs as [|[k o] pairs IH]; intros Hok Hf; [discriminate|].
  cbn [visits] in *. destruct (decode_value o) as [d|] eqn:Hd; [|discriminate].
  pose proof (visits_all pairs) as Hall.
  destruct (visits pairs) as [seen r]. cbn [fst snd] in *.
  cbn [filter fst] in Hf. destruct (string_eqb k key) eqn:Hk.
  - injection Hf as -> -> Hf. apply string_eqb_eq in Hk. subst k0.
    cbn [first_value last_value]. rewrite string_eqb_refl. split; [reflexivity|].
    exists d. split; [exact Hd|].
    destruct (Hall Hok) as [_ Hkeys].
    rewrite last_value_absent; [reflexivity|].
    rewrite Hkeys. now apply filter_key_nil.
  - destruct (IH Hok Hf) as (Hfirst & v & Hv & Hlast).
    split.
    + cbn [first_value]. destruct o; [now rewrite Hk|exact Hfirst].
    + exists v. split; [exact Hv|]. cbn [last_value]. now rewrite Hlast.
Qed.

End MapLookupFacts.

Section LookupClaims.
Import JS URI Obj ObjSpec Uri QueryCodecSpec LookupSpec.
Local Open Scope N_scope.

(** C4, as stated, fails.  A key present with an empty value gives [null]
    where the map holds the empty string; with the key in two pairs the
    lookup gives the first value where the map holds the last; only the
    first [[] and the first []] of a key are escaped; and for the key
    ["__proto__"] the lookup gives the value where the map has no entry of
    its own. *)
Lemma C4_counterexample :
  (getParameterValue [] (jsstr "k") (Some (jsstr "https://x?k=")) = Some (Ok None)
   /\ parseQueryMap (jsstr "k=") = Ok [(jsstr "k", [])]
   /\ ~ (exists got,
            getParameterValue [] (jsstr "k") (Some (jsstr "https://x?k=")) = Some got
            /\ agrees_with_map (jsstr "k") (jsstr "k=") got))
  /\ (getParameterValue [] (jsstr "k") (Some (jsstr "https://x?k=1&k=2")) =
        Some (Ok (Some (jsstr "1")))
      /\ parseQueryMap (jsstr "k=1&k=2") = Ok [(jsstr "k", jsstr "2")])
  /\ (escape_key (jsstr "a[0][1]") = jsstr "a\[0\][1]"
      /\ brackets_escaped (escape_key (jsstr "a[0][1]")) = false)
  /\ (getParameterValue [] proto_key (Some (jsstr "https://x?__proto__=v")) =
        Some (Ok (Some (jsstr "v")))
      /\ parseQueryMap (jsstr "__proto__=v") = Ok Obj.empty
      /\ Obj.get Obj.empty proto_key = None).
Proof.
  split; [|split; [split; reflexivity|split; [split; reflexivity|]]].
  - split; [reflexivity|]. split; [reflexivity|].
    intros (got & Hgot & m & Hm & Hagree).
    injection Hgot as <-. injection Hm as <-. discriminate.
  - split; [reflexivity|]. split; reflexivity.
Qed.

(** C4, amended. Take a key that the pattern matches literally once it is
    escaped and that contains none of [& = # ?], and an address [prefix?q]
    whose prefix has no [?] or [&] and whose query [q] has no [?] or [#].
    [getParameterValue] then looks at the first pair of [q] that has this
    key and an [=]: it returns [null] when there is no such pair or when its
    raw value is empty, and its percent-decoded value otherwise.  The
    decoded map has no entry of its own for the key ["__proto__"], whatever
    [q] holds; for every other key, reading the key in the map gives the
    value of the last pair with this key.  The two agree when the key is not
    ["__proto__"], is in exactly one pair of [q] and that pair has a
    non-empty value: for such a key the lookup returns its decoded value.
    For a key in no pair the lookup returns [null]. *)
Theorem C4_getParameterValue_reads_the_first_pair :
  forall (href key prefix q : jsstring),
    pattern_literal (escape_key key) = Some key ->
    free_of "&=#?" key = true ->
    free_of "?&" prefix = true ->
    free_of "?#" q = true ->
    let uri := prefix ++ ch "?" :: q in
    let query := ch "?" :: q in
    getParameterValue href key (Some uri) =
      Some (value_or_null (first_value key (raw_pairs query)))
    /\ (forall m, parseQueryMap query = Ok m ->
          Obj.get m key =
            if string_eqb key proto_key then None
            else last_value key (fst (decodePairs query)))
    /\ (forall m, parseQueryMap query = Ok m -> key <> proto_key ->
          occurs_once_with_value key (raw_pairs query) = true ->
          getParameterValue href key (Some uri) = Some (Ok (Obj.get m key)))
    /\ (~ In key (map fst (raw_pairs query)) ->
          getParameterValue href key (Some uri) = Some (Ok None)).
Proof.
  intros href key prefix q Hlit Hkey Hprefix Hq uri query.
  assert (Hget : getParameterValue href key (Some uri) =
                   Some (value_or_null (first_value key (raw_pairs query)))).
  { unfold getParameterValue. rewrite Hlit.
    replace (truthy uri) with true by (subst uri; now destruct prefix).
    subst uri query. rewrite (exec_key_query key prefix q Hkey Hprefix Hq).
    unfold value_or_null. destruct (first_value key _) as [raw|]; [|reflexivity].
    destruct (truthy raw); [|reflexivity].
    now rewrite urlDecode_decode_value. }
  assert (Hmap : forall m, parseQueryMap query = Ok m ->
                   Obj.get m key =
                     if string_eqb key proto_key then None
                     else last_value key (fst (decodePairs query))).
  { intros m Hm. rewrite parseQueryMap_decodePairs in Hm.
    destruct (snd (decodePairs query)); [|discriminate]. injection Hm as <-.
    destruct (string_eqb key proto_key) eqn:Hproto.
    - apply string_eqb_eq in Hproto. subst key. now rewrite get_assign_all_proto.
    - apply string_eqb_neq in Hproto. rewrite (get_assign_all _ _ _ Hproto).
      now destruct (last_value key (fst (decodePairs query))). }
  split; [exact Hget|]. split; [exact Hmap|]. split.
  - intros m Hm Hproto Honce. rewrite Hget, (Hmap m Hm).
    replace (string_eqb key proto_key) with false
      by (symmetry; now apply string_eqb_neq).
    unfold occurs_once_with_value in Honce.
    destruct (filter _ (raw_pairs query)) as [|[k0 [raw|]] [|? ?]] eqn:Hf;
      try discriminate.
    assert (Hok : snd (visits (raw_pairs query)) = Ok tt).
    { rewrite parseQueryMap_decodePairs in Hm. unfold decodePairs in Hm.
      now destruct (snd (visits (raw_pairs query))) as [[]|]. }
    destruct (single_pair_first_last key (raw_pairs query) k0 raw Hok Hf)
      as (Hfirst & v & Hv & Hlast).
    unfold decodePairs. rewrite Hfirst, Hlast. unfold value_or_null.
    now rewrite Honce, Hv.
  - intros Habsent. rewrite Hget.
    replace (first_value key (raw_pairs query)) with (@None jsstring); [reflexivity|].
    symmetry. clear - Habsent. induction (raw_pairs query) as [|[k o] pairs IH];
      [reflexivity|].
    cbn [map fst In] in Habsent. cbn [first_value].
    assert (Hk : string_eqb k key = false)
      by (apply string_eqb_neq; intros ->; apply Habsent; now left).
    rewrite Hk. destruct o; apply IH; intros Hin; apply Habsent; now right.
Qed.

Lemma C4_witness :
  getParameterValue [] (jsstr "k") (Some (jsstr "https://x?k=v")) =
    Some (Ok (Some (jsstr "v")))
  /\ getParameterValue [] (jsstr "missing") (Some (jsstr "https://x?k=v")) =
       Some (Ok None)
  /\ getParameterValue [] (jsstr "a[b]") (Some (jsstr "https://x?k=v&a[b]=c%20d")) =
       Some (Ok (Some (jsstr "c d"))).
Proof.
  split; [|split].
  - destruct (C4_getParameterValue_reads_the_first_pair [] (jsstr "k")
                (jsstr "https://x") (jsstr "k=v") eq_refl eq_refl eq_refl eq_refl)
      as (_ & _ & Hagree & _).
    apply (Hagree [(jsstr "k", jsstr "v")]); [reflexivity|discriminate|reflexivity].
  - destruct (C4_getParameterValue_reads_the_first_pair [] (jsstr "missing")
                (jsstr "https://x") (jsstr "k=v") eq_refl eq_refl eq_refl eq_refl)
      as (_ & _ & _ & Habsent).
    apply Habsent. intros [H|[]]. discriminate.
  - destruct (C4_getParameterValue_reads_the_first_pair [] (jsstr "a[b]")
                (jsstr "https://x") (jsstr "k=v&a[b]=c%20d") eq_refl eq_refl eq_refl eq_refl)
      as (Hfirst & _).
    exact Hfirst.
Defined.

End LookupClaims.

(* ===================================================================== *)
(** ** The keys of a parsed query *)
(* ===================================================================== *)

Section KeySetFacts.
Import JS URI Obj ObjSpec Uri Escapes QueryCodecSpec.
Local Open Scope N_scope.

Lemma In_keys_set_iff (o : jsobject) (k v x : jsstring) :
  In x (keys (Obj.set o k v)) <-> In x (keys o) \/ (x = k /\ k <> proto_key).
Proof.
  unfold Obj.set.
  destruct (string_eqb k proto_key) eqn:Hproto.
  - apply string_eqb_eq in Hproto. split; [now left|].
    intros [H|[_ H]]; [exact H|contradiction].
  - apply string_eqb_neq in Hproto.
    destruct (has_own o k) eqn:Hown.
    + rewrite keys_overwrite. apply has_own_In in Hown.
      split; [now left|]. intros [H|[-> _]]; assumption.
    + destruct (array_index k).
      * rewrite In_keys_insert_index. split.
        -- intros [->|H]; [right; now split|now left].
        -- intros [H|[-> _]]; [now right|now left].
      * unfold keys. rewrite map_app, in_app_iff. cbn [map fst In]. split.
        -- intros [H|[<-|[]]]; [now left|right; now split].
        -- intros [H|[-> _]]; [now left|right; now left].
Qed.

Lemma In_keys_assign_all_iff (entries : list (jsstring * jsstring)) (o : jsobject)
    (x : jsstring) :
  In x (keys (assign_all entries o)) <->
    In x (keys o) \/ (In x (map fst entries) /\ x <> proto_key).
Proof.
  revert o. induction entries as [|[k v] entries IH]; intros o.
  - cbn. tauto.
  - change (assign_all ((k, v) :: entries) o) with (assign_all entries (Obj.set o k v)).
    rewrite IH, In_keys_set_iff. cbn [map fst In].
    split.
    + intros [[H|[-> H]]|[H1 H2]]; [now left|right; split; [now left|exact H]|].
      right; split; [now right|exact H2].
    + intros [H|[[<-|H1] H2]]; [left; now left|left; right; now split|right; now split].
Qed.

Lemma parseQueryMap_keys (q : jsstring) (m : jsobject) (x : jsstring) :
  parseQueryMap q = Ok m ->
  (In x (keys m) <-> In x (map fst (raw_pairs q)) /\ x <> proto_key).
Proof.
  rewrite parseQueryMap_decodePairs.
  destruct (snd (decodePairs q)) as [[]|e] eqn:Hr; [|discriminate].
  intros [= <-]. rewrite In_keys_assign_all_iff.
  destruct (visits_all (raw_pairs q) Hr) as [_ Hkeys].
  unfold decodePairs. rewrite Hkeys. cbn. tauto.
Qed.

Lemma inherited_In (k : jsstring) (l : list jsstring) :
  existsb (string_eqb k) l = true <-> In k l.
Proof.
  rewrite existsb_exists. split.
  - intros (y & Hy & Heq). apply string_eqb_eq in Heq. now subst.
  - intros H. exists k. split; [exact H|apply string_eqb_refl].
Qed.

End KeySetFacts.

Section KeySetProperties.
Import JS URI Obj ObjSpec Uri Escapes QueryCodecSpec.
Local Open Scope N_scope.

(** X1.  The map that [parseQueryMap] returns has one property per distinct
    key of the query, except that a pair named [__proto__] leaves no
    property; [for (key in map)] visits array-index keys first, in
    increasing order. *)
Theorem parseQueryMap_keeps_each_key_once :
  forall (q : jsstring) (m : jsobject),
    parseQueryMap q = Ok m ->
    NoDup (keys m)
    /\ keys_ordered (keys m)
    /\ (forall k, In k (keys m) <-> In k (map fst (raw_pairs q)) /\ k <> proto_key).
Proof.
  intros q m Hm.
  destruct (parseQueryMap_well_built q m Hm) as (Hnodup & Hord & _).
  split; [exact Hnodup|split; [exact Hord|]].
  intros k. now apply parseQueryMap_keys.
Qed.

Lemma parseQueryMap_keeps_each_key_once_witness :
  let m := [(jsstr "1", jsstr "y"); (jsstr "2", jsstr "x"); (jsstr "b", jsstr "3")] in
  NoDup (keys m)
  /\ keys_ordered (keys m)
  /\ (forall k, In k (keys m) <->
                In k (map fst (raw_pairs (jsstr "b=1&2=x&__proto__=z&1=y&b=3")))
                /\ k <> proto_key).
Proof.
  exact (parseQueryMap_keeps_each_key_once (jsstr "b=1&2=x&__proto__=z&1=y&b=3")
           [(jsstr "1", jsstr "y"); (jsstr "2", jsstr "x"); (jsstr "b", jsstr "3")]
           eq_refl).
Defined.

(** X2.  [hasParameter] answers [true] exactly for the keys of the query's
    pairs, with or without a value, and for the names that every object
    inherits from [Object.prototype]; an absent or empty argument stands for
    [location.search]. *)
Theorem hasParameter_key_occurs_or_is_inherited :
  forall (location_search key : jsstring) (opt_queryString : option jsstring),
    let q := match opt_queryString with
             | Some q => if truthy q then q else location_search
             | None => location_search
             end in
    (forall k raw, In (k, Some raw) (raw_pairs q) -> well_escaped raw) ->
    exists b, hasParameter location_search key opt_queryString = Ok b
              /\ (b = true <->
                    In key (map fst (raw_pairs q)) \/ In key object_prototype_keys).
Proof.
  intros loc key opt q Hesc.
  unfold hasParameter, getParameters. fold q.
  assert (Hr : snd (decodePairs q) = Ok tt) by (apply visits_return; exact Hesc).
  destruct (parseQueryMap q) as [m|e] eqn:Hm.
  2:{ rewrite parseQueryMap_decodePairs, Hr in Hm. discriminate. }
  exists (has_property m key). split; [reflexivity|].
  unfold has_property. rewrite orb_true_iff, has_own_In, inherited_In.
  rewrite (parseQueryMap_keys q m key Hm).
  split.
  - intros [[H _]|H]; [now left|now right].
  - intros [H|H]; [|now right].
    destruct (list_eq_dec N.eq_dec key proto_key) as [->|Hne].
    + right. cbn. tauto.
    + left. now split.
Qed.

Lemma hasParameter_key_occurs_or_is_inherited_witness :
  exists b, hasParameter (jsstr "?a=1&b") (jsstr "b") None = Ok b
            /\ (b = true <->
                  In (jsstr "b") (map fst (raw_pairs (jsstr "?a=1&b")))
                  \/ In (jsstr "b") object_prototype_keys).
Proof.
  apply (hasParameter_key_occurs_or_is_inherited (jsstr "?a=1&b") (jsstr "b") None).
  intros k raw H. vm_compute in H.
  destruct H as [H|[H|[]]]; [|discriminate].
  injection H as _ <-. apply well_escaped_char; [discriminate|constructor].
Defined.

End KeySetProperties.

Section LookupAgreement.
Import JS URI Obj ObjSpec Uri Escapes QueryCodecSpec LookupSpec.
Local Open Scope N_scope.

Lemma first_value_In (key raw : jsstring) (pairs : list (jsstring * option jsstring)) :
  first_value key pairs = Some raw -> In key (map fst pairs).
Proof.
  induction pairs as [|[k [r|]] pairs IH]; [discriminate| |]; cbn [first_value map fst In].
  - destruct (string_eqb k key) eqn:Hk; [|now right; apply IH].
    apply string_eqb_eq in Hk. now left.
  - intros H. right. now apply IH.
Qed.

(** X3.  The two lookups agree in one direction on a query string [?q].
    Take a key that the pattern of [getParameterValue] matches literally
    once it is escaped and that contains none of [& = # ?], and a [q] that
    contains no [?] and no [#] and in whose values every [%] starts the
    escaped UTF-8 encoding of a scalar value (so that every value can be
    decoded).  When [getParameterValue] returns a string for the key in
    [?q], [hasParameter] returns [true] for the key in [?q]. *)
Theorem found_value_implies_hasParameter :
  forall (href location_search key q value : jsstring),
    pattern_literal (escape_key key) = Some key ->
    free_of "&=#?" key = true -> free_of "?#" q = true ->
    (forall k raw, In (k, Some raw) (raw_pairs (ch "?" :: q)) -> well_escaped raw) ->
    getParameterValue href key (Some (ch "?" :: q)) = Some (Ok (Some value)) ->
    hasParameter location_search key (Some (ch "?" :: q)) = Ok true.
Proof.
  intros href loc key q value Hlit Hkey Hq Hesc Hget.
  assert (Hin : In key (map fst (raw_pairs (ch "?" :: q)))).
  { unfold getParameterValue in Hget. rewrite Hlit in Hget. cbn [truthy] in Hget.
    pose proof (exec_key_query key [] q Hkey eq_refl Hq) as Hexec.
    cbn [app] in Hexec. rewrite Hexec in Hget.
    destruct (first_value key (raw_pairs (ch "?" :: q))) as [raw|] eqn:Hfirst;
      [|discriminate].
    now apply (first_value_In key raw). }
  unfold hasParameter, getParameters. cbn [truthy].
  assert (Hr : snd (decodePairs (ch "?" :: q)) = Ok tt) by (apply visits_return; exact Hesc).
  destruct (parseQueryMap (ch "?" :: q)) as [m|e] eqn:Hm.
  2:{ rewrite parseQueryMap_decodePairs, Hr in Hm. discriminate. }
  f_equal. unfold has_property. apply orb_true_iff.
  destruct (list_eq_dec N.eq_dec key proto_key) as [->|Hne].
  - right. reflexivity.
  - left. apply has_own_In. apply (parseQueryMap_keys _ m key Hm). now split.
Qed.

Lemma found_value_implies_hasParameter_witness :
  hasParameter [] (jsstr "b") (Some (jsstr "?a=1&b=x+y")) = Ok true.
Proof.
  apply (found_value_implies_hasParameter [] [] (jsstr "b") (jsstr "a=1&b=x+y")
           (jsstr "x y")); try reflexivity.
  intros k raw H. vm_compute in H.
  destruct H as [H|[H|[]]]; injection H as _ <-;
    repeat (apply well_escaped_char; [discriminate|]); constructor.
Defined.

End LookupAgreement.

(* ===================================================================== *)
(** ** Encoding and decoding values *)
(* ===================================================================== *)

Section WellFormedFacts.
Import JS URI Obj ObjSpec Uri Escapes QueryCodecSpec RoundTrip LookupSpec.
Local Open Scope N_scope.

Ltac bool_to_prop :=
  repeat match goal with
    | H : (_ && _)%bool = true |- _ => apply andb_true_iff in H as [? ?]
    | H : (_ <=? _) = true |- _ => apply N.leb_le in H
    | H : (_ <? _) = true |- _ => apply N.ltb_lt in H
    | H : (_ =? _) = true |- _ => apply N.eqb_eq in H
    end.


Lemma ascii_no_surrogate (c : jschar) :
  c < 128 -> is_high_surrogate c = false /\ is_low_surrogate c = false.
Proof.
  intros Hc. unfold is_high_surrogate, is_low_surrogate.
  split; apply range_false; lia.
Qed.

Lemma well_formed_ascii (c : jschar) (s : jsstring) :
  c < 128 -> well_formed (c :: s) = well_formed s.
Proof.
  intros Hc. destruct (ascii_no_surrogate c Hc) as [Hhi Hlo].
  cbn [well_formed]. rewrite Hhi, Hlo.
  destruct (N.ltb_spec c 0x10000); [reflexivity|lia].
Qed.






(** Cutting well-formed UTF-16 at an ASCII character leaves two well-formed
    halves. *)
Lemma well_formed_cut (n : nat) (a b : jsstring) (c : jschar) :
  (List.length a <= n)%nat -> c < 128 ->
  well_formed (a ++ c :: b) = true -> well_formed a = true /\ well_formed b = true.
Proof.
  intros Hn Hc. revert a Hn. induction n as [|n IH]; intros a Hn Hwf.
  { destruct a; [|cbn in Hn; lia]. cbn [app] in Hwf.
    rewrite well_formed_ascii in Hwf by exact Hc. now split. }
  destruct a as [|x a'].
  { cbn [app] in Hwf. rewrite well_formed_ascii in Hwf by exact Hc. now split. }
  cbn [List.length] in Hn. cbn [app well_formed] in Hwf |- *.
  destruct (is_high_surrogate x) eqn:Hhi.
  - destruct a' as [|c2 a''].
    + cbn [app] in Hwf. apply andb_true_iff in Hwf as [Hlo _].
      destruct (ascii_no_surrogate c Hc) as [_ Hno]. congruence.
    + cbn [app] in Hwf. apply andb_true_iff in Hwf as [Hlo Hwf].
      rewrite Hlo. cbn [andb].
      apply (IH a''); [cbn [List.length] in Hn; lia|exact Hwf].
  - apply andb_true_iff in Hwf as [Hx Hwf]. rewrite Hx. cbn [andb].
    apply (IH a'); [lia|exact Hwf].
Qed.

Lemma well_formed_behind (segments : list jsstring) (seg : jsstring) :
  well_formed (seg ++ behind segments) = true ->
  Forall (fun s => well_formed s = true) (seg :: segments).
Proof.
  revert seg. induction segments as [|s1 segments IH]; intros seg Hwf.
  - cbn [behind] in Hwf. rewrite app_nil_r in Hwf. now constructor.
  - cbn [behind] in Hwf.
    destruct (well_formed_cut _ seg (s1 ++ behind segments) (ch "&") (le_n _)
                ltac:(vm_compute; reflexivity) Hwf) as [Hseg Hrest].
    constructor; [exact Hseg|now apply IH].
Qed.

Lemma split_well_formed (q : jsstring) :
  well_formed q = true ->
  Forall (fun s => well_formed s = true) (split q (ch "&")).
Proof.
  intros Hwf. pose proof (split_behind q) as Hsplit.
  destruct (split q (ch "&")) as [|seg segments]; [contradiction|].
  apply well_formed_behind. now rewrite <- Hsplit.
Qed.

Lemma raw_pairs_well_formed (q k raw : jsstring) :
  well_formed q = true -> In (k, Some raw) (raw_pairs q) -> well_formed raw = true.
Proof.
  intros Hwf Hin. unfold raw_pairs in Hin.
  destruct q as [|c q']; [contradiction|].
  assert (Hstrip : well_formed (strip_question_mark (c :: q')) = true).
  { unfold strip_question_mark. destruct (N.eqb_spec c (ch "?")) as [->|_]; [|exact Hwf].
    rewrite well_formed_ascii in Hwf; [exact Hwf|vm_compute; reflexivity]. }
  apply split_well_formed in Hstrip.
  apply in_map_iff in Hin as (seg & Hpair & Hseg).
  rewrite Forall_forall in Hstrip. specialize (Hstrip seg Hseg).
  unfold raw_pair in Hpair.
  destruct (cut_at_first seg (ch "=")) as [[key value]|] eqn:Hcut; [|discriminate].
  injection Hpair as _ <-.
  apply cut_at_first_Some in Hcut. subst seg.
  apply (well_formed_cut _ key value (ch "=") (le_n _)); [vm_compute; reflexivity|exact Hstrip].
Qed.

Lemma escape_char_ascii (c : jschar) : escape_char c -> c < 128.
Proof.
  intros [->|[d Hd]]; [vm_compute; reflexivity|].
  unfold hex_value in Hd.
  destruct ((48 <=? c) && (c <=? 57))%bool eqn:H1; [bool_to_prop; lia|].
  destruct ((65 <=? c) && (c <=? 70))%bool eqn:H2; [bool_to_prop; lia|].
  destruct ((97 <=? c) && (c <=? 102))%bool eqn:H3; [bool_to_prop; lia|discriminate].
Qed.

Lemma well_formed_ascii_app (e s : jsstring) :
  Forall (fun c => c < 128) e -> well_formed (e ++ s) = well_formed s.
Proof.
  induction 1 as [|c e Hc _ IH]; [reflexivity|].
  cbn [app]. now rewrite well_formed_ascii.
Qed.

Lemma well_formed_units (V : N) (r : jsstring) :
  scalar_value V -> well_formed r = true -> well_formed (utf16_units V ++ r) = true.
Proof.
  intros [Hmax Hsur] Hr. unfold utf16_units.
  unfold is_surrogate in Hsur. apply range_false in Hsur.
  destruct (N.ltb_spec V 0x10000) as [Hsmall|Hbig].
  - cbn [app well_formed].
    replace (is_high_surrogate V) with false
      by (symmetry; apply range_false; lia).
    replace (is_low_surrogate V) with false
      by (symmetry; apply range_false; lia).
    apply N.ltb_lt in Hsmall. now rewrite Hsmall, Hr.
  - cbn [app well_formed]. rewrite !land_3FF, shiftr_10.
    assert (H1 : ((V - 65536) / 1024) mod 1024 < 1024) by (apply N.mod_lt; lia).
    assert (H2 : (V - 65536) mod 1024 < 1024) by (apply N.mod_lt; lia).
    set (a := ((V - 65536) / 1024) mod 1024) in *.
    set (b := (V - 65536) mod 1024) in *. clearbody a b.
    replace (is_high_surrogate (a + 55296)) with true.
    2:{ symmetry. unfold is_high_surrogate. apply andb_true_iff.
        split; apply N.leb_le; lia. }
    replace (is_low_surrogate (b + 56320)) with true.
    2:{ symmetry. unfold is_low_surrogate. apply andb_true_iff.
        split; apply N.leb_le; lia. }
    exact Hr.
Qed.

Lemma utf8_octets_not_nil (V : N) : utf8_octets V <> [].
Proof. unfold utf8_octets. break_branches; discriminate. Qed.

Lemma Decode_well_formed (n : nat) (s r : jsstring) :
  (List.length s <= n)%nat -> well_formed s = true -> Decode 0 s = Ok r ->
  well_formed r = true.
Proof.
  revert s r. induction n as [|n IH]; intros s r Hn Hwf Hdec.
  { destruct s; [|cbn in Hn; lia]. now injection Hdec as <-. }
  pose proof (Decode_well_escaped _ s r (le_n _) Hdec) as Hesc.
  inversion Hesc as [Hs|c s' Hc Hs' Hs|V e s' HV He Hs' Hs]; subst.
  - now injection Hdec as <-.
  - cbn [List.length] in Hn. cbn [well_formed] in Hwf.
    rewrite Decode_plain in Hdec by exact Hc.
    destruct (is_high_surrogate c) eqn:Hhi.
    + destruct s' as [|c2 s'']; [discriminate|].
      apply andb_true_iff in Hwf as [Hlo Hwf].
      assert (Hc2 : c2 <> percent).
      { intros ->. vm_compute in Hlo. discriminate. }
      rewrite Decode_plain in Hdec by exact Hc2.
      destruct (Decode 0 s'') as [r''|] eqn:Hd; [|discriminate].
      injection Hdec as <-. cbn [well_formed]. rewrite Hhi, Hlo. cbn [andb].
      apply (IH s'' r''); [cbn [List.length] in Hn; lia|exact Hwf|exact Hd].
    + apply andb_true_iff in Hwf as [Hx Hwf].
      destruct (Decode 0 s') as [r'|] eqn:Hd; [|discriminate].
      injection Hdec as <-. cbn [well_formed]. rewrite Hhi, Hx. cbn [andb].
      apply (IH s' r'); [lia|exact Hwf|exact Hd].
  - rewrite (Decode_escape V e s' HV He) in Hdec.
    destruct (Decode 0 s') as [r'|] eqn:Hd; [|discriminate].
    injection Hdec as <-.
    assert (Hascii : Forall (fun c => c < 128) e).
    { eapply Forall_impl; [|exact (escapes_chars _ _ He)].
      intros c. apply escape_char_ascii. }
    rewrite well_formed_ascii_app in Hwf by exact Hascii.
    apply well_formed_units; [exact HV|].
    apply (IH s' r'); [|exact Hwf|exact Hd].
    rewrite length_app in Hn. pose proof (escapes_length _ _ He) as Hlen.
    pose proof (utf8_octets_not_nil V).
    destruct (utf8_octets V); [contradiction|]. cbn [List.length] in Hlen. lia.
Qed.

Lemma decode_value_well_formed (raw v : jsstring) :
  well_formed raw = true -> decode_value (Some raw) = Ok v -> well_formed v = true.
Proof.
  intros Hwf Hdec. unfold decode_value, decodeURIComponent in Hdec.
  apply (Decode_well_formed _ _ v (le_n _)) in Hdec; [exact Hdec|].
  clear Hdec. revert Hwf.
  assert (Hgen : forall n s, (List.length s <= n)%nat -> well_formed s = true ->
                 well_formed (map plus_as_space s) = true).
  { induction n as [|n IH]; intros s Hn Hs.
    { destruct s; [reflexivity|cbn in Hn; lia]. }
    destruct s as [|c s']; [reflexivity|].
    cbn [List.length] in Hn. cbn [map]. unfold plus_as_space at 1.
    destruct (N.eqb_spec c (ch "+")) as [->|Hne].
    - rewrite well_formed_ascii in Hs |- * by (vm_compute; reflexivity).
      apply IH; [lia|exact Hs].
    - cbn [well_formed] in Hs |- *.
      destruct (is_high_surrogate c) eqn:Hhi.
      + destruct s' as [|c2 s'']; [discriminate|].
        apply andb_true_iff in Hs as [Hlo Hs]. cbn [map].
        unfold plus_as_space at 1.
        destruct (N.eqb_spec c2 (ch "+")) as [->|_]; [vm_compute in Hlo; discriminate|].
        rewrite Hlo. cbn [andb]. apply IH; [cbn [List.length] in Hn; lia|exact Hs].
      + apply andb_true_iff in Hs as [Hx Hs]. rewrite Hx. cbn [andb].
        apply IH; [lia|exact Hs]. }
  intros Hwf. now apply (Hgen _ raw (le_n _)).
Qed.

Lemma In_visits (pairs : list (jsstring * option jsstring)) (k v : jsstring) :
  In (k, v) (fst (visits pairs)) ->
  exists value, In (k, value) pairs /\ decode_value value = Ok v.
Proof.
  induction pairs as [|[k0 value] pairs IH]; [intros []|].
  cbn [visits]. destruct (decode_value value) as [decoded|] eqn:Hdec; [|intros []].
  destruct (visits pairs) as [seen r]. cbn [fst In] in *.
  intros [[= <- <-]|Hin].
  - exists value. split; [now left|exact Hdec].
  - destruct (IH Hin) as (value' & Hin' & Hdec'). exists value'. split; [now right|exact Hdec'].
Qed.

Lemma In_overwrite (o : jsobject) (k v : jsstring) (kv : jsstring * jsstring) :
  In kv (overwrite o k v) -> In kv o \/ kv = (k, v).
Proof.
  induction o as [|[k' v'] o IH]; [intros []|].
  cbn [overwrite]. destruct (string_eqb k' k) eqn:Hk.
  - apply string_eqb_eq in Hk. subst k'. intros [<-|H]; [now right|left; now right].
  - intros [<-|H]; [left; now left|]. destruct (IH H); [left; now right|now right].
Qed.

Lemma In_insert_index (o : jsobject) (n : N) (k v : jsstring) (kv : jsstring * jsstring) :
  In kv (insert_index o n k v) -> In kv o \/ kv = (k, v).
Proof.
  induction o as [|[k' v'] o IH]; cbn [insert_index].
  - intros [<-|[]]. now right.
  - destruct (array_index k') as [n'|].
    + destruct (n' <=? n).
      * intros [<-|H]; [left; now left|]. destruct (IH H); [left; now right|now right].
      * intros [<-|H]; [now right|now left].
    + intros [<-|H]; [now right|now left].
Qed.

Lemma In_set (o : jsobject) (k v : jsstring) (kv : jsstring * jsstring) :
  In kv (Obj.set o k v) -> In kv o \/ kv = (k, v).
Proof.
  unfold Obj.set. destruct (string_eqb k proto_key); [now left|].
  destruct (has_own o k); [apply In_overwrite|].
  destruct (array_index k); [apply In_insert_index|].
  rewrite in_app_iff. cbn [In]. intros [H|[<-|[]]]; [now left|now right].
Qed.

Lemma In_assign_all (entries : list (jsstring * jsstring)) (o : jsobject)
    (kv : jsstring * jsstring) :
  In kv (assign_all entries o) -> In kv o \/ In kv entries.
Proof.
  revert o. induction entries as [|[k v] entries IH]; intros o; [now left|].
  change (assign_all ((k, v) :: entries) o) with (assign_all entries (Obj.set o k v)).
  intros H. destruct (IH _ H) as [H'|H']; [|right; now right].
  destruct (In_set _ _ _ _ H') as [H''| ->]; [now left|right; now left].
Qed.

Lemma parsed_values_well_formed (q : jsstring) (m : jsobject) :
  well_formed q = true -> parseQueryMap q = Ok m ->
  forallb (fun kv => well_formed (snd kv)) m = true.
Proof.
  intros Hwf Hm. rewrite parseQueryMap_decodePairs in Hm.
  destruct (snd (decodePairs q)); [|discriminate]. injection Hm as <-.
  apply forallb_forall. intros [k v] Hin. cbn [snd].
  destruct (In_assign_all _ _ _ Hin) as [[]|Hin'].
  destruct (In_visits _ _ _ Hin') as ([raw|] & Hpair & Hdec).
  - apply (decode_value_well_formed raw v); [|exact Hdec].
    now apply (raw_pairs_well_formed q k raw).
  - cbn in Hdec. now injection Hdec as <-.
Qed.

Lemma Decode_without_percent (s : jsstring) : ~ In percent s -> Decode 0 s = Ok s.
Proof.
  induction s as [|c s IH]; [reflexivity|]. intros Hno.
  rewrite Decode_plain by (intros ->; apply Hno; now left).
  rewrite IH; [reflexivity|]. intros H. apply Hno. now right.
Qed.

End WellFormedFacts.

Section CodecFacts.
Import JS URI Obj ObjSpec Uri Escapes QueryCodecSpec RoundTrip LookupSpec.
Local Open Scope N_scope.

Lemma encode_params_well_formed (m : jsobject) :
  forallb (fun kv => well_formed (snd kv)) m = true ->
  exists params, encode_params m = Ok params.
Proof.
  induction m as [|[k v] m IH]; [now exists []|].
  cbn [forallb snd]. intros H. apply andb_true_iff in H as [Hv Hm].
  destruct (urlEncode_urlDecode v Hv) as (e & He & _).
  destruct (IH Hm) as (params & Hparams).
  cbn [encode_params]. rewrite He, Hparams. eexists. reflexivity.
Qed.

Lemma plus_replaced_no_percent (s : jsstring) :
  ~ In percent s -> ~ In percent (replace_all s (ch "+") (jsstr " ")).
Proof.
  intros Hno. change (jsstr " ") with [ch " "]. rewrite replace_all_char.
  intros Hin. apply in_map_iff in Hin as (x & Hx & Hin).
  destruct (N.eqb_spec x (ch "+")); [discriminate|]. subst x. contradiction.
Qed.

End CodecFacts.

Section CodecProperties.
Import JS URI Obj ObjSpec Uri Escapes QueryCodecSpec RoundTrip LookupSpec.
Local Open Scope N_scope.

(** X4.  [urlDecode_] undoes [urlEncode_]: a string of well-formed UTF-16 is
    encoded without an exception, into unreserved characters and [%] only,
    and decoding the result gives the string back. *)
Theorem urlDecode__undoes_urlEncode_ :
  forall v : jsstring,
    well_formed v = true ->
    exists e, urlEncode_ v = Ok e
              /\ forallb encoded_char e = true
              /\ urlDecode_ e = Ok v.
Proof.
  intros v Hwf. destruct (urlEncode_urlDecode v Hwf) as (e & He & Hchars & Hdec).
  exists e. split; [exact He|]. split; [exact Hchars|].
  now rewrite urlDecode_decode_value.
Qed.

Lemma urlDecode__undoes_urlEncode__witness :
  let v := jsstr "a+b c&d=100%" ++ [0xE9; 0xD83D; 0xDE00] in
  exists e, urlEncode_ v = Ok e
            /\ forallb encoded_char e = true
            /\ urlDecode_ e = Ok v.
Proof.
  exact (urlDecode__undoes_urlEncode_ (jsstr "a+b c&d=100%" ++ [0xE9; 0xD83D; 0xDE00])
           eq_refl).
Defined.



(** X6.  [parseQueryMap] undoes [encodeQueryMap] on a map built by
    assignments whose keys are made of unreserved characters and whose
    values are well-formed UTF-16: the same properties come back, in the
    same order. *)
Theorem parseQueryMap_undoes_encodeQueryMap :
  forall m : jsobject,
    well_built m -> encodable m = true ->
    exists s, encodeQueryMap m = Ok s /\ parseQueryMap s = Ok m.
Proof.
  intros m Hbuilt Henc. exact (encode_then_parse m Hbuilt Henc).
Qed.

Lemma parseQueryMap_undoes_encodeQueryMap_witness :
  let m := [(jsstr "2", jsstr "x&="); (jsstr "10", []); (jsstr "b", [0xE9]);
            (jsstr "a", jsstr "1 2+3")] in
  exists s, encodeQueryMap m = Ok s /\ parseQueryMap s = Ok m.
Proof.
  apply (parseQueryMap_undoes_encodeQueryMap
           [(jsstr "2", jsstr "x&="); (jsstr "10", []); (jsstr "b", [0xE9]);
            (jsstr "a", jsstr "1 2+3")]).
  - apply (parseQueryMap_well_built (jsstr "b=%C3%A9&10=&a=1+2%2B3&2=x%26%3D")).
    reflexivity.
  - reflexivity.
Defined.

(** X7.  A value without a [%] is always decoded: [urlDecode_] returns it
    with every [+] replaced by a space. *)
Theorem urlDecode__without_percent :
  forall str : jsstring,
    ~ In percent str ->
    urlDecode_ str = Ok (replace_all str (ch "+") (jsstr " ")).
Proof.
  intros str Hno. unfold urlDecode_, decodeURIComponent.
  apply Decode_without_percent. now apply plus_replaced_no_percent.
Qed.

Lemma urlDecode__without_percent_witness :
  urlDecode_ (jsstr "a+b++c d") = Ok (replace_all (jsstr "a+b++c d") (ch "+") (jsstr " ")).
Proof.
  apply (urlDecode__without_percent (jsstr "a+b++c d")).
  intros H. vm_compute in H. repeat (destruct H as [H|H]; [discriminate|]). exact H.
Defined.

(** X8.  Decoding keeps UTF-16 well formed: when the query string has no
    unpaired surrogate, neither has any value of the map that
    [parseQueryMap] returns, and [encodeQueryMap] encodes that map without
    an exception. *)
Theorem parsed_map_can_be_encoded :
  forall (q : jsstring) (m : jsobject),
    well_formed q = true -> parseQueryMap q = Ok m ->
    forallb (fun kv => well_formed (snd kv)) m = true
    /\ exists s, encodeQueryMap m = Ok s.
Proof.
  intros q m Hwf Hm.
  pose proof (parsed_values_well_formed q m Hwf Hm) as Hvalues.
  split; [exact Hvalues|].
  destruct (encode_params_well_formed m Hvalues) as (params & Hp).
  unfold encodeQueryMap. rewrite Hp. eexists. reflexivity.
Qed.

Lemma parsed_map_can_be_encoded_witness :
  let m := [(jsstr "a", [0xD83D; 0xDE00; 32; 0xE9]); (jsstr "b", [])] in
  forallb (fun kv => well_formed (snd kv)) m = true
  /\ exists s, encodeQueryMap m = Ok s.
Proof.
  exact (parsed_map_can_be_encoded (jsstr "?a=%F0%9F%98%80+%C3%A9&b")
           [(jsstr "a", [0xD83D; 0xDE00; 32; 0xE9]); (jsstr "b", [])]
           eq_refl eq_refl).
Defined.

End CodecProperties.

(* ===================================================================== *)
(** ** Keys with brackets, and where a value ends *)
(* ===================================================================== *)


Section KeyPatternFacts.
Import JS URI Obj ObjSpec Uri QueryCodecSpec LookupSpec KeyPatterns.
Local Open Scope N_scope.

Lemma occurrences_cons (c d : jschar) (s : jsstring) :
  occurrences c (d :: s) =
    if c =? d then S (occurrences c s) else occurrences c s.
Proof. unfold occurrences. cbn [filter]. now destruct (c =? d). Qed.

Lemma pattern_literal_ordinary (s : jsstring) :
  forallb bracket_or_ordinary s = true ->
  occurrences (ch "[") s = 0%nat -> occurrences (ch "]") s = 0%nat ->
  pattern_literal s = Some s.
Proof.
  induction s as [|c s IH]; [reflexivity|].
  cbn [forallb]. rewrite !occurrences_cons. intros Hs Hopen Hclose.
  apply andb_true_iff in Hs as [Hc Hs].
  destruct (N.eqb_spec (ch "[") c) as [|Hno]; [discriminate|].
  destruct (N.eqb_spec (ch "]") c) as [|Hnc]; [discriminate|].
  unfold bracket_or_ordinary in Hc.
  replace (c =? ch "[") with false in Hc by (symmetry; apply N.eqb_neq; congruence).
  replace (c =? ch "]") with false in Hc by (symmetry; apply N.eqb_neq; congruence).
  rewrite !orb_false_r in Hc. apply negb_true_iff in Hc.
  cbn [pattern_literal].
  destruct (N.eqb_spec c (ch "\")) as [->|_]; [vm_compute in Hc; discriminate|].
  rewrite Hc, (IH Hs Hopen Hclose). reflexivity.
Qed.

(** One bracket, escaped by [replace], reads back as itself. *)
Lemma pattern_literal_one_bracket (s : jsstring) (b other : jschar) :
  (b = ch "[" /\ other = ch "]") \/ (b = ch "]" /\ other = ch "[") ->
  forallb bracket_or_ordinary s = true ->
  occurrences other s = 0%nat -> (occurrences b s <= 1)%nat ->
  pattern_literal (replace_first s b [ch "\"; b]) = Some s.
Proof.
  intros Hb. induction s as [|c s IH]; [reflexivity|].
  cbn [forallb]. rewrite !occurrences_cons. intros Hs Hother Hone.
  apply andb_true_iff in Hs as [Hc Hs].
  destruct (N.eqb_spec other c) as [|Hno]; [discriminate|].
  cbn [replace_first]. rewrite (N.eqb_sym c b).
  destruct (N.eqb_spec b c) as [<-|Hnb].
  - assert (Hzero : occurrences b s = 0%nat) by lia.
    cbn [app pattern_literal]. rewrite N.eqb_refl.
    replace (syntax_char b) with true
      by (destruct Hb as [[-> _]|[-> _]]; reflexivity).
    rewrite pattern_literal_ordinary; [reflexivity|exact Hs| |];
      destruct Hb as [[-> ->]|[-> ->]]; assumption.
  - unfold bracket_or_ordinary in Hc.
    replace (c =? ch "[") with false in Hc
      by (symmetry; apply N.eqb_neq; destruct Hb as [[-> ->]|[-> ->]]; congruence).
    replace (c =? ch "]") with false in Hc
      by (symmetry; apply N.eqb_neq; destruct Hb as [[-> ->]|[-> ->]]; congruence).
    rewrite !orb_false_r in Hc. apply negb_true_iff in Hc.
    cbn [pattern_literal].
    destruct (N.eqb_spec c (ch "\")) as [->|_]; [vm_compute in Hc; discriminate|].
    now rewrite Hc, (IH Hs Hother Hone).
Qed.

Lemma exec_key_no_match (lit prefix rest : jsstring) :
  no_match_in lit prefix rest = true ->
  exec_key lit (prefix ++ rest) = exec_key lit rest.
Proof.
  induction prefix as [|c prefix IH]; intros Hno; [reflexivity|].
  cbn [no_match_in] in Hno. apply andb_true_iff in Hno as [Hc Hno].
  apply negb_true_iff in Hc. cbn [app exec_key]. rewrite Hc. now apply IH.
Qed.

Lemma capture_value_ends (raw t : jsstring) :
  free_of "&#" raw = true ->
  (t = [] \/ exists c t', t = c :: t' /\ (c = ch "&" \/ c = ch "#")) ->
  capture_value (raw ++ t) = raw.
Proof.
  intros Hraw Ht. induction raw as [|c raw IH].
  - destruct Ht as [->|(c & t' & -> & [->| ->])]; reflexivity.
  - cbn [free_of forallb] in Hraw. apply andb_true_iff in Hraw as [Hc Hraw].
    cbn [app capture_value].
    replace ((c =? ch "&") || (c =? ch "#"))%bool with false; [now rewrite IH|].
    symmetry. apply negb_true_iff in Hc. unfold is_one_of in Hc.
    cbn [jsstr list_ascii_of_string map existsb] in Hc.
    now rewrite orb_false_r in Hc.
Qed.

End KeyPatternFacts.

Section KeyPatternProperties.
Import JS URI Obj ObjSpec Uri QueryCodecSpec LookupSpec KeyPatterns.
Local Open Scope N_scope.

(** X9.  The two [replace] calls of [getParameterValue] make a key with at
    most one [[] and at most one []], and no other pattern operator, a
    pattern that matches the key's own text. *)
Theorem escape_key_reads_back :
  forall key : jsstring,
    forallb bracket_or_ordinary key = true ->
    (occurrences (ch "[") key <= 1)%nat ->
    (occurrences (ch "]") key <= 1)%nat ->
    pattern_literal (escape_key key) = Some key.
Proof.
  unfold escape_key. change (jsstr "\[") with [ch "\"; ch "["].
  change (jsstr "\]") with [ch "\"; ch "]"].
  induction key as [|c key IH]; [reflexivity|].
  cbn [forallb]. rewrite !occurrences_cons. intros Hs Hopen Hclose.
  apply andb_true_iff in Hs as [Hc Hs].
  destruct (N.eqb_spec (ch "[") c) as [<-|Hno].
  - assert (Hzero : occurrences (ch "[") key = 0%nat) by lia.
    cbn [replace_first]. rewrite N.eqb_refl. cbn [app replace_first].
    change (ch "\" =? ch "]") with false. change (ch "[" =? ch "]") with false.
    change (ch "]" =? ch "[") with false in Hclose.
    cbn [pattern_literal]. rewrite N.eqb_refl.
    change (syntax_char (ch "[")) with true. cbv iota.
    rewrite (pattern_literal_one_bracket key (ch "]") (ch "["));
      [reflexivity|now right|exact Hs|exact Hzero|exact Hclose].
  - destruct (N.eqb_spec (ch "]") c) as [<-|Hnc].
    + assert (Hzero : occurrences (ch "]") key = 0%nat) by lia.
      cbn [replace_first]. change (ch "]" =? ch "[") with false. cbv iota.
      cbn [replace_first]. rewrite N.eqb_refl. cbn [app].
      cbn [pattern_literal]. rewrite N.eqb_refl.
      change (syntax_char (ch "]")) with true. cbv iota.
      rewrite (pattern_literal_one_bracket key (ch "[") (ch "]"));
        [reflexivity|now left|exact Hs|exact Hzero|exact Hopen].
    + cbn [replace_first].
      replace (c =? ch "[") with false by (symmetry; apply N.eqb_neq; congruence).
      cbn [replace_first].
      replace (c =? ch "]") with false by (symmetry; apply N.eqb_neq; congruence).
      unfold bracket_or_ordinary in Hc.
      replace (c =? ch "[") with false in Hc by (symmetry; apply N.eqb_neq; congruence).
      replace (c =? ch "]") with false in Hc by (symmetry; apply N.eqb_neq; congruence).
      rewrite !orb_false_r in Hc. apply negb_true_iff in Hc.
      cbn [pattern_literal].
      destruct (N.eqb_spec c (ch "\")) as [->|_]; [vm_compute in Hc; discriminate|].
      now rewrite Hc, (IH Hs Hopen Hclose).
Qed.

Lemma escape_key_reads_back_witness :
  pattern_literal (escape_key (jsstr "utm]_a[0")) = Some (jsstr "utm]_a[0").
Proof.
  apply (escape_key_reads_back (jsstr "utm]_a[0")); [reflexivity|cbn; lia|cbn; lia].
Defined.

(** X10.  For a key that the pattern matches literally once it is escaped,
    [getParameterValue] reads the first [key=] of the address that follows
    a [?] or a [&]: the address is [prefix ++ sep :: key ++ "=" ++ raw ++ t]
    where [sep] is [?] or [&], no [?] or [&] of [prefix] is followed by
    [key=], [raw] has no [&] and no [#], and [t] is empty or starts with [&]
    or [#].  The result is [null] when [raw] is empty and the decoding of
    [raw] otherwise (a URIError when it cannot be decoded): what follows a
    [#] is never part of the value. *)
Theorem getParameterValue_value_ends_at_separator :
  forall (href key prefix raw t : jsstring) (sep : jschar),
    pattern_literal (escape_key key) = Some key ->
    no_match_in key prefix (sep :: key ++ ch "=" :: raw ++ t) = true ->
    sep = ch "?" \/ sep = ch "&" ->
    free_of "&#" raw = true ->
    (t = [] \/ exists c t', t = c :: t' /\ (c = ch "&" \/ c = ch "#")) ->
    getParameterValue href key (Some (prefix ++ sep :: key ++ ch "=" :: raw ++ t)) =
      Some (value_or_null (Some raw)).
Proof.
  intros href key prefix raw t sep Hlit Hprefix Hsep Hraw Ht.
  unfold getParameterValue. rewrite Hlit.
  replace (truthy (prefix ++ sep :: key ++ ch "=" :: raw ++ t)) with true
    by (now destruct prefix).
  rewrite exec_key_no_match by exact Hprefix.
  cbn [exec_key].
  replace ((sep =? ch "?") || (sep =? ch "&"))%bool with true
    by (destruct Hsep as [->| ->]; reflexivity).
  replace (key ++ ch "=" :: raw ++ t) with ((key ++ jsstr "=") ++ raw ++ t)
    by (now rewrite <- app_assoc).
  rewrite startsWith_prefix. cbn [andb].
  replace (List.length key + 1)%nat with (List.length (key ++ jsstr "="))
    by (rewrite length_app; reflexivity).
  rewrite skipn_app, skipn_all, Nat.sub_diag. cbn [skipn app].
  rewrite capture_value_ends by assumption.
  unfold value_or_null. rewrite urlDecode_decode_value. reflexivity.
Qed.

Lemma getParameterValue_value_ends_at_separator_witness :
  getParameterValue [] (jsstr "k") (Some (jsstr "https://x/p?a=1&k=v+w%21#k=2&z")) =
    Some (Ok (Some (jsstr "v w!"))).
Proof.
  apply (getParameterValue_value_ends_at_separator [] (jsstr "k")
           (jsstr "https://x/p?a=1") (jsstr "v+w%21") (jsstr "#k=2&z") (ch "&"));
    [reflexivity|reflexivity|now right|reflexivity|].
  right. exists (ch "#"), (jsstr "k=2&z"). split; [reflexivity|now right].
Defined.

End KeyPatternProperties.

(* ===================================================================== *)
(** ** What [updateParamsFromUrl] propagates and what it leaves *)
(* ===================================================================== *)


Section DecodeErrors.
Import JS URI Obj ObjSpec Uri Escapes QueryCodecSpec.
Local Open Scope N_scope.

Lemma Decode_only_URIError (s : jsstring) (skip : nat) (e : exn) :
  Decode skip s = Err e -> e = URIError.
Proof.
  revert skip. induction s as [|c rest IH]; intros skip; [discriminate|].
  cbn [Decode]. destruct skip as [|skip']; [|apply IH].
  destruct (c =? percent).
  - destruct (decode_escape rest) as [[units used]|]; [|now intros [= <-]].
    destruct (Decode used rest) eqn:Hd; [discriminate|].
    intros [= <-]. exact (IH _ Hd).
  - destruct (Decode 0 rest) eqn:Hd; [discriminate|].
    intros [= <-]. exact (IH _ Hd).
Qed.

Lemma visits_only_URIError (pairs : list (jsstring * option jsstring)) (e : exn) :
  snd (visits pairs) = Err e -> e = URIError.
Proof.
  induction pairs as [|[k value] pairs IH]; [discriminate|].
  cbn [visits]. destruct (decode_value value) eqn:Hdec.
  - destruct (visits pairs). exact IH.
  - cbn [snd]. intros [= <-]. destruct value as [raw|]; [|discriminate].
    exact (Decode_only_URIError _ _ _ Hdec).
Qed.

Lemma visits_throw (pairs : list (jsstring * option jsstring)) (k raw : jsstring) :
  In (k, Some raw) pairs -> ~ well_escaped raw -> snd (visits pairs) = Err URIError.
Proof.
  intros Hin Hbad. destruct (snd (visits pairs)) as [[]|e] eqn:Hr.
  - exfalso. apply Hbad. exact (visits_return_inv pairs Hr k raw Hin).
  - now rewrite (visits_only_URIError pairs e Hr).
Qed.

End DecodeErrors.

(* ===================================================================== *)
(** ** The visits of [parseQueryString] *)
(* ===================================================================== *)

Section VisitClaims.
Import JS URI Uri QueryCodecSpec.

Lemma decoded_pairs_visits (pairs : list (jsstring * option jsstring))
    (seen : list (jsstring * jsstring)) :
  decoded_pairs pairs = Some seen ->
  visits pairs = (seen, Ok tt)
  /\ List.length seen = List.length pairs /\ map fst seen = map fst pairs.
Proof.
  revert seen. induction pairs as [|[k value] pairs IH]; intros seen.
  - intros [= <-]. repeat split.
  - cbn [decoded_pairs visits]. destruct (decode_value value) as [v|]; [|discriminate].
    destruct (decoded_pairs pairs) as [rest|]; [|discriminate].
    intros [= <-]. destruct (IH rest eq_refl) as (-> & Hl & Hk).
    cbn [List.length map fst]. now rewrite Hl, Hk.
Qed.

Lemma decoded_pairs_stop (pairs : list (jsstring * option jsstring)) :
  decoded_pairs pairs = None ->
  exists before key raw after seen,
    pairs = before ++ (key, Some raw) :: after
    /\ decoded_pairs before = Some seen
    /\ urlDecode_ raw = Err URIError
    /\ visits pairs = (seen, Err URIError).
Proof.
  induction pairs as [|[k value] pairs IH]; [discriminate|].
  cbn [decoded_pairs visits]. destruct (decode_value value) as [v|e] eqn:Hdec.
  - destruct (decoded_pairs pairs) as [rest|]; [discriminate|]. intros _.
    destruct (IH eq_refl) as (before & key & raw & after & seen & -> & Hb & Hraw & ->).
    exists ((k, value) :: before), key, raw, after, ((k, v) :: seen).
    cbn [decoded_pairs]. rewrite Hdec, Hb. repeat split. exact Hraw.
  - intros _. destruct value as [raw|]; [|discriminate].
    assert (e = URIError) by exact (Decode_only_URIError _ _ _ Hdec). subst e.
    exists [], k, raw, pairs, []. rewrite urlDecode_decode_value. repeat split.
    exact Hdec.
Qed.

(** C6, as stated, fails: the visitor is not called once per pair for
    every query.  On ["a=1&b=%&c=3"] there are three pairs and one visit,
    since decoding the second value throws. *)
Lemma C6_counterexample :
  let q := jsstr "a=1&b=%&c=3" in
  List.length (raw_pairs q) = 3%nat
  /\ parseQueryString record_visit q [] = ([(jsstr "a", jsstr "1")], Err URIError)
  /\ ~ (forall query : jsstring,
          List.length (fst (parseQueryString record_visit query [])) =
            List.length (raw_pairs query)).
Proof.
  split; [reflexivity|]. split; [reflexivity|].
  intros H. specialize (H (jsstr "a=1&b=%&c=3")). discriminate H.
Qed.

(** C6, amended.  Nothing is visited on empty input; otherwise a single
    leading [?] is dropped, the rest is cut at every [&], each segment is cut
    at its first [=] (the whole segment is the key and the value is empty
    when there is none), and only values are percent-decoded, after [+]
    became a space.  When every value decodes the visitor is called exactly
    once per pair, left to right.  Otherwise it is called once per pair that
    comes before the first value that cannot be decoded, and a URIError is
    thrown there.  On ["a"] the one visit has key ["a"] and an empty value;
    on ["a=1&b=2"] the visits are [("a","1")] then [("b","2")]. *)
Theorem C6_parseQueryString_visits_until_a_value_fails :
  (forall (St : Type) (visit : jsstring -> jsstring -> St -> St) (st : St),
      parseQueryString visit [] st = (st, Ok tt))
  /\ (forall (St : Type) (visit : jsstring -> jsstring -> St -> St)
        (query : jsstring) (st : St) (seen : list (jsstring * jsstring)),
        decoded_pairs (raw_pairs query) = Some seen ->
        parseQueryString visit query st = (call_all visit seen st, Ok tt)
        /\ List.length seen = List.length (raw_pairs query)
        /\ map fst seen = map fst (raw_pairs query))
  /\ (forall (St : Type) (visit : jsstring -> jsstring -> St -> St)
        (query : jsstring) (st : St),
        decoded_pairs (raw_pairs query) = None ->
        exists before key raw after seen,
          raw_pairs query = before ++ (key, Some raw) :: after
          /\ decoded_pairs before = Some seen
          /\ urlDecode_ raw = Err URIError
          /\ parseQueryString visit query st = (call_all visit seen st, Err URIError))
  /\ (forall c query,
        raw_pairs (ch "?" :: c :: query) = map raw_pair (split (c :: query) (ch "&")))
  /\ parseQueryString record_visit (jsstr "a") [] = ([(jsstr "a", [])], Ok tt)
  /\ parseQueryString record_visit (jsstr "a=1&b=2") [] =
       ([(jsstr "a", jsstr "1"); (jsstr "b", jsstr "2")], Ok tt)
  /\ parseQueryString record_visit (jsstr "k=a+b%3D&x=y=z") [] =
       ([(jsstr "k", jsstr "a b="); (jsstr "x", jsstr "y=z")], Ok tt)
  /\ parseQueryString record_visit (jsstr "a%20b=c%20d") [] =
       ([(jsstr "a%20b", jsstr "c d")], Ok tt).
Proof.
  split; [reflexivity|]. split; [|split].
  - intros St visit query st seen Hseen.
    destruct (decoded_pairs_visits _ _ Hseen) as (Hv & Hl & Hk).
    rewrite parseQueryString_decodePairs. unfold decodePairs. rewrite Hv.
    now repeat split.
  - intros St visit query st Hnone.
    destruct (decoded_pairs_stop _ Hnone)
      as (before & key & raw & after & seen & Hsplit & Hb & Hraw & Hv).
    exists before, key, raw, after, seen.
    rewrite parseQueryString_decodePairs. unfold decodePairs. rewrite Hv.
    now repeat split.
  - split.
    { intros c query. unfold raw_pairs, strip_question_mark.
      now rewrite N.eqb_refl. }
    repeat split.
Qed.

Lemma C6_witness :
  parseQueryString record_visit (jsstr "?a=1&b&c=x+y") [] =
    ([(jsstr "a", jsstr "1"); (jsstr "b", []); (jsstr "c", jsstr "x y")], Ok tt)
  /\ List.length (raw_pairs (jsstr "?a=1&b&c=x+y")) = 3%nat.
Proof.
  destruct C6_parseQueryString_visits_until_a_value_fails as (_ & Hall & _).
  destruct (Hall _ record_visit (jsstr "?a=1&b&c=x+y") []
              [(jsstr "a", jsstr "1"); (jsstr "b", []); (jsstr "c", jsstr "x y")]
              eq_refl) as (Hvisits & Hlength & _).
  split; [exact Hvisits|]. now rewrite <- Hlength.
Defined.

End VisitClaims.

Section SetFacts.
Import JS URI Obj ObjSpec Uri QueryCodecSpec LookupSpec.
Local Open Scope N_scope.

Lemma overwrite_same (o : jsobject) (k v : jsstring) :
  Obj.get o k = Some v -> overwrite o k v = o.
Proof.
  induction o as [|[k' v'] o IH]; [reflexivity|].
  cbn [Obj.get overwrite]. destruct (string_eqb k' k).
  - now intros [= ->].
  - intros H. now rewrite IH.
Qed.

Lemma set_twice (o : jsobject) (k v : jsstring) :
  Obj.set (Obj.set o k v) k v = Obj.set o k v.
Proof.
  destruct (string_eqb k proto_key) eqn:Hproto.
  { unfold Obj.set. now rewrite Hproto. }
  assert (Hne : k <> proto_key) by now apply string_eqb_neq.
  assert (Hget : Obj.get (Obj.set o k v) k = Some v).
  { rewrite get_set by exact Hne. now rewrite string_eqb_refl. }
  assert (Hown : has_own (Obj.set o k v) k = true).
  { clear - Hget. induction (Obj.set o k v) as [|[k' v'] o' IH]; [discriminate|].
    cbn [Obj.get has_own] in *. destruct (string_eqb k' k); [reflexivity|now apply IH]. }
  unfold Obj.set at 1. rewrite Hproto, Hown. now apply overwrite_same.
Qed.

Lemma last_value_filter (P : jsstring -> bool) (key : jsstring)
    (seen : list (jsstring * jsstring)) :
  last_value key (filter (fun kv => P (fst kv)) seen) =
    if P key then last_value key seen else None.
Proof.
  induction seen as [|[k v] seen IH]; [now destruct (P key)|].
  cbn [filter fst]. destruct (P k) eqn:Hk.
  - cbn [last_value]. rewrite IH. destruct (P key) eqn:Hkey; [reflexivity|].
    destruct (string_eqb k key) eqn:Heq; [|reflexivity].
    apply string_eqb_eq in Heq. congruence.
  - rewrite IH. destruct (P key) eqn:Hkey; [|reflexivity].
    cbn [last_value]. destruct (last_value key seen); [reflexivity|].
    destruct (string_eqb k key) eqn:Heq; [|reflexivity].
    apply string_eqb_eq in Heq. congruence.
Qed.

End SetFacts.

Section SelectionFacts.
Import JS URI Obj ObjSpec Uri Escapes QueryCodecSpec UpdateParams UpdateParamsSpec ParamSelection.

Variable regexp : Type.
Variable regexp_match : jsstring -> regexp -> bool.

Lemma collect_selects (params : option (list (param regexp)))
    (key value : jsstring) (vals : jsobject) :
  collect regexp_match params key value vals =
    if selects regexp_match params key then Obj.set vals key value else vals.
Proof.
  destruct params as [ps|]; [|reflexivity].
  cbn [collect selects].
  assert (Hset : forall ps,
             fold_left
               (fun vals param =>
                  match param with
                  | @ParamString _ s =>
                      if string_eqb s key then Obj.set vals key value else vals
                  | @ParamRegExp _ r =>
                      if regexp_match key r then Obj.set vals key value else vals
                  end) ps (Obj.set vals key value) = Obj.set vals key value).
  { clear ps. induction ps as [|[s|r] ps IH]; [reflexivity| |]; cbn [fold_left].
    - destruct (string_eqb s key); [now rewrite set_twice|exact IH].
    - destruct (regexp_match key r); [now rewrite set_twice|exact IH]. }
  induction ps as [|[s|r] ps IH]; [reflexivity| |]; cbn [fold_left existsb].
  - destruct (string_eqb s key); [apply Hset|exact IH].
  - destruct (regexp_match key r); [apply Hset|exact IH].
Qed.

Lemma call_all_collect (params : option (list (param regexp)))
    (seen : list (jsstring * jsstring)) (vals : jsobject) :
  call_all (collect regexp_match params) seen vals =
    assign_all (filter (fun kv => selects regexp_match params (fst kv)) seen) vals.
Proof.
  revert vals. induction seen as [|[k v] seen IH]; intros vals; [reflexivity|].
  unfold call_all in *. cbn [fold_left filter fst snd].
  rewrite IH, collect_selects.
  destruct (selects regexp_match params k); reflexivity.
Qed.

End SelectionFacts.

Section FrameFacts.
Import JS URI Obj ObjSpec Uri Escapes QueryCodecSpec LookupSpec UpdateParams UpdateParamsSpec ParamSelection.

Variable regexp : Type.
Variable regexp_match : jsstring -> regexp -> bool.
Variable selector_matches : jsstring -> element -> bool.
Variable url : Type.
Variable URL_new : jsstring -> jsstring -> option url.
Variable url_search : url -> jsstring.
Variable url_set_search : url -> jsstring -> url.
Variable url_toString : url -> jsstring.

Local Abbreviation update_element :=
  (@UpdateParams.update_element regexp url URL_new url_search url_set_search url_toString).
Local Abbreviation update_elements :=
  (@UpdateParams.update_elements regexp url URL_new url_search url_set_search url_toString).
Local Abbreviation updateParamsFromUrl :=
  (@UpdateParams.updateParamsFromUrl regexp regexp_match selector_matches url URL_new
     url_search url_set_search url_toString).

Lemma same_but_refl name pg : same_but name pg pg.
Proof. repeat split. intros i el Hi. now exists el. Qed.

Lemma same_but_trans name pg1 pg2 pg3 :
  same_but name pg1 pg2 -> same_but name pg2 pg3 -> same_but name pg1 pg3.
Proof.
  intros (Hl1 & Hs1 & Hh1 & H1) (Hl2 & Hs2 & Hh2 & H2).
  split; [congruence|]. split; [congruence|]. split; [congruence|].
  intros i el Hi. destruct (H1 i el Hi) as (el2 & Hi2 & Hattr2).
  destruct (H2 i el2 Hi2) as (el3 & Hi3 & Hattr3).
  exists el3. split; [exact Hi3|]. intros other Hne.
  now rewrite Hattr3, Hattr2.
Qed.

Lemma same_but_access name a pg : same_but name pg (access a pg).
Proof. repeat split. intros i el Hi. now exists el. Qed.

Lemma getAttribute_setAttribute_other (el : element) (name value other : jsstring) :
  other <> name ->
  getAttribute (setAttribute el name value) other = getAttribute el other.
Proof.
  intros Hne. unfold getAttribute, setAttribute. cbn [attributes].
  assert (Heq : string_eqb name other = false) by (apply string_eqb_neq; congruence).
  destruct (has_own (attributes el) name) eqn:Hown.
  - rewrite get_overwrite by exact Hown. now rewrite Heq.
  - rewrite get_snoc by (now apply has_own_false). now rewrite Heq.
Qed.

Lemma length_replace_nth {A} (l : list A) (i : nat) (x : A) :
  List.length (replace_nth l i x) = List.length l.
Proof.
  revert i. induction l as [|y l IH]; intros i; [now destruct i|].
  destruct i; cbn [replace_nth List.length]; [reflexivity|now rewrite IH].
Qed.

Lemma nth_error_replace_nth_same {A} (l : list A) (i : nat) (x y : A) :
  nth_error l i = Some y -> nth_error (replace_nth l i x) i = Some x.
Proof.
  revert i. induction l as [|z l IH]; intros i; [now destruct i|].
  destruct i; cbn [replace_nth nth_error]; [reflexivity|apply IH].
Qed.

Lemma same_but_write_attribute name value j pg :
  same_but name pg (write_attribute j name value pg).
Proof.
  unfold write_attribute.
  destruct (nth_error (document pg) j) as [elj|] eqn:Hj; [|apply same_but_refl].
  split; [cbn [document]; apply length_replace_nth|].
  split; [reflexivity|]. split; [reflexivity|].
  intros i el Hi. cbn [document].
  destruct (Nat.eq_dec i j) as [->|Hij].
  - exists (setAttribute elj name value).
    split; [now apply (nth_error_replace_nth_same _ _ _ elj)|].
    intros other Hne. assert (el = elj) by congruence. subst el.
    now apply getAttribute_setAttribute_other.
  - exists el. split; [|reflexivity].
    now rewrite nth_error_replace_nth_other.
Qed.

Lemma update_element_same_but (c : config regexp) vals j elj pg :
  same_but (attr c) pg (fst (update_element c vals j elj pg)).
Proof.
  unfold UpdateParams.update_element.
  destruct (getAttribute elj (attr c)) as [h|]; [|apply same_but_access].
  destruct (truthy h && negb (startsWith h (jsstr "#"))); [|apply same_but_access].
  assert (H2 : same_but (attr c) pg
                 (access (GetAttribute j (attr c)) (access (GetAttribute j (attr c)) pg))).
  { eapply same_but_trans; apply same_but_access. }
  destruct (URL_new h _); [|exact H2].
  destruct (Uri.parseQueryMap _); [|exact H2].
  assert (H3 : same_but (attr c) pg
                 (access (GetAttribute j (serializeAttr c))
                    (access (GetAttribute j (attr c))
                       (access (GetAttribute j (attr c)) pg)))).
  { eapply same_but_trans; [exact H2|apply same_but_access]. }
  match goal with
  | |- context [match ?e with Ok _ => _ | Err _ => _ end] => destruct e
  end; [|exact H3].
  cbn [fst]. eapply same_but_trans; [exact H3|apply same_but_write_attribute].
Qed.

Lemma update_element_other (c : config regexp) vals j elj pg i :
  i <> j ->
  nth_error (document (fst (update_element c vals j elj pg))) i =
    nth_error (document pg) i.
Proof.
  intros Hij. unfold UpdateParams.update_element.
  destruct (getAttribute elj (attr c)) as [h|]; [|reflexivity].
  destruct (truthy h && negb (startsWith h (jsstr "#"))); [|reflexivity].
  destruct (URL_new h _); [|reflexivity].
  destruct (Uri.parseQueryMap _); [|reflexivity].
  match goal with
  | |- context [match ?e with Ok _ => _ | Err _ => _ end] => destruct e
  end; [|reflexivity].
  cbn [fst]. now rewrite document_write_attribute_other.
Qed.

Lemma update_elements_same_but (c : config regexp) vals els pg :
  same_but (attr c) pg (fst (update_elements c vals els pg)).
Proof.
  revert pg. induction els as [|j els IH]; intros pg; [apply same_but_refl|].
  cbn [UpdateParams.update_elements].
  destruct (nth_error (document pg) j) as [elj|]; [|apply same_but_refl].
  pose proof (update_element_same_but c vals j elj pg) as Hstep.
  destruct (update_element c vals j elj pg) as [pg' [[]|e]]; cbn [fst] in *.
  - eapply same_but_trans; [exact Hstep|apply IH].
  - exact Hstep.
Qed.

Lemma update_elements_other (c : config regexp) vals els pg i :
  ~ In i els ->
  nth_error (document (fst (update_elements c vals els pg))) i =
    nth_error (document pg) i.
Proof.
  revert pg. induction els as [|j els IH]; intros pg Hi; [reflexivity|].
  cbn [UpdateParams.update_elements].
  destruct (nth_error (document pg) j) as [elj|]; [|reflexivity].
  pose proof (update_element_other c vals j elj pg i
                ltac:(intros ->; apply Hi; now left)) as Hstep.
  destruct (update_element c vals j elj pg) as [pg' [[]|e]]; cbn [fst] in *.
  - rewrite IH; [exact Hstep|]. intros H. apply Hi. now right.
  - exact Hstep.
Qed.

Lemma matching_from_selected (sel : jsstring) (els : list element) (k j : nat) :
  In j (matching_from selector_matches sel els k) ->
  exists el, nth_error els (j - k) = Some el
             /\ selector_matches sel el = true /\ (k <= j)%nat.
Proof.
  revert k. induction els as [|el els IH]; intros k; [intros []|].
  cbn [matching_from].
  assert (Hrest : In j (matching_from selector_matches sel els (S k)) ->
                  exists el0, nth_error (el :: els) (j - k) = Some el0
                              /\ selector_matches sel el0 = true /\ (k <= j)%nat).
  { intros H. destruct (IH _ H) as (el0 & Hnth & Hsel & Hle).
    exists el0. replace (j - k)%nat with (S (j - S k)) by lia.
    split; [exact Hnth|]. split; [exact Hsel|lia]. }
  destruct (selector_matches sel el) eqn:Hel; [|exact Hrest].
  intros [<-|H]; [|now apply Hrest].
  exists el. rewrite Nat.sub_diag. split; [reflexivity|]. split; [exact Hel|lia].
Qed.

(** X11.  [updateParamsFromUrl] writes one attribute and nothing else: the
    document keeps its elements, every attribute other than [attr] keeps its
    value, and an element that the selector does not match is left as it
    was; this holds too when the run is cut short by an exception. *)
Theorem updateParamsFromUrl_writes_only_attr :
  forall (c : config regexp) (pg : page),
    let pg' := fst (updateParamsFromUrl c pg) in
    List.length (document pg') = List.length (document pg)
    /\ forall (i : nat) (el : element),
         nth_error (document pg) i = Some el ->
         exists el', nth_error (document pg') i = Some el'
                     /\ (forall other, other <> attr c ->
                           getAttribute el' other = getAttribute el other)
                     /\ (selector_matches (selector c) el = false -> el' = el).
Proof.
  intros c pg pg'.
  assert (Hsame : same_but (attr c) pg pg'
                  /\ forall i el, nth_error (document pg) i = Some el ->
                       selector_matches (selector c) el = false ->
                       nth_error (document pg') i = Some el).
  { subst pg'. unfold UpdateParams.updateParamsFromUrl.
    destruct (negb (truthy (location_search pg))); [split; [apply same_but_refl|auto]|].
    destruct (Uri.parseQueryString _ _ _) as [vals [[]|e]];
      [|split; [apply same_but_refl|auto]].
    split.
    - eapply same_but_trans; [apply same_but_access|apply update_elements_same_but].
    - intros i el Hi Hsel. rewrite update_elements_other; [exact Hi|].
      intros Hin. unfold querySelectorAll in Hin.
      apply matching_from_selected in Hin as (el0 & Hnth & Hsel0 & _).
      rewrite Nat.sub_0_r in Hnth. congruence. }
  destruct Hsame as [(Hlen & _ & _ & Hattrs) Hother].
  split; [exact Hlen|]. intros i el Hi.
  destruct (Hattrs i el Hi) as (el' & Hi' & Hkeep).
  exists el'. split; [exact Hi'|]. split; [exact Hkeep|].
  intros Hsel. specialize (Hother i el Hi Hsel). congruence.
Qed.

(** X12.  A value of [location.search] with a malformed escape makes
    [updateParamsFromUrl] throw a URIError before it reads or writes the
    document, whatever [params] selects. *)
Theorem updateParamsFromUrl_throws_on_malformed_search :
  forall (c : config regexp) (pg : page) (k raw : jsstring),
    In (k, Some raw) (raw_pairs (location_search pg)) ->
    ~ well_escaped raw ->
    updateParamsFromUrl c pg = (pg, Err URIError).
Proof.
  intros c pg k raw Hin Hbad. unfold UpdateParams.updateParamsFromUrl.
  destruct (location_search pg) as [|ch0 q] eqn:Hq; [contradiction|].
  cbn [truthy negb]. rewrite parseQueryString_decodePairs.
  unfold decodePairs. rewrite (visits_throw _ k raw Hin Hbad). reflexivity.
Qed.

(** X13.  The values that [updateParamsFromUrl] propagates are those of the
    pairs whose key [params] selects, assigned in the order of the query, up
    to the first value that cannot be decoded: the key ["__proto__"] is
    never propagated, any other selected key carries the value of its last
    such pair, a key that is not selected is never propagated, and with
    [params] an empty array nothing is. *)
Theorem collect_keeps_selected_pairs :
  forall (params : option (list (param regexp))) (q : jsstring),
    let vals := fst (parseQueryString (collect regexp_match params) q Obj.empty) in
    vals =
      assign_all
        (filter (fun kv => selects regexp_match params (fst kv)) (fst (decodePairs q)))
        Obj.empty
    /\ (forall key, In key (keys vals) ->
          selects regexp_match params key = true /\ In key (map fst (raw_pairs q)))
    /\ (forall key,
          Obj.get vals key =
            if string_eqb key proto_key then None
            else if selects regexp_match params key
                 then last_value key (fst (decodePairs q)) else None)
    /\ (params = Some [] -> vals = Obj.empty).
Proof.
  intros params q vals.
  assert (Heq : vals =
                assign_all
                  (filter (fun kv => selects regexp_match params (fst kv))
                     (fst (decodePairs q)))
                  Obj.empty).
  { subst vals. rewrite parseQueryString_decodePairs. cbn [fst].
    apply call_all_collect. }
  split; [exact Heq|]. rewrite Heq. split; [|split].
  - intros key Hin.
    apply In_keys_assign_all in Hin as [[]|Hin].
    apply in_map_iff in Hin as ([k' v] & <- & Hin). cbn [fst] in *.
    apply filter_In in Hin as [Hin Hsel]. cbn [fst] in Hsel.
    split; [exact Hsel|].
    apply In_visits_keys. apply in_map_iff. now exists (k', v).
  - intros key. destruct (string_eqb key proto_key) eqn:Hkey.
    + apply string_eqb_eq in Hkey. subst key. now rewrite get_assign_all_proto.
    + apply string_eqb_neq in Hkey. rewrite get_assign_all by exact Hkey.
      rewrite last_value_filter. cbn [Obj.get Obj.empty].
      destruct (selects regexp_match params key); [|reflexivity].
      now destruct (last_value key (fst (decodePairs q))).
  - intros ->. cbn [selects existsb].
    generalize (fst (decodePairs q)). intros l.
    induction l as [|kv l IH]; [reflexivity|exact IH].
Qed.

End FrameFacts.

Section MergeFacts.
Import JS URI Obj ObjSpec Uri Escapes QueryCodecSpec RoundTrip LookupSpec.
Local Open Scope N_scope.








End MergeFacts.

Section ElementProperties.
Import JS URI Obj ObjSpec Uri Escapes QueryCodecSpec RoundTrip LookupSpec UpdateParams.
Local Open Scope N_scope.

Variable regexp : Type.
Variable url : Type.
Variable URL_new : jsstring -> jsstring -> option url.
Variable url_search : url -> jsstring.
Variable url_set_search : url -> jsstring -> url.
Variable url_toString : url -> jsstring.

Local Abbreviation update_element :=
  (@UpdateParams.update_element regexp url URL_new url_search url_set_search url_toString).





End ElementProperties.

Section PropagationWitnesses.
Import JS URI Obj ObjSpec Uri Escapes QueryCodecSpec RoundTrip LookupSpec UpdateParams
  UpdateParamsSpec ParamSelection.

(** A page at [?utm_source=a&x=1] with an image and a link, a selector that
    matches the elements with an [href], and a stand-in for [URL] that keeps
    the address as a string and finds [?id=7] in it. *)
Lemma updateParamsFromUrl_writes_only_attr_witness :
  let image := {| attributes := [(jsstr "src", jsstr "a.png")] |} in
  let link := {| attributes := [(jsstr "href", jsstr "https://y/"); (jsstr "class", jsstr "b")] |} in
  let pg := {| location_search := jsstr "?utm_source=a&x=1";
               location_href := jsstr "https://x/?utm_source=a&x=1";
               document := [image; link];
               accesses := [] |} in
  let pg' := fst (updateParamsFromUrl (fun _ (_ : unit) => true)
                    (fun _ el => has_own (attributes el) (jsstr "href"))
                    (fun h _ => Some h) (fun _ => jsstr "?id=7")
                    (fun u s => u ++ jsstr "?" ++ s) (fun u => u)
                    (UpdateParamsFromUrlDefaultConfig unit) pg) in
  nth_error (document pg') 0 = Some image
  /\ exists el', nth_error (document pg') 1 = Some el'
                 /\ getAttribute el' (jsstr "class") = Some (jsstr "b").
Proof.
  intros image link pg pg'.
  destruct (updateParamsFromUrl_writes_only_attr unit (fun _ (_ : unit) => true)
              (fun _ el => has_own (attributes el) (jsstr "href")) jsstring
              (fun h _ => Some h) (fun _ => jsstr "?id=7")
              (fun u s => u ++ jsstr "?" ++ s) (fun u => u)
              (UpdateParamsFromUrlDefaultConfig unit) pg) as [_ Hframe].
  split.
  - destruct (Hframe 0%nat image eq_refl) as (el' & Hnth & _ & Hsame).
    rewrite <- (Hsame eq_refl). exact Hnth.
  - destruct (Hframe 1%nat link eq_refl) as (el' & Hnth & Hkeep & _).
    exists el'. split; [exact Hnth|]. apply (Hkeep (jsstr "class")). discriminate.
Defined.

Lemma updateParamsFromUrl_throws_on_malformed_search_witness :
  let pg := {| location_search := jsstr "?utm_source=a&x=%ZZ";
               location_href := jsstr "https://x/?utm_source=a&x=%ZZ";
               document := [{| attributes := [(jsstr "href", jsstr "https://y/")] |}];
               accesses := [] |} in
  updateParamsFromUrl (fun _ (_ : unit) => false) (fun _ _ => true)
    (fun h _ => Some h) (fun _ => []) (fun u s => u ++ jsstr "?" ++ s) (fun u => u)
    (UpdateParamsFromUrlDefaultConfig unit) pg = (pg, Err URIError).
Proof.
  intros pg.
  apply (updateParamsFromUrl_throws_on_malformed_search unit (fun _ (_ : unit) => false)
           (fun _ _ => true) jsstring (fun h _ => Some h) (fun _ => [])
           (fun u s => u ++ jsstr "?" ++ s) (fun u => u)
           (UpdateParamsFromUrlDefaultConfig unit) pg (jsstr "x") (jsstr "%ZZ")).
  - right. left. reflexivity.
  - intros H. apply decodes_iff_well_escaped in H as [r Hr]. discriminate Hr.
Defined.

Lemma collect_keeps_selected_pairs_witness :
  let regexp_match := fun (key : jsstring) (_ : unit) => startsWith key (jsstr "utm_") in
  let params := Some [ParamString unit (jsstr "id"); ParamRegExp tt] in
  let vals := fst (parseQueryString (collect regexp_match params)
                     (jsstr "?utm_source=a&x=1&id=7&utm_source=b") Obj.empty) in
  Obj.get vals (jsstr "utm_source") = Some (jsstr "b")
  /\ Obj.get vals (jsstr "x") = None.
Proof.
  intros regexp_match params vals.
  destruct (collect_keeps_selected_pairs unit regexp_match params
              (jsstr "?utm_source=a&x=1&id=7&utm_source=b")) as (_ & _ & Hget & _).
  split.
  - exact (Hget (jsstr "utm_source")).
  - exact (Hget (jsstr "x")).
Defined.



End PropagationWitnesses.

(* ===================================================================== *)
(** ** The page over sequences of events *)
(* ===================================================================== *)

Section PageFacts.
Import JS YouTubeModal ModalScenarios ListenerScenarios.
Local Open Scope Z_scope.

Create Rewrite HintDb player_frame.

#[local] Hint Rewrite player_view_with_timers player_view_with_listeners
  player_view_with_history player_view_with_effects player_view_with_singleton
  player_view_effect player_view_setTimeout player_view_pushState
  player_view_addEventListener player_view_removeEventListener
  setVisible_player_view : player_frame.

Lemma effects_addEventListener f w : effects (addEventListener f w) = effects w.
Proof. unfold addEventListener. now break_branches. Qed.

Lemma effects_setVisible this enabled w :
  effects (setVisible this enabled w) = effects w.
Proof.
  unfold setVisible. break_branches; cbn; now rewrite ?effects_addEventListener.
Qed.

Lemma play_config this v upd start w :
  config (fst (play this v upd start w)) = config this.
Proof.
  unfold play. destruct (useHandlerOnMobile (config this) && mobile w)%bool.
  { now break_branches. }
  pose proof (setActive__config this true (Some v) upd w) as Hc.
  destruct (setActive_ this true (Some v) upd w) as [this' w']. cbn [fst] in Hc.
  break_branches; cbn [fst config set_activeVideoId_]; exact Hc.
Qed.

Lemma play_mobile this v upd start w :
  mobile (snd (play this v upd start w)) = mobile w.
Proof.
  unfold play. destruct (useHandlerOnMobile (config this) && mobile w)%bool.
  { now break_branches. }
  pose proof (setActive__mobile this true (Some v) upd w) as Hm.
  destruct (setActive_ this true (Some v) upd w) as [this' w']. cbn [snd] in Hm.
  break_branches; cbn [snd mobile with_player]; exact Hm.
Qed.

Lemma dispatch_keydown_config fs keyCode this w :
  config (fst (dispatch_keydown fs keyCode this w)) = config this.
Proof.
  revert this w. induction fs as [|f fs IH]; intros this w; cbn [dispatch_keydown];
    [reflexivity|].
  destruct (existsb (Nat.eqb f) (keydown_listeners w)); [|apply IH].
  unfold keyToggle. destruct (keyCode =? 27).
  - pose proof (setActive__config this false None None w) as Hc.
    destruct (setActive_ this false None None w) as [this' w']. cbn [fst] in Hc.
    now rewrite IH.
  - apply IH.
Qed.

Lemma dispatch_keydown_mobile fs keyCode this w :
  mobile (snd (dispatch_keydown fs keyCode this w)) = mobile w.
Proof.
  revert this w. induction fs as [|f fs IH]; intros this w; cbn [dispatch_keydown];
    [reflexivity|].
  destruct (existsb (Nat.eqb f) (keydown_listeners w)); [|apply IH].
  unfold keyToggle. destruct (keyCode =? 27).
  - pose proof (setActive__mobile this false None None w) as Hm.
    destruct (setActive_ this false None None w) as [this' w']. cbn [snd] in Hm.
    now rewrite IH.
  - apply IH.
Qed.

Lemma onHistoryChange__config this state w :
  config (fst (onHistoryChange_ this state w)) = config this.
Proof.
  unfold onHistoryChange_. destruct state as [[| |id]|]; try reflexivity.
  destruct (truthy id); [apply play_config|reflexivity].
Qed.

Lemma onHistoryChange__mobile this state w :
  mobile (snd (onHistoryChange_ this state w)) = mobile w.
Proof.
  unfold onHistoryChange_.
  destruct state as [[| |id]|]; cbn [snd]; try apply setVisible_mobile.
  destruct (truthy id); [apply play_mobile|apply setVisible_mobile].
Qed.

Lemma run_timer_frame body w :
  singleton (run_timer body w) = singleton w /\ mobile (run_timer body w) = mobile w
  /\ history_pushed (run_timer body w) = history_pushed w
  /\ keydown_listeners (run_timer body w) = keydown_listeners w.
Proof. destruct body; cbn [run_timer]; now break_branches. Qed.

(** Once the page has a modal it keeps one, with the same configuration. *)
Lemma step_keeps_config e w this :
  singleton w = Some this ->
  exists this', singleton (step e w) = Some this' /\ config this' = config this.
Proof.
  intros Hs. destruct e as [cfg|v|v start| |keyCode|state|i]; cbn [step].
  - unfold init. rewrite Hs. now exists this.
  - unfold module_play. rewrite Hs.
    pose proof (play_config this v None None w) as Hc.
    destruct (play this v None None w) as [this' w']. now exists this'.
  - rewrite Hs. destruct v as [id|]; [|now exists this].
    destruct (truthy id); [|now exists this].
    eexists. split; [reflexivity|]. apply play_config.
  - rewrite Hs. eexists. split; [reflexivity|]. apply setActive__config.
  - rewrite Hs. eexists. split; [reflexivity|]. apply dispatch_keydown_config.
  - cbn [singleton with_history]. rewrite Hs.
    destruct (history (config this)); [|now exists this].
    eexists. split; [reflexivity|]. apply onHistoryChange__config.
  - destruct (nth_error (timers w) i) as [[delay body]|]; [|now exists this].
    destruct (run_timer_frame body (with_timers (remove_nth (timers w) i) w)) as [-> _].
    now exists this.
Qed.

Lemma step_mobile e w : mobile (step e w) = mobile w.
Proof.
  destruct e as [cfg|v|v start| |keyCode|state|i]; cbn [step].
  - unfold init. destruct (singleton w); [reflexivity|].
    unfold new_YouTubeModal. destruct (parent_found w _); cbn [negb]; [|reflexivity].
    now break_branches.
  - unfold module_play. destruct (singleton w) as [this|]; [|reflexivity].
    pose proof (play_mobile this v None None w) as Hm.
    destruct (play this v None None w) as [this' w']. exact Hm.
  - destruct (singleton w) as [this|]; [|reflexivity].
    destruct v as [id|]; [|reflexivity]. destruct (truthy id); [|reflexivity].
    apply play_mobile.
  - destruct (singleton w) as [this|]; [|reflexivity]. apply setActive__mobile.
  - destruct (singleton w) as [this|]; [|reflexivity]. apply dispatch_keydown_mobile.
  - cbn [singleton with_history]. destruct (singleton w) as [this|]; [|reflexivity].
    destruct (history (config this)); [|reflexivity].
    unfold write_back. cbn [mobile with_singleton]. now rewrite onHistoryChange__mobile.
  - destruct (nth_error (timers w) i) as [[delay body]|]; [|reflexivity].
    now destruct (run_timer_frame body (with_timers (remove_nth (timers w) i) w))
      as (_ & -> & _).
Qed.

(** With the handler for phones in force no event reaches the player. *)
Lemma step_redirect_player_view e w this :
  singleton w = Some this ->
  (useHandlerOnMobile (config this) && mobile w)%bool = true ->
  player w = None ->
  player_view (step e w) = player_view w.
Proof.
  intros Hs Hr Hp. destruct e as [cfg|v|v start| |keyCode|state|i]; cbn [step].
  - unfold init. now rewrite Hs.
  - unfold module_play. rewrite Hs.
    destruct (play_redirect this v None None w Hr) as [Hv _].
    destruct (play this v None None w) as [this' w']. cbn [snd] in Hv.
    now autorewrite with player_frame.
  - rewrite Hs. destruct v as [id|]; [|reflexivity]. destruct (truthy id); [|reflexivity].
    unfold write_back. autorewrite with player_frame.
    now apply play_redirect.
  - rewrite Hs. unfold write_back. autorewrite with player_frame.
    apply setActive__player_view.
  - rewrite Hs. unfold write_back. autorewrite with player_frame.
    apply dispatch_keydown_player_view.
  - cbn [singleton with_history]. rewrite Hs.
    destruct (history (config this)); [|reflexivity].
    unfold write_back, onHistoryChange_. autorewrite with player_frame.
    destruct state as [[| |id]|]; cbn [snd]; autorewrite with player_frame;
      try reflexivity.
    destruct (truthy id); cbn [snd]; [|now autorewrite with player_frame].
    destruct (play_redirect this id (Some false) None
                (with_history (Some (JStr id)) (history_pushed w) w) Hr) as [-> _].
    reflexivity.
  - destruct (nth_error (timers w) i) as [[delay body]|]; [|reflexivity].
    destruct body as [enabled|name enabled]; cbn [run_timer player with_timers].
    + now rewrite Hp.
    + reflexivity.
Qed.

Lemma run_redirect_player_view events w this :
  singleton w = Some this ->
  (useHandlerOnMobile (config this) && mobile w)%bool = true ->
  player w = None ->
  player_view (run events w) = player_view w.
Proof.
  revert w this. induction events as [|e events IH]; intros w this Hs Hr Hp;
    [reflexivity|].
  cbn [run fold_left].
  destruct (step_keeps_config e w this Hs) as (this1 & Hs1 & Hc1).
  pose proof (step_redirect_player_view e w this Hs Hr Hp) as Hv.
  change (fold_left (fun w e => step e w) events (step e w)) with (run events (step e w)).
  rewrite (IH (step e w) this1 Hs1); [exact Hv| |].
  - now rewrite Hc1, step_mobile.
  - unfold player_view in Hv. congruence.
Qed.

Lemma setActive__no_push this active id upd w :
  history (config this) = false \/ upd = Some false ->
  history_pushed (snd (setActive_ this active id upd w)) = history_pushed w.
Proof.
  intros Hno. unfold setActive_.
  destruct (truthy_opt id), active; cbn beta iota zeta;
    cbn [config set_scrollY set_lastActiveVideoId_];
    destruct Hno as [-> | ->]; cbn [negb snd];
    break_branches; cbn [snd];
    rewrite ?history_pushed_setVisible; now break_branches.
Qed.

Lemma play_no_push this v upd start w :
  history (config this) = false \/ upd = Some false ->
  history_pushed (snd (play this v upd start w)) = history_pushed w.
Proof.
  intros Hno. unfold play.
  destruct (useHandlerOnMobile (config this) && mobile w)%bool.
  { now break_branches. }
  pose proof (setActive__no_push this true (Some v) upd w Hno) as Hp.
  destruct (setActive_ this true (Some v) upd w) as [this' w']. cbn [snd] in Hp.
  break_branches; cbn [snd history_pushed with_player]; exact Hp.
Qed.

Lemma dispatch_keydown_no_push fs keyCode this w :
  history (config this) = false ->
  history_pushed (snd (dispatch_keydown fs keyCode this w)) = history_pushed w.
Proof.
  revert this w. induction fs as [|f fs IH]; intros this w Hh; cbn [dispatch_keydown];
    [reflexivity|].
  destruct (existsb (Nat.eqb f) (keydown_listeners w)); [|now apply IH].
  unfold keyToggle. destruct (keyCode =? 27); [|now apply IH].
  pose proof (setActive__no_push this false None None w (or_introl Hh)) as Hp.
  pose proof (setActive__config this false None None w) as Hc.
  destruct (setActive_ this false None None w) as [this' w']. cbn [fst snd] in Hp, Hc.
  rewrite IH by congruence. exact Hp.
Qed.

Lemma onHistoryChange__no_push this state w :
  history_pushed (snd (onHistoryChange_ this state w)) = history_pushed w.
Proof.
  unfold onHistoryChange_.
  destruct state as [[| |id]|]; cbn [snd]; try apply history_pushed_setVisible.
  destruct (truthy id); cbn [snd]; [|apply history_pushed_setVisible].
  apply play_no_push. now right.
Qed.

Lemma init_no_push cfg w : history_pushed (fst (init cfg w)) = history_pushed w.
Proof.
  unfold init. destruct (singleton w); [reflexivity|].
  unfold new_YouTubeModal. destruct (parent_found w _); cbn [negb fst]; [|reflexivity].
  now break_branches.
Qed.

Lemma step_no_push e w this :
  singleton w = Some this -> history (config this) = false ->
  history_pushed (step e w) = history_pushed w.
Proof.
  intros Hs Hh. destruct e as [cfg|v|v start| |keyCode|state|i]; cbn [step].
  - apply init_no_push.
  - unfold module_play. rewrite Hs.
    pose proof (play_no_push this v None None w (or_introl Hh)) as Hp.
    destruct (play this v None None w) as [this' w']. exact Hp.
  - rewrite Hs. destruct v as [id|]; [|reflexivity]. destruct (truthy id); [|reflexivity].
    apply play_no_push. now left.
  - rewrite Hs. apply setActive__no_push. now left.
  - rewrite Hs. now apply dispatch_keydown_no_push.
  - cbn [singleton with_history]. rewrite Hs, Hh. reflexivity.
  - destruct (nth_error (timers w) i) as [[delay body]|]; [|reflexivity].
    now destruct (run_timer_frame body (with_timers (remove_nth (timers w) i) w))
      as (_ & _ & -> & _).
Qed.

Lemma run_no_push events w this :
  singleton w = Some this -> history (config this) = false ->
  history_pushed (run events w) = history_pushed w.
Proof.
  revert w this. induction events as [|e events IH]; intros w this Hs Hh; [reflexivity|].
  cbn [run fold_left].
  change (fold_left (fun w e => step e w) events (step e w)) with (run events (step e w)).
  destruct (step_keeps_config e w this Hs) as (this1 & Hs1 & Hc1).
  rewrite (IH (step e w) this1 Hs1) by congruence.
  now apply (step_no_push e w this).
Qed.

(** *** The Escape key *)

Lemma setVisible_false_listeners this w :
  keydown_listeners (setVisible this false w) =
    filter (fun g => negb (Nat.eqb g (functions_created w))) (keydown_listeners w).
Proof. unfold setVisible. now destruct (player w). Qed.

Lemma setActive__false_listeners this id upd w :
  keydown_listeners (snd (setActive_ this false id upd w)) =
    filter (fun g => negb (Nat.eqb g (functions_created w))) (keydown_listeners w).
Proof.
  unfold setActive_.
  destruct (truthy_opt id); cbn beta iota zeta; break_branches; cbn [snd];
    cbn [pushState keydown_listeners with_history];
    rewrite setVisible_false_listeners; now break_branches.
Qed.

Lemma dispatch_escape_clears fs this w :
  (forall f, In f (keydown_listeners w) -> In f fs) ->
  keydown_listeners (snd (dispatch_keydown fs 27 this w)) = [].
Proof.
  revert this w. induction fs as [|f fs IH]; intros this w Hsub; cbn [dispatch_keydown].
  - cbn [snd]. destruct (keydown_listeners w) as [|g l]; [reflexivity|].
    destruct (Hsub g (or_introl eq_refl)).
  - destruct (existsb (Nat.eqb f) (keydown_listeners w)) eqn:Hf.
    + unfold keyToggle. cbn [Z.eqb Pos.eqb].
      pose proof (setActive__false_listeners this None None w) as Hl.
      destruct (setActive_ this false None None w) as [this' w']. cbn [snd] in Hl.
      apply IH. intros g Hg.
      unfold removeEventListener in Hg. cbn [keydown_listeners with_listeners] in Hg.
      apply filter_In in Hg as [Hg Hne]. rewrite Hl in Hg.
      apply filter_In in Hg as [Hg _].
      destruct (Hsub g Hg) as [<-|Hin]; [|exact Hin].
      rewrite Nat.eqb_refl in Hne. discriminate.
    + apply IH. intros g Hg. destruct (Hsub g Hg) as [<-|Hin]; [|exact Hin].
      exfalso. rewrite <- not_true_iff_false in Hf. apply Hf.
      apply existsb_exists. exists f. split; [exact Hg|apply Nat.eqb_refl].
Qed.

Lemma dispatch_other_key fs keyCode this w :
  keyCode <> 27 -> dispatch_keydown fs keyCode this w = (this, w).
Proof.
  intros Hk. induction fs as [|f fs IH]; cbn [dispatch_keydown]; [reflexivity|].
  unfold keyToggle. replace (keyCode =? 27) with false by (symmetry; now apply Z.eqb_neq).
  now destruct (existsb (Nat.eqb f) (keydown_listeners w)).
Qed.

Lemma with_singleton_same w this : singleton w = Some this -> with_singleton (Some this) w = w.
Proof. destruct w. cbn. now intros ->. Qed.

Lemma filter_remove_head (f : nat) (fs : list nat) :
  ~ In f fs -> filter (fun g => negb (Nat.eqb g f)) (f :: fs) = fs.
Proof.
  intros Hf. cbn [filter]. rewrite Nat.eqb_refl. cbn [negb].
  induction fs as [|g fs IH]; [reflexivity|].
  cbn [filter]. replace (Nat.eqb g f) with false.
  - cbn [negb]. f_equal. apply IH. intros H. apply Hf. now right.
  - symmetry. apply Nat.eqb_neq. intros ->. apply Hf. now left.
Qed.

Lemma dispatch_escape_pushes fs this w :
  history (config this) = true -> keydown_listeners w = fs -> NoDup fs ->
  listeners_exist w ->
  pushed_ids (snd (dispatch_keydown fs 27 this w)) =
    pushed_ids w ++ repeat JNull (List.length fs).
Proof.
  revert this w. induction fs as [|f fs IH]; intros this w Hh Hl Hnd Hex;
    cbn [dispatch_keydown].
  - cbn. now rewrite app_nil_r.
  - rewrite Hl. cbn [existsb]. rewrite Nat.eqb_refl. cbn [orb].
    unfold keyToggle. cbn [Z.eqb Pos.eqb].
    pose proof (setActive__listener_view this false None None w Hex) as Hv.
    pose proof (close_pushes_null this w Hh) as Hp.
    pose proof (setActive__config this false None None w) as Hc.
    destruct (setActive_ this false None None w) as [this' w']. cbn [fst snd] in *.
    injection Hv as Hl' Hn'. rewrite Hl in Hl'.
    inversion Hnd as [|? ? Hnotin Hnd']; subst.
    rewrite IH.
    + unfold pushed_ids, removeEventListener. cbn [history_pushed with_listeners].
      fold (pushed_ids w) in Hp. rewrite Hp, <- app_assoc. reflexivity.
    + now rewrite Hc.
    + unfold removeEventListener. cbn [keydown_listeners with_listeners].
      rewrite Hl'. now apply filter_remove_head.
    + exact Hnd'.
    + unfold listeners_exist, removeEventListener.
      cbn [keydown_listeners with_listeners functions_created].
      rewrite Hl', Hn', filter_remove_head by exact Hnotin.
      unfold listeners_exist in Hex. rewrite Hl in Hex.
      inversion Hex; subst. eapply Forall_impl; [|eassumption].
      cbn. intros; lia.
Qed.

(** *** What an open records for the close *)

Lemma setActive__open_records this (v : jsstring) upd w :
  v <> [] ->
  lastActiveVideoId_ (fst (setActive_ this true (Some v) upd w)) = Some v
  /\ scrollY (fst (setActive_ this true (Some v) upd w)) = pageYOffset w.
Proof.
  intros Hv. unfold setActive_.
  replace (truthy_opt (Some v)) with true by (now destruct v).
  cbn beta iota zeta. cbn [config set_lastActiveVideoId_].
  break_branches; cbn [fst]; now split.
Qed.

Lemma play_records this (v : jsstring) upd start w :
  no_redirect this w -> v <> [] ->
  lastActiveVideoId_ (fst (play this v upd start w)) = Some v
  /\ scrollY (fst (play this v upd start w)) = pageYOffset w.
Proof.
  intros Hr Hv. unfold play. unfold no_redirect in Hr. rewrite Hr.
  pose proof (setActive__open_records this v upd w Hv) as Hrec.
  destruct (setActive_ this true (Some v) upd w) as [this' w']. cbn [fst] in Hrec.
  break_branches; cbn [fst lastActiveVideoId_ scrollY set_activeVideoId_]; exact Hrec.
Qed.

Lemma setActive__close_effects this w :
  effects (snd (setActive_ this false None None w)) =
    effects w
    ++ (if onModalClose (config this)
        then [ModalCloseCallback (lastActiveVideoId_ this)] else [])
    ++ [ScrollTo 0 (scrollY this)].
Proof.
  unfold setActive_. cbn [truthy_opt]. cbn beta iota zeta.
  destruct (onModalClose (config this)); cbn beta iota zeta;
    destruct (history (config this)); cbn [negb snd];
    cbn [pushState effects with_history];
    rewrite effects_setVisible; cbn [effect effects with_effects];
    now rewrite <- ?app_assoc.
Qed.

End PageFacts.

Section InvariantFacts.
Import JS YouTubeModal ModalScenarios ListenerScenarios PageInvariants.
Local Open Scope Z_scope.

(** *** The constructor's additions *)

Lemma setup_effects_effect e w :
  is_setup e = false -> setup_effects (effect e w) = setup_effects w.
Proof.
  intros He. unfold setup_effects, effect. cbn [effects with_effects].
  rewrite filter_app. cbn [filter]. rewrite He. apply app_nil_r.
Qed.

Lemma setup_effects_same w w' : effects w' = effects w -> setup_effects w' = setup_effects w.
Proof. unfold setup_effects. now intros ->. Qed.

Lemma setup_effects_pushState v u w : setup_effects (pushState v u w) = setup_effects w.
Proof. reflexivity. Qed.

Lemma setup_effects_setVisible this enabled w :
  setup_effects (setVisible this enabled w) = setup_effects w.
Proof. apply setup_effects_same, effects_setVisible. Qed.

Lemma setActive__setup_effects this active id upd w :
  setup_effects (snd (setActive_ this active id upd w)) = setup_effects w.
Proof.
  unfold setActive_.
  destruct (truthy_opt id), active; cbn beta iota zeta;
    break_branches; cbn [snd];
    rewrite ?setup_effects_pushState, ?setup_effects_setVisible,
      ?setup_effects_effect by reflexivity;
    reflexivity.
Qed.

Lemma play_setup_effects this v upd start w :
  setup_effects (snd (play this v upd start w)) = setup_effects w.
Proof.
  unfold play. destruct (useHandlerOnMobile (config this) && mobile w)%bool.
  { break_branches; cbn [snd]; now rewrite setup_effects_effect. }
  pose proof (setActive__setup_effects this true (Some v) upd w) as H.
  destruct (setActive_ this true (Some v) upd w) as [this' w']. cbn [snd] in H.
  break_branches; cbn [snd]; exact H.
Qed.

Lemma dispatch_keydown_setup_effects fs keyCode this w :
  setup_effects (snd (dispatch_keydown fs keyCode this w)) = setup_effects w.
Proof.
  revert this w. induction fs as [|f fs IH]; intros this w; cbn [dispatch_keydown];
    [reflexivity|].
  destruct (existsb (Nat.eqb f) (keydown_listeners w)); [|apply IH].
  unfold keyToggle. destruct (keyCode =? 27); [|apply IH].
  pose proof (setActive__setup_effects this false None None w) as H.
  destruct (setActive_ this false None None w) as [this' w']. cbn [snd] in H.
  rewrite IH. exact H.
Qed.

Lemma onHistoryChange__setup_effects this state w :
  setup_effects (snd (onHistoryChange_ this state w)) = setup_effects w.
Proof.
  unfold onHistoryChange_.
  destruct state as [[| |id]|]; cbn [snd];
    try apply setup_effects_setVisible.
  destruct (truthy id); cbn [snd];
    [apply play_setup_effects|apply setup_effects_setVisible].
Qed.

Lemma run_timer_setup_effects body w :
  setup_effects (run_timer body w) = setup_effects w.
Proof.
  destruct body; cbn [run_timer]; [now break_branches|].
  now apply setup_effects_effect.
Qed.

Lemma init_setup_effects opt_config w :
  match singleton (fst (init opt_config w)) with
  | None => singleton w = None /\ fst (init opt_config w) = w
  | Some this =>
      singleton w = Some this /\ fst (init opt_config w) = w
      \/ singleton w = None
         /\ setup_effects (fst (init opt_config w)) = setup_effects w ++ setup_of (config this)
  end.
Proof.
  unfold init. destruct (singleton w) as [this|] eqn:Hs.
  { cbn [fst]. rewrite Hs. now left. }
  unfold new_YouTubeModal. destruct (parent_found w _); cbn [negb fst].
  2:{ rewrite Hs. now split. }
  cbn [singleton with_singleton]. right. split; [reflexivity|].
  unfold setup_effects, setup_of, effect. cbn [effects with_effects with_singleton config].
  match goal with |- context [history ?c] => destruct (history c) end;
    cbn [effects with_effects];
    repeat rewrite <- app_assoc; rewrite filter_app; reflexivity.
Qed.

Lemma step_set_up_once e w : set_up_once w -> set_up_once (step e w).
Proof.
  unfold set_up_once. intros Hw.
  destruct e as [cfg|v|v start| |keyCode|state|i]; cbn [step].
  - pose proof (init_setup_effects cfg w) as Hi.
    destruct (singleton (fst (init cfg w))) as [this|].
    + destruct Hi as [[Hs ->]|[Hs ->]].
      * now rewrite Hs in Hw.
      * rewrite Hs in Hw. now rewrite Hw.
    + destruct Hi as [Hs ->]. now rewrite Hs in Hw.
  - unfold module_play. destruct (singleton w) as [this|] eqn:Hs; cbn [fst];
      [|now rewrite Hs].
    pose proof (play_setup_effects this v None None w) as Hp.
    pose proof (play_config this v None None w) as Hc.
    destruct (play this v None None w) as [this' w']. cbn [fst snd] in *.
    cbn [singleton with_singleton]. unfold setup_effects in *.
    cbn [effects with_singleton]. congruence.
  - destruct (singleton w) as [this|] eqn:Hs; [|now rewrite Hs].
    destruct v as [id|]; [|now rewrite Hs]. destruct (truthy id); [|now rewrite Hs].
    unfold write_back. cbn [singleton with_singleton].
    rewrite play_config. unfold setup_effects in *. cbn [effects with_singleton].
    fold (setup_effects (snd (play this id (Some false) (Some start) w))).
    now rewrite play_setup_effects.
  - destruct (singleton w) as [this|] eqn:Hs; [|now rewrite Hs].
    unfold write_back. cbn [singleton with_singleton].
    rewrite setActive__config. unfold setup_effects in *. cbn [effects with_singleton].
    fold (setup_effects (snd (setActive_ this false None None w))).
    now rewrite setActive__setup_effects.
  - destruct (singleton w) as [this|] eqn:Hs; [|now rewrite Hs].
    unfold write_back. cbn [singleton with_singleton].
    rewrite dispatch_keydown_config. unfold setup_effects in *.
    cbn [effects with_singleton].
    fold (setup_effects (snd (dispatch_keydown (keydown_listeners w) keyCode this w))).
    now rewrite dispatch_keydown_setup_effects.
  - cbn [singleton with_history].
    destruct (singleton w) as [this|] eqn:Hs; [|cbn [singleton with_history]; now rewrite Hs].
    destruct (history (config this)); [|cbn [singleton with_history]; now rewrite Hs].
    unfold write_back. cbn [singleton with_singleton].
    rewrite onHistoryChange__config. unfold setup_effects in *.
    cbn [effects with_singleton].
    fold (setup_effects
            (snd (onHistoryChange_ this state (with_history state (history_pushed w) w)))).
    now rewrite onHistoryChange__setup_effects.
  - destruct (nth_error (timers w) i) as [[delay body]|]; [|exact Hw].
    destruct (run_timer_frame body (with_timers (remove_nth (timers w) i) w)) as [-> _].
    cbn [singleton with_timers]. now rewrite run_timer_setup_effects.
Qed.

Lemma run_set_up_once events w : set_up_once w -> set_up_once (run events w).
Proof.
  revert w. induction events as [|e events IH]; intros w Hw; [exact Hw|].
  apply IH. now apply step_set_up_once.
Qed.

(** *** Timeouts that call the player *)

Lemma class_timers_only_same w w' :
  player w' = player w -> timers w' = timers w ->
  class_timers_only w -> class_timers_only w'.
Proof. unfold class_timers_only. now intros -> ->. Qed.

Lemma class_timers_only_effect e w : class_timers_only w -> class_timers_only (effect e w).
Proof. now apply class_timers_only_same. Qed.

Lemma class_timers_only_pushState v u w :
  class_timers_only w -> class_timers_only (pushState v u w).
Proof. now apply class_timers_only_same. Qed.

Lemma class_timers_only_setVisible this enabled w :
  class_timers_only w -> class_timers_only (setVisible this enabled w).
Proof.
  unfold class_timers_only, setVisible. intros Hw.
  destruct (player w) eqn:Hp; destruct enabled;
    unfold addEventListener, removeEventListener; break_branches;
    cbn [player timers setTimeout with_timers with_listeners];
    rewrite ?Hp; try discriminate;
    intros _; rewrite <- !app_assoc, forallb_app, Hw by reflexivity; reflexivity.
Qed.

Lemma class_timers_only_setActive_ this active id upd w :
  class_timers_only w -> class_timers_only (snd (setActive_ this active id upd w)).
Proof.
  intros Hw. unfold setActive_.
  destruct (truthy_opt id), active; cbn beta iota zeta;
    break_branches; cbn [snd];
    repeat first [ apply class_timers_only_pushState
                 | apply class_timers_only_setVisible
                 | apply class_timers_only_effect ];
    exact Hw.
Qed.

Lemma class_timers_only_play this v upd start w :
  class_timers_only w -> class_timers_only (snd (play this v upd start w)).
Proof.
  intros Hw. unfold play.
  destruct (useHandlerOnMobile (config this) && mobile w)%bool.
  { break_branches; cbn [snd]; now apply class_timers_only_effect. }
  pose proof (class_timers_only_setActive_ this true (Some v) upd w Hw) as H.
  destruct (setActive_ this true (Some v) upd w) as [this' w']. cbn [snd] in H.
  unfold class_timers_only in *.
  break_branches; cbn [snd player timers with_player]; try exact H;
    try discriminate; congruence.
Qed.

Lemma class_timers_only_dispatch fs keyCode this w :
  class_timers_only w -> class_timers_only (snd (dispatch_keydown fs keyCode this w)).
Proof.
  revert this w. induction fs as [|f fs IH]; intros this w Hw; cbn [dispatch_keydown];
    [exact Hw|].
  destruct (existsb (Nat.eqb f) (keydown_listeners w)); [|now apply IH].
  unfold keyToggle. destruct (keyCode =? 27); [|now apply IH].
  pose proof (class_timers_only_setActive_ this false None None w Hw) as H.
  destruct (setActive_ this false None None w) as [this' w']. cbn [snd] in H.
  apply IH. now apply (class_timers_only_same w').
Qed.

Lemma forallb_remove_nth {A} (f : A -> bool) (l : list A) (i : nat) :
  forallb f l = true -> forallb f (remove_nth l i) = true.
Proof.
  revert i. induction l as [|x l IH]; intros i; [now destruct i|].
  cbn [forallb]. intros H. apply andb_true_iff in H as [Hx Hl].
  destruct i; cbn [remove_nth forallb]; [exact Hl|]. now rewrite Hx, IH.
Qed.

Lemma step_class_timers_only e w : class_timers_only w -> class_timers_only (step e w).
Proof.
  intros Hw. destruct e as [cfg|v|v start| |keyCode|state|i]; cbn [step].
  - unfold init. destruct (singleton w); [exact Hw|].
    unfold new_YouTubeModal. destruct (parent_found w _); cbn [negb fst]; [|exact Hw].
    apply (class_timers_only_same w); [now break_branches|now break_branches|exact Hw].
  - unfold module_play. destruct (singleton w) as [this|]; [|exact Hw].
    pose proof (class_timers_only_play this v None None w Hw) as H.
    destruct (play this v None None w) as [this' w']. cbn [fst snd] in *.
    now apply (class_timers_only_same w').
  - destruct (singleton w) as [this|]; [|exact Hw].
    destruct v as [id|]; [|exact Hw]. destruct (truthy id); [|exact Hw].
    apply (class_timers_only_same (snd (play this id (Some false) (Some start) w)));
      [reflexivity|reflexivity|]. now apply class_timers_only_play.
  - destruct (singleton w) as [this|]; [|exact Hw].
    apply (class_timers_only_same (snd (setActive_ this false None None w)));
      [reflexivity|reflexivity|]. now apply class_timers_only_setActive_.
  - destruct (singleton w) as [this|]; [|exact Hw].
    apply (class_timers_only_same
             (snd (dispatch_keydown (keydown_listeners w) keyCode this w)));
      [reflexivity|reflexivity|]. now apply class_timers_only_dispatch.
  - assert (Hw' : class_timers_only (with_history state (history_pushed w) w))
      by now apply (class_timers_only_same w).
    cbn [singleton with_history]. destruct (singleton w) as [this|]; [|exact Hw'].
    destruct (history (config this)); [|exact Hw'].
    apply (class_timers_only_same
             (snd (onHistoryChange_ this state
                     (with_history state (history_pushed w) w))));
      [reflexivity|reflexivity|].
    unfold onHistoryChange_.
    destruct state as [[| |id]|]; cbn [snd];
      try (now apply class_timers_only_setVisible).
    destruct (truthy id); cbn [snd];
      [now apply class_timers_only_play|now apply class_timers_only_setVisible].
  - destruct (nth_error (timers w) i) as [[delay body]|]; [|exact Hw].
    assert (Hw' : class_timers_only (with_timers (remove_nth (timers w) i) w)).
    { unfold class_timers_only in *. cbn [player timers with_timers].
      intros Hp. now apply forallb_remove_nth, Hw. }
    destruct body as [enabled|name enabled]; cbn [run_timer].
    + destruct (player (with_timers (remove_nth (timers w) i) w)) eqn:Hp; [|exact Hw'].
      unfold class_timers_only. cbn [player with_player]. discriminate.
    + now apply class_timers_only_effect.
Qed.

Lemma run_class_timers_only events w :
  class_timers_only w -> class_timers_only (run events w).
Proof.
  revert w. induction events as [|e events IH]; intros w Hw; [exact Hw|].
  apply IH. now apply step_class_timers_only.
Qed.

(** *** The registered listeners *)

Lemma distinct_listeners_view w w' :
  listener_view w' = listener_view w -> distinct_listeners w -> distinct_listeners w'.
Proof.
  unfold distinct_listeners, listener_view. now intros [= -> ->].
Qed.

Lemma distinct_listeners_after w w' (enabled : bool) :
  distinct_listeners w ->
  listener_view w' =
    (if enabled then keydown_listeners w ++ [functions_created w]
     else keydown_listeners w,
     S (functions_created w)) ->
  distinct_listeners w'.
Proof.
  unfold distinct_listeners, listener_view. intros [Hex Hnd] [= -> ->].
  assert (Hex' : Forall (fun f => (f < S (functions_created w))%nat) (keydown_listeners w))
    by (eapply Forall_impl; [|exact Hex]; cbn; intros; lia).
  destruct enabled; [|now split]. split.
  - apply Forall_app. split; [exact Hex'|]. constructor; [lia|constructor].
  - apply NoDup_app; [exact Hnd|repeat constructor; intros []|].
    intros f Hf [<-|[]]. rewrite Forall_forall in Hex. specialize (Hex _ Hf). lia.
Qed.

Lemma distinct_listeners_setActive_ this active id upd w :
  distinct_listeners w -> distinct_listeners (snd (setActive_ this active id upd w)).
Proof.
  intros Hw. apply (distinct_listeners_after w _ active Hw).
  apply setActive__listener_view, Hw.
Qed.

Lemma distinct_listeners_setVisible this enabled w :
  distinct_listeners w -> distinct_listeners (setVisible this enabled w).
Proof.
  intros Hw. apply (distinct_listeners_after w _ enabled Hw).
  apply setVisible_listener_view, Hw.
Qed.

Lemma distinct_listeners_play this v upd start w :
  distinct_listeners w -> distinct_listeners (snd (play this v upd start w)).
Proof.
  intros Hw. destruct (useHandlerOnMobile (config this) && mobile w)%bool eqn:Hr.
  - apply (distinct_listeners_view w); [|exact Hw].
    unfold play. rewrite Hr. now break_branches.
  - apply (distinct_listeners_after w _ true Hw).
    apply play_listener_view; [exact Hr|apply Hw].
Qed.

Lemma distinct_listeners_remove f w :
  distinct_listeners w -> distinct_listeners (removeEventListener f w).
Proof.
  unfold distinct_listeners, removeEventListener.
  cbn [keydown_listeners functions_created with_listeners]. intros [Hex Hnd]. split.
  - rewrite Forall_forall in *. intros g Hg. apply filter_In in Hg as [Hg _]. auto.
  - now apply NoDup_filter.
Qed.

Lemma distinct_listeners_dispatch fs keyCode this w :
  distinct_listeners w -> distinct_listeners (snd (dispatch_keydown fs keyCode this w)).
Proof.
  revert this w. induction fs as [|f fs IH]; intros this w Hw; cbn [dispatch_keydown];
    [exact Hw|].
  destruct (existsb (Nat.eqb f) (keydown_listeners w)); [|now apply IH].
  unfold keyToggle. destruct (keyCode =? 27); [|now apply IH].
  pose proof (distinct_listeners_setActive_ this false None None w Hw) as H.
  destruct (setActive_ this false None None w) as [this' w']. cbn [snd] in H.
  apply IH. now apply distinct_listeners_remove.
Qed.

Lemma step_distinct_listeners e w : distinct_listeners w -> distinct_listeners (step e w).
Proof.
  intros Hw. destruct e as [cfg|v|v start| |keyCode|state|i]; cbn [step].
  - unfold init. destruct (singleton w); [exact Hw|].
    unfold new_YouTubeModal. destruct (parent_found w _); cbn [negb fst]; [|exact Hw].
    apply (distinct_listeners_view w); [now break_branches|exact Hw].
  - unfold module_play. destruct (singleton w) as [this|]; [|exact Hw].
    pose proof (distinct_listeners_play this v None None w Hw) as H.
    destruct (play this v None None w) as [this' w']. cbn [fst snd] in *.
    now apply (distinct_listeners_view w').
  - destruct (singleton w) as [this|]; [|exact Hw].
    destruct v as [id|]; [|exact Hw]. destruct (truthy id); [|exact Hw].
    apply (distinct_listeners_view (snd (play this id (Some false) (Some start) w)));
      [reflexivity|]. now apply distinct_listeners_play.
  - destruct (singleton w) as [this|]; [|exact Hw].
    apply (distinct_listeners_view (snd (setActive_ this false None None w)));
      [reflexivity|]. now apply distinct_listeners_setActive_.
  - destruct (singleton w) as [this|]; [|exact Hw].
    apply (distinct_listeners_view
             (snd (dispatch_keydown (keydown_listeners w) keyCode this w)));
      [reflexivity|]. now apply distinct_listeners_dispatch.
  - assert (Hw' : distinct_listeners (with_history state (history_pushed w) w))
      by now apply (distinct_listeners_view w).
    cbn [singleton with_history]. destruct (singleton w) as [this|]; [|exact Hw'].
    destruct (history (config this)); [|exact Hw'].
    apply (distinct_listeners_view
             (snd (onHistoryChange_ this state
                     (with_history state (history_pushed w) w))));
      [reflexivity|].
    unfold onHistoryChange_.
    destruct state as [[| |id]|]; cbn [snd];
      try (now apply distinct_listeners_setVisible).
    destruct (truthy id); cbn [snd];
      [now apply distinct_listeners_play|now apply distinct_listeners_setVisible].
  - destruct (nth_error (timers w) i) as [[delay body]|]; [|exact Hw].
    apply (distinct_listeners_view w); [|exact Hw].
    destruct body; cbn [run_timer]; now break_branches.
Qed.

Lemma run_distinct_listeners events w :
  distinct_listeners w -> distinct_listeners (run events w).
Proof.
  revert w. induction events as [|e events IH]; intros w Hw; [exact Hw|].
  apply IH. now apply step_distinct_listeners.
Qed.

End InvariantFacts.

Section PageProperties.
Import JS YouTubeModal ModalScenarios ListenerScenarios PageInvariants.
Local Open Scope Z_scope.

(** X16.  On a phone, with [useHandlerOnMobile] in force, the module never
    constructs a player and never calls one, whatever happens on the page:
    [play] only sends the browser to the video's page on m.youtube.com. *)
Theorem phone_page_never_builds_a_player :
  forall (events : list event) (w : World) (this : Modal),
    singleton w = Some this ->
    useHandlerOnMobile (config this) = true -> mobile w = true ->
    player w = None ->
    player (run events w) = None
    /\ player_calls (run events w) = player_calls w
    /\ (forall videoId : jsstring,
          step (CallPlay videoId) w =
            effect (Navigate (jsstr "https://m.youtube.com/watch?v=" ++ videoId)) w).
Proof.
  intros events w this Hs Hh Hm Hp.
  assert (Hr : (useHandlerOnMobile (config this) && mobile w)%bool = true)
    by now rewrite Hh, Hm.
  pose proof (run_redirect_player_view events w this Hs Hr Hp) as Hv.
  unfold player_view in Hv. injection Hv as Hplayer Hcalls.
  split; [congruence|]. split; [exact Hcalls|].
  intros videoId. cbn [step]. unfold module_play, play. rewrite Hs, Hr. cbn [fst].
  destruct w. cbn in *. now subst.
Qed.

Lemma phone_page_never_builds_a_player_witness :
  let w := fst (init None (fresh_page true (fun _ => true) (jsstr "/") 0)) in
  let events := [CallPlay (jsstr "abc"); ClickLink (Some (jsstr "xyz")) 30;
                 Popstate (Some (JStr (jsstr "abc"))); ClickClose; Keydown 27;
                 Timeout 0; CallPlay (jsstr "xyz")] in
  player (run events w) = None /\ player_calls (run events w) = [].
Proof.
  intros w events.
  destruct (phone_page_never_builds_a_player events w (new_modal defaultConfig)
              eq_refl eq_refl eq_refl eq_refl) as (Hplayer & Hcalls & _).
  split; [exact Hplayer|exact Hcalls].
Defined.

(** X17.  History entries come from the exported [play] and from closing
    only.  With [history] off nothing is ever pushed; and even with it on,
    a click on a video link and a [popstate] event push nothing, since both
    call [play] with [opt_updateState] false. *)
Theorem history_is_pushed_by_play_and_close_only :
  (forall (events : list event) (w : World) (this : Modal),
      singleton w = Some this -> history (config this) = false ->
      history_pushed (run events w) = history_pushed w)
  /\ (forall (w : World) (videoId : option jsstring) (startTime : Z),
        history_pushed (step (ClickLink videoId startTime) w) = history_pushed w)
  /\ (forall (w : World) (state : option jsval),
        history_pushed (step (Popstate state) w) = history_pushed w).
Proof.
  split; [exact run_no_push|]. split.
  - intros w videoId startTime. cbn [step].
    destruct (singleton w) as [this|]; [|reflexivity].
    destruct videoId as [id|]; [|reflexivity]. destruct (truthy id); [|reflexivity].
    apply play_no_push. now right.
  - intros w state. cbn [step singleton with_history].
    destruct (singleton w) as [this|]; [|reflexivity].
    destruct (history (config this)); [|reflexivity].
    unfold write_back. cbn [history_pushed with_singleton].
    now rewrite onHistoryChange__no_push.
Qed.

Lemma history_is_pushed_by_play_and_close_only_witness :
  history_pushed
    (run [CallPlay (jsstr "abc"); ClickClose; CallPlay (jsstr "xyz"); Keydown 27;
          Popstate None]
       (fst (init None desktop_page))) = [].
Proof.
  destruct history_is_pushed_by_play_and_close_only as [Hoff _].
  exact (Hoff [CallPlay (jsstr "abc"); ClickClose; CallPlay (jsstr "xyz"); Keydown 27;
               Popstate None]
           (fst (init None desktop_page)) (new_modal defaultConfig) eq_refl eq_refl).
Defined.

(** X18.  An Escape key press runs every registered [keydown] listener:
    each closes the modal and removes itself, so no listener is left and,
    with [history] on, one [null] entry is pushed per listener.  Any other
    key changes nothing.  The listeners of a page reached from a fresh load
    are distinct functions created earlier, as the count of entries
    assumes. *)
Theorem escape_runs_every_listener :
  (forall (w : World) (this : Modal),
      singleton w = Some this ->
      keydown_listeners (step (Keydown 27) w) = []
      /\ (forall keyCode : Z, keyCode <> 27 -> step (Keydown keyCode) w = w)
      /\ (history (config this) = true -> listeners_exist w ->
          NoDup (keydown_listeners w) ->
          pushed_ids (step (Keydown 27) w) =
            pushed_ids w ++ repeat JNull (List.length (keydown_listeners w))))
  /\ (forall (events : list event) (is_mobile : bool) (has_parent : jsstring -> bool) (path : jsstring)
             (offset : Z),
        let w := run events (fresh_page is_mobile has_parent path offset) in
        listeners_exist w /\ NoDup (keydown_listeners w)).
Proof.
  split.
  - intros w this Hs. split; [|split].
    + cbn [step]. rewrite Hs. unfold write_back. cbn [keydown_listeners with_singleton].
      apply dispatch_escape_clears. auto.
    + intros keyCode Hk. cbn [step]. rewrite Hs, dispatch_other_key by exact Hk.
      unfold write_back. cbn [fst snd]. now apply with_singleton_same.
    + intros Hh Hex Hnd. cbn [step]. rewrite Hs. unfold write_back.
      change (pushed_ids (with_singleton ?s ?x)) with (pushed_ids x).
      now apply dispatch_escape_pushes.
  - intros events is_mobile has_parent path offset.
    apply (run_distinct_listeners events). split; constructor.
Qed.

Lemma escape_runs_every_listener_witness :
  let w := run [CallInit (Some with_history_enabled); CallPlay (jsstr "abc");
                ClickClose; CallPlay (jsstr "abc")] desktop_page in
  keydown_listeners w = [0; 2]%nat
  /\ keydown_listeners (step (Keydown 27) w) = []
  /\ step (Keydown 13) w = w
  /\ pushed_ids (step (Keydown 27) w) = pushed_ids w ++ [JNull; JNull].
Proof.
  intros w.
  destruct escape_runs_every_listener as [Hescape Hreached].
  destruct (Hescape w
              {| config := with_history_enabled defaultConfig;
                 lastActiveVideoId_ := Some (jsstr "abc"); scrollY := 0;
                 activeVideoId_ := Some (jsstr "abc") |} eq_refl)
    as (Hclear & Hother & Hpush).
  split; [reflexivity|]. split; [exact Hclear|]. split; [apply Hother; discriminate|].
  destruct (Hreached [CallInit (Some with_history_enabled); CallPlay (jsstr "abc");
                      ClickClose; CallPlay (jsstr "abc")] false (fun _ => true)
              (jsstr "/") 0)
    as [Hex Hnd].
  apply Hpush; [reflexivity|exact Hex|exact Hnd].
Defined.

(** X19.  Closing undoes what the last [play] recorded: [onModalClose], when
    there is one, is called with the id of the video that [play] opened, and
    the page is scrolled back to the offset it had at that moment. *)
Theorem close_reports_the_video_and_scrolls_back :
  forall (this : Modal) (videoId : jsstring) (opt_updateState : option bool)
         (opt_startTime : option Z) (w w2 : World),
    no_redirect this w -> videoId <> [] ->
    let opened := fst (play this videoId opt_updateState opt_startTime w) in
    effects (snd (setActive_ opened false None None w2)) =
      effects w2
      ++ (if onModalClose (config this) then [ModalCloseCallback (Some videoId)] else [])
      ++ [ScrollTo 0 (pageYOffset w)].
Proof.
  intros this videoId upd start w w2 Hr Hv opened.
  rewrite setActive__close_effects. subst opened.
  destruct (play_records this videoId upd start w Hr Hv) as [-> ->].
  now rewrite play_config.
Qed.

Lemma close_reports_the_video_and_scrolls_back_witness :
  let page := fresh_page false (fun _ => true) (jsstr "/") 640 in
  let opened := fst (play (new_modal defaultConfig) (jsstr "abc") None (Some 30) page) in
  effects (snd (setActive_ opened false None None desktop_page)) = [ScrollTo 0 640].
Proof.
  intros page opened.
  apply (close_reports_the_video_and_scrolls_back (new_modal defaultConfig) (jsstr "abc")
           None (Some 30) page desktop_page); [reflexivity|discriminate].
Defined.

(** X20.  The configuration is fixed by the first successful [init]: after
    any sequence of events, later calls of [init] with other options
    included, the page still has a modal and its configuration is the
    same. *)
Theorem configuration_is_fixed_once_initialised :
  forall (events : list event) (w : World) (this : Modal),
    singleton w = Some this ->
    exists this', singleton (run events w) = Some this' /\ config this' = config this.
Proof.
  induction events as [|e events IH]; intros w this Hs; [now exists this|].
  destruct (step_keeps_config e w this Hs) as (this1 & Hs1 & Hc1).
  destruct (IH (step e w) this1 Hs1) as (this2 & Hs2 & Hc2).
  exists this2. split; [exact Hs2|congruence].
Qed.

Lemma configuration_is_fixed_once_initialised_witness :
  exists this',
    singleton
      (run [CallPlay (jsstr "abc"); CallInit (Some with_history_enabled); ClickClose;
            CallInit None; Popstate None]
         (fst (init None desktop_page))) = Some this'
    /\ config this' = defaultConfig.
Proof.
  exact (configuration_is_fixed_once_initialised
           [CallPlay (jsstr "abc"); CallInit (Some with_history_enabled); ClickClose;
            CallInit None; Popstate None]
           (fst (init None desktop_page)) (new_modal defaultConfig) eq_refl).
Defined.



(** X22.  The constructor runs at most once on a page: after any sequence
    of events the modal's DOM, the click listener and the script tag of the
    iframe API have been added exactly once when there is a modal, the
    [popstate] listener too when [history] is on, and none of them
    otherwise. *)
Theorem page_is_set_up_once :
  forall (events : list event) (is_mobile : bool) (has_parent : jsstring -> bool) (path : jsstring)
         (offset : Z),
    let w := run events (fresh_page is_mobile has_parent path offset) in
    match singleton w with
    | None => setup_effects w = []
    | Some this => setup_effects w = setup_of (config this)
    end.
Proof.
  intros events is_mobile has_parent path offset.
  apply (run_set_up_once events). reflexivity.
Qed.

(** X23.  A pending timeout that calls [player.playVideo] or
    [player.pauseVideo] exists only once the player does: on any page
    reached from a fresh load, when such a timeout fires [player] is not
    [null]. *)
Theorem player_timeouts_find_a_player :
  forall (events : list event) (is_mobile : bool) (has_parent : jsstring -> bool) (path : jsstring)
         (offset : Z) (i : nat) (delay : Z) (enabled : bool),
    let w := run events (fresh_page is_mobile has_parent path offset) in
    nth_error (timers w) i = Some (delay, PlayOrPause enabled) ->
    exists handle, player w = Some handle.
Proof.
  intros events is_mobile has_parent path offset i delay enabled w Hi.
  assert (Hw : class_timers_only w).
  { apply (run_class_timers_only events). intros _. reflexivity. }
  destruct (player w) as [handle|] eqn:Hp; [now exists handle|].
  specialize (Hw Hp). rewrite forallb_forall in Hw.
  specialize (Hw _ (nth_error_In _ _ Hi)). discriminate.
Qed.

Lemma player_timeouts_find_a_player_witness :
  exists handle,
    player (run [CallInit None; CallPlay (jsstr "abc"); ClickClose] desktop_page)
      = Some handle.
Proof.
  exact (player_timeouts_find_a_player
           [CallInit None; CallPlay (jsstr "abc"); ClickClose] false (fun _ => true)
           (jsstr "/") 0 2%nat 100 false eq_refl).
Defined.

End PageProperties.
